(** * AIGherkinGenerator: element extraction and uniqueness resolution

    A shallow embedding of [src/Utilities/utils.py]:
    - [add_uniqueness_context] with its helper [get_nested_value]
      (the Uniqueness Resolver),
    - [parse_html_for_elements] (the Element Extractor) with the bodies of
      its loops on paragraphs, buttons, images and icons, and
    - [determine_link_type];
    and of the resolver calls of [app.py].

    Python values are embedded as the inductive type [pyval]; a [dict] is an
    association list in insertion order (Python dicts iterate in insertion
    order, and [defaultdict(list).items()] is iterated by the resolver), an
    exception is an explicit [Raise] result.

    Scope of the value universe: [None], [bool], [int], [str], [list] and
    [dict] with string keys.  A [str] is a Rocq [string], one [ascii] per
    Python character.

    The resolver is embedded twice.  [add_uniqueness_context] works on a list
    of records as values: it is the call on a list of distinct dict objects
    (the extractor builds every record with a fresh dict literal).
    [Objects.add_uniqueness_context] works on a list of dict objects of a
    heap, where one object may be listed twice, with the writes of the
    tracker and [copy.deepcopy] as the source has them;
    [distinct_objects_are_values] relates the two. *)

From Stdlib Require Import String Ascii List ZArith Bool Arith Lia Permutation.
From Stdlib Require Import DecimalString.
Import ListNotations.
Open Scope string_scope.
Open Scope list_scope.

Set Warnings "-register-all".

(** ** Python values *)

Inductive pyval : Type :=
| PNone
| PBool (b : bool)
| PInt (z : Z)
| PStr (s : string)
| PList (l : list pyval)
| PDict (d : list (string * pyval)).

Definition pydict := list (string * pyval).

(** Exceptions the modelled code can raise. *)
Inductive exn := AttributeError | TypeError | KeyError | IndexError | ValueError.

Inductive res (A : Type) : Type :=
| Ok (a : A)
| Raise (e : exn).
Arguments Ok {A} a.
Arguments Raise {A} e.

Definition bind {A B} (c : res A) (k : A -> res B) : res B :=
  match c with
  | Ok a => k a
  | Raise e => Raise e
  end.

Notation "x <- c ;; k" := (bind c (fun x => k))
  (at level 61, c at next level, right associativity).
Notation "' p <- c ;; k" := (bind c (fun x => match x with p => k end))
  (at level 61, p pattern, c at next level, right associativity).

(** [bool(v)]: Python truthiness. *)
Definition truthy (v : pyval) : bool :=
  match v with
  | PNone => false
  | PBool b => b
  | PInt z => negb (z =? 0)%Z
  | PStr s => negb (s =? "")
  | PList l => match l with [] => false | _ => true end
  | PDict d => match d with [] => false | _ => true end
  end.

Definition is_none (v : pyval) : bool :=
  match v with PNone => true | _ => false end.

(** [a or b]. *)
Definition py_or (a b : pyval) : pyval := if truthy a then a else b.

(** ** Dictionaries (insertion-ordered, string keys) *)

Fixpoint dict_get (k : string) (d : pydict) : option pyval :=
  match d with
  | [] => None
  | (k', v) :: d' => if k' =? k then Some v else dict_get k d'
  end.

(** [d[k] = v]: an existing key keeps its position, a new key goes last. *)
Fixpoint dict_set (k : string) (v : pyval) (d : pydict) : pydict :=
  match d with
  | [] => [(k, v)]
  | (k', v') :: d' =>
      if k' =? k then (k', v) :: d' else (k', v') :: dict_set k v d'
  end.

Fixpoint dict_remove (k : string) (d : pydict) : pydict :=
  match d with
  | [] => []
  | (k', v') :: d' => if k' =? k then d' else (k', v') :: dict_remove k d'
  end.

(** [d[k]]. *)
Definition dict_getitem (d : pydict) (k : string) : res pyval :=
  match dict_get k d with
  | Some v => Ok v
  | None => Raise KeyError
  end.

(** [d.pop(k)]: the value and the dictionary without the key. *)
Definition dict_pop (d : pydict) (k : string) : res (pyval * pydict) :=
  match dict_get k d with
  | Some v => Ok (v, dict_remove k d)
  | None => Raise KeyError
  end.

(** [v.get(k, default)]; only a dict has [get]. *)
Definition py_get (v : pyval) (k : string) (default : pyval) : res pyval :=
  match v with
  | PDict d => Ok (match dict_get k d with Some x => x | None => default end)
  | _ => Raise AttributeError
  end.

(** ** Strings *)

Definition char_slash : ascii := "/"%char.
Definition char_question : ascii := "?"%char.

(** [s.split(sep)] for a non-empty separator: scan left to right, matches do
    not overlap.  [skip] counts the separator characters still to pass. *)
Fixpoint split_aux (sep s : string) (skip : nat) (cur : string) : list string :=
  match s with
  | EmptyString => [cur]
  | String c s' =>
      match skip with
      | S k => split_aux sep s' k cur
      | O =>
          if prefix sep s
          then cur :: split_aux sep s' (String.length sep - 1) ""
          else split_aux sep s' 0 (cur ++ String c "")%string
      end
  end.

Definition py_split (sep s : string) : list string := split_aux sep s 0 "".

(** [s.split(c, 1)[-1]]: what follows the first [c], the whole string when
    there is none. *)
Fixpoint after_first (c : ascii) (s : string) : option string :=
  match s with
  | EmptyString => None
  | String a s' => if Ascii.eqb a c then Some s' else after_first c s'
  end.

Definition split1_last (c : ascii) (s : string) : string :=
  match after_first c s with Some r => r | None => s end.

(** [s.split(c)[0]]. *)
Fixpoint before_first (c : ascii) (s : string) : string :=
  match s with
  | EmptyString => EmptyString
  | String a s' => if Ascii.eqb a c then EmptyString else String a (before_first c s')
  end.

(** [s.rstrip(c)]. *)
Fixpoint rstrip_char (c : ascii) (s : string) : string :=
  match s with
  | EmptyString => EmptyString
  | String a s' =>
      match rstrip_char c s' with
      | EmptyString => if Ascii.eqb a c then EmptyString else String a EmptyString
      | r => String a r
      end
  end.

Fixpoint chars (s : string) : list string :=
  match s with
  | EmptyString => []
  | String a s' => String a "" :: chars s'
  end.

Fixpoint all_strs (l : list pyval) : option (list string) :=
  match l with
  | [] => Some []
  | PStr s :: l' => option_map (cons s) (all_strs l')
  | _ :: _ => None
  end.

(** [sep.join(v)]: [v] is iterated; every item must be a [str]. *)
Definition py_join (sep : string) (v : pyval) : res string :=
  match v with
  | PStr s => Ok (String.concat sep (chars s))
  | PList l =>
      match all_strs l with
      | Some ss => Ok (String.concat sep ss)
      | None => Raise TypeError
      end
  | PDict d => Ok (String.concat sep (map fst d))
  | _ => Raise TypeError
  end.

(** The double-quote character. *)
Definition dquote : ascii := "034"%char.

(** [repr] of a [str]. *)
Definition contains_char (c : ascii) (s : string) : bool :=
  match after_first c s with Some _ => true | None => false end.

Definition hex_digit (n : nat) : ascii :=
  nth n ["0"; "1"; "2"; "3"; "4"; "5"; "6"; "7"; "8"; "9";
         "a"; "b"; "c"; "d"; "e"; "f"]%char "0"%char.

Definition repr_char (quote : ascii) (a : ascii) : string :=
  let n := nat_of_ascii a in
  if Ascii.eqb a quote || Ascii.eqb a "\"%char then String "\"%char (String a "")
  else if (n =? 9)%nat then "\t"
  else if (n =? 10)%nat then "\n"
  else if (n =? 13)%nat then "\r"
  else if (n <? 32)%nat || ((127 <=? n)%nat && (n <=? 160)%nat) || (n =? 173)%nat
       then String "\"%char (String "x"%char
              (String (hex_digit (n / 16)) (String (hex_digit (n mod 16)) "")))
  else String a "".

Fixpoint repr_chars (quote : ascii) (s : string) : string :=
  match s with
  | EmptyString => EmptyString
  | String a s' => (repr_char quote a ++ repr_chars quote s')%string
  end.

Definition repr_str (s : string) : string :=
  let quote :=
    if contains_char "'"%char s && negb (contains_char dquote s)
    then dquote else "'"%char in
  String quote (repr_chars quote s ++ String quote "")%string.

Definition str_of_int (z : Z) : string := NilZero.string_of_int (Z.to_int z).

Fixpoint py_repr (v : pyval) : string :=
  match v with
  | PNone => "None"
  | PBool true => "True"
  | PBool false => "False"
  | PInt z => str_of_int z
  | PStr s => repr_str s
  | PList l => ("[" ++ String.concat ", " (map py_repr l) ++ "]")%string
  | PDict d =>
      ("{" ++ String.concat ", "
               (map (fun kv => match kv with
                               | (k, x) => repr_str k ++ ": " ++ py_repr x
                               end) d) ++ "}")%string
  end.

(** [str(v)], as an f-string formats a value. *)
Definition py_str (v : pyval) : string :=
  match v with
  | PStr s => s
  | _ => py_repr v
  end.

(** ** Hashing and dictionary keys

    [None], [bool], [int] and [str] are hashable, [list] and [dict] are not;
    as dictionary keys [True] and [1] (and [False] and [0]) are the same
    key. *)

Definition hashable (v : pyval) : bool :=
  match v with
  | PList _ | PDict _ => false
  | _ => true
  end.

Definition py_index (v : pyval) : option Z :=
  match v with
  | PInt z => Some z
  | PBool b => Some (if b then 1 else 0)%Z
  | _ => None
  end.

Definition key_eqb (a b : pyval) : bool :=
  match a, b with
  | PNone, PNone => true
  | PStr s, PStr t => s =? t
  | (PInt _ | PBool _), (PInt _ | PBool _) =>
      match py_index a, py_index b with
      | Some x, Some y => (x =? y)%Z
      | _, _ => false
      end
  | _, _ => false
  end.

(** ** Lists updated by index *)

Fixpoint list_update {A} (i : nat) (x : A) (l : list A) : list A :=
  match l, i with
  | [], _ => []
  | _ :: l', O => x :: l'
  | a :: l', S j => a :: list_update j x l'
  end.

(** [l[idx] = x]: an index is an [int] (or [bool]); a negative index counts
    from the end; out of range raises [IndexError]. *)
Definition list_setitem {A} (l : list A) (idx : pyval) (x : A) : res (list A) :=
  match py_index idx with
  | None => Raise TypeError
  | Some z =>
      let n := Z.of_nat (length l) in
      if ((0 <=? z) && (z <? n))%Z then Ok (list_update (Z.to_nat z) x l)
      else if ((- n <=? z) && (z <? 0))%Z then Ok (list_update (Z.to_nat (n + z)) x l)
      else Raise IndexError
  end.

(** * The Uniqueness Resolver *)

(** ** [get_nested_value] (utils.py, lines 836-891) *)

(** The [for key in keys] loop: [None] stands for the early [return None]. *)
Fixpoint traverse (keys : list string) (current_value : pyval) : option pyval :=
  match keys with
  | [] => Some current_value
  | key :: rest =>
      match current_value with
      | PDict d =>
          match dict_get key d with
          | None | Some PNone => None
          | Some v => traverse rest v
          end
      | _ => None
      end
  end.

Definition dict_get_default (k : string) (d : pydict) (default : pyval) : pyval :=
  match dict_get k d with Some v => v | None => default end.

Definition is_list (v : pyval) : bool :=
  match v with PList _ => true | _ => false end.

Definition quoted (s : string) : string :=
  String dquote (s ++ String dquote "")%string.

(** The body of the [try] block. *)
Definition get_nested_value_body (data_dict : pydict) (key_path : string) : res pyval :=
  let keys := py_split "." key_path in
  if key_path =? "sibling_text" then
    Ok (py_or (dict_get_default "next_sibling_text" data_dict PNone)
              (dict_get_default "prev_sibling_text" data_dict PNone))
  else if key_path =? "parent_classes" then
    let parent_info := dict_get_default "parent" data_dict PNone in
    if truthy parent_info then
      p_classes <- py_get parent_info "classes" PNone ;;
      if truthy p_classes
      then (joined <- py_join " " p_classes ;; Ok (PStr joined))
      else Ok PNone
    else Ok PNone
  else if key_path =? "parent_description" then
    let parent_info := dict_get_default "parent" data_dict PNone in
    if truthy parent_info then
      desc <- py_get parent_info "tag" (PStr "element") ;;
      parent_id <- py_get parent_info "id" PNone ;;
      parent_classes <- py_get parent_info "classes" PNone ;;
      if truthy parent_id then
        Ok (PStr (py_str desc ++ " with ID " ++ quoted (py_str parent_id))%string)
      else if truthy parent_classes then
        joined <- py_join " " parent_classes ;;
        Ok (PStr (py_str desc ++ " with classes " ++ quoted joined)%string)
      else Ok (PStr ("parent " ++ py_str desc)%string)
    else Ok PNone
  else if key_path =? "href" then
    let href := dict_get_default "href" data_dict (PStr "") in
    if truthy href then
      match href with
      | PStr h =>
          let h1 := split1_last char_slash (last (py_split "//" h) "") in
          Ok (PStr (before_first char_question (rstrip_char char_slash h1)))
      | _ => Raise AttributeError
      end
    else Ok PNone
  else
    match traverse keys (PDict data_dict) with
    | None => Ok PNone
    | Some current_value =>
        if (key_path =? "classes") && is_list current_value then
          if truthy current_value
          then (joined <- py_join " " current_value ;; Ok (PStr joined))
          else Ok PNone
        else Ok current_value
    end.

(** [except (AttributeError, TypeError): return None].  The body raises
    nothing else, see [get_nested_value_body_raises]. *)
Definition get_nested_value (data_dict : pydict) (key_path : string) : pyval :=
  match get_nested_value_body data_dict key_path with
  | Ok v => v
  | Raise _ => PNone
  end.

(** ** [add_uniqueness_context] (utils.py, lines 818-979) *)

Definition original_index_key : string := "_original_index".
Definition uniqueness_context_key : string := "uniqueness_context".

(** [for i, element in enumerate(elements_data): element['_original_index'] = i] *)
Fixpoint enumerate_from (i : nat) (elements_data : list pydict) : list pydict :=
  match elements_data with
  | [] => []
  | element :: rest =>
      dict_set original_index_key (PInt (Z.of_nat i)) element
        :: enumerate_from (S i) rest
  end.

(** A [defaultdict(list)] keyed by derived values, in insertion order. *)
Definition groups := list (pyval * list pydict).

Fixpoint group_append (k : pyval) (x : pydict) (g : groups) : groups :=
  match g with
  | [] => [(k, [x])]
  | (k', xs) :: g' =>
      if key_eqb k' k then (k', xs ++ [x]) :: g'
      else (k', xs) :: group_append k x g'
  end.

(** [g[k].append(x)]: the key is hashed first. *)
Definition defaultdict_append (g : groups) (k : pyval) (x : pydict) : res groups :=
  if hashable k then Ok (group_append k x g) else Raise TypeError.

(** [for element in l: g[get_nested_value(element, key)].append(element)] *)
Fixpoint group_by_key (key : string) (l : list pydict) (g : groups) : res groups :=
  match l with
  | [] => Ok g
  | element :: rest =>
      g' <- defaultdict_append g (get_nested_value element key) element ;;
      group_by_key key rest g'
  end.

(** [resolved_in_this_group]: original index -> context level. *)
Definition resolved_map := list (pyval * string).

(** [original_idx in resolved_in_this_group] *)
Definition resolved_contains (r : resolved_map) (k : pyval) : res bool :=
  if hashable k then Ok (existsb (fun p => key_eqb (fst p) k) r)
  else Raise TypeError.

Definition make_context (level : string) (value : pyval) : pyval :=
  PDict [("level", PStr level); ("value", value)].

(** Lines 941-959: the record with its [uniqueness_context], if any. *)
Definition annotate (primary_key context_level_key : string)
    (context_value : pyval) (resolved_element : pydict) : pydict :=
  if negb (is_none context_value) then
    if (context_level_key =? "id") && (primary_key =? "text") then
      let href := get_nested_value resolved_element "href" in
      if truthy href then
        dict_set uniqueness_context_key (make_context "href" href) resolved_element
      else
        dict_set uniqueness_context_key
          (make_context context_level_key context_value) resolved_element
    else
      dict_set uniqueness_context_key
        (make_context context_level_key context_value) resolved_element
  else resolved_element.

Record level_state := {
  elements_still_ambiguous_next : list pydict;
  resolved_in_this_group : resolved_map;
  processed_elements_data : list (option pydict)
}.

(** One iteration of [for context_value, subgroup in
    subgroups_at_this_level.items()] (lines 934-966). *)
Definition check_subgroup (primary_key context_level_key : string)
    (context_value : pyval) (subgroup : list pydict) (st : level_state)
  : res level_state :=
  match subgroup with
  | [resolved_element] =>
      original_idx <- dict_getitem resolved_element original_index_key ;;
      seen <- resolved_contains (resolved_in_this_group st) original_idx ;;
      if negb seen then
        let resolved_element :=
          annotate primary_key context_level_key context_value resolved_element in
        let resolved' := (original_idx, context_level_key) :: resolved_in_this_group st in
        '(_, stored) <- dict_pop resolved_element original_index_key ;;
        processed' <- list_setitem (processed_elements_data st) original_idx (Some stored) ;;
        Ok {| elements_still_ambiguous_next := elements_still_ambiguous_next st;
              resolved_in_this_group := resolved';
              processed_elements_data := processed' |}
      else Ok st
  | _ =>
      Ok {| elements_still_ambiguous_next := elements_still_ambiguous_next st ++ subgroup;
            resolved_in_this_group := resolved_in_this_group st;
            processed_elements_data := processed_elements_data st |}
  end.

Fixpoint check_subgroups (primary_key context_level_key : string)
    (subgroups_at_this_level : groups) (st : level_state) : res level_state :=
  match subgroups_at_this_level with
  | [] => Ok st
  | (context_value, subgroup) :: rest =>
      st' <- check_subgroup primary_key context_level_key context_value subgroup st ;;
      check_subgroups primary_key context_level_key rest st'
  end.

(** [for context_level_key in context_hierarchy] (lines 920-969); the result
    is the still ambiguous subgroup and the result list. *)
Fixpoint resolve_levels (primary_key : string) (context_hierarchy : list string)
    (ambiguous_subgroup : list pydict) (resolved : resolved_map)
    (processed : list (option pydict))
  : res (list pydict * list (option pydict)) :=
  match context_hierarchy with
  | [] => Ok (ambiguous_subgroup, processed)
  | context_level_key :: rest =>
      match ambiguous_subgroup with
      | [] => Ok (ambiguous_subgroup, processed)
      | _ =>
          subgroups_at_this_level <-
            group_by_key context_level_key ambiguous_subgroup [] ;;
          st <- check_subgroups primary_key context_level_key subgroups_at_this_level
                  {| elements_still_ambiguous_next := [];
                     resolved_in_this_group := resolved;
                     processed_elements_data := processed |} ;;
          resolve_levels primary_key rest (elements_still_ambiguous_next st)
            (resolved_in_this_group st) (processed_elements_data st)
      end
  end.

(** [for ambiguous_element in ambiguous_subgroup] (lines 972-975). *)
Fixpoint store_ambiguous (ambiguous_subgroup : list pydict)
    (processed : list (option pydict)) : res (list (option pydict)) :=
  match ambiguous_subgroup with
  | [] => Ok processed
  | ambiguous_element :: rest =>
      '(original_idx, stored) <- dict_pop ambiguous_element original_index_key ;;
      processed' <- list_setitem processed original_idx (Some stored) ;;
      store_ambiguous rest processed'
  end.

(** The body of [for primary_value, group in initial_groups.items()].
    On values [copy.deepcopy(group)] is the identity; the copies of dict
    objects are made in [Objects.process_group]. *)
Definition process_group (primary_key : string) (context_hierarchy : list string)
    (group : list pydict) (processed : list (option pydict))
  : res (list (option pydict)) :=
  match group with
  | [element] =>
      '(original_idx, stored) <- dict_pop element original_index_key ;;
      list_setitem processed original_idx (Some stored)
  | _ =>
      '(ambiguous_subgroup, processed') <-
        resolve_levels primary_key context_hierarchy group [] processed ;;
      store_ambiguous ambiguous_subgroup processed'
  end.

Fixpoint process_groups (primary_key : string) (context_hierarchy : list string)
    (initial_groups : groups) (processed : list (option pydict))
  : res (list (option pydict)) :=
  match initial_groups with
  | [] => Ok processed
  | (_, group) :: rest =>
      processed' <- process_group primary_key context_hierarchy group processed ;;
      process_groups primary_key context_hierarchy rest processed'
  end.

(** [[elem for elem in processed_elements_data if elem is not None]] *)
Fixpoint drop_none {A} (l : list (option A)) : list A :=
  match l with
  | [] => []
  | Some x :: l' => x :: drop_none l'
  | None :: l' => drop_none l'
  end.

Definition add_uniqueness_context (elements_data : list pydict)
    (primary_key : string) (context_hierarchy : list string) : res (list pydict) :=
  let tracked := enumerate_from 0 elements_data in
  initial_groups <- group_by_key primary_key tracked [] ;;
  processed <-
    process_groups primary_key context_hierarchy initial_groups
      (repeat None (length elements_data)) ;;
  Ok (drop_none processed).

(** ** What the resolver computes, record by record

    These definitions follow the description of the algorithm in the
    specification (section 4.2): the records of a group that have the same
    derived value at a level form a subgroup; a subgroup of size 1 is
    resolved; the others stay ambiguous. *)

(** The records of [pool] whose derived value at [key] is the one of [t]. *)
Definition subgroup (key : string) (pool : list pydict) (t : pydict) : list pydict :=
  filter (fun u => key_eqb (get_nested_value u key) (get_nested_value t key)) pool.

Definition alone (key : string) (pool : list pydict) (t : pydict) : bool :=
  (length (subgroup key pool t) =? 1)%nat.

(** The records that a level leaves ambiguous. *)
Definition still_ambiguous (key : string) (pool : list pydict) : list pydict :=
  filter (fun t => negb (alone key pool t)) pool.

(** The still ambiguous records before the level at each position. *)
Fixpoint pool_at (context_hierarchy : list string) (k : nat) (pool : list pydict)
  : list pydict :=
  match k, context_hierarchy with
  | S k', level :: rest => pool_at rest k' (still_ambiguous level pool)
  | _, _ => pool
  end.

(** The position of the first level at which [t] is alone in its subgroup. *)
Fixpoint resolution_level (context_hierarchy : list string) (pool : list pydict)
    (t : pydict) : option nat :=
  match context_hierarchy with
  | [] => None
  | level :: rest =>
      if alone level pool t then Some 0
      else option_map S (resolution_level rest (still_ambiguous level pool) t)
  end.

(** What is stored in the result list: the record without the tracker. *)
Definition stored (t : pydict) : pydict := dict_remove original_index_key t.

Definition outcome (primary_key : string) (context_hierarchy : list string)
    (pool : list pydict) (t : pydict) : pydict :=
  match resolution_level context_hierarchy pool t with
  | Some k =>
      let level := nth k context_hierarchy "" in
      stored (annotate primary_key level (get_nested_value t level) t)
  | None => stored t
  end.

(** The output record of the tracked record [t] of the tracked list [T]. *)
Definition resolved_record (primary_key : string) (context_hierarchy : list string)
    (T : list pydict) (t : pydict) : pydict :=
  let group := subgroup primary_key T t in
  if (length group =? 1)%nat then stored t
  else outcome primary_key context_hierarchy group t.

(** What a resolved record reports (specification, 4.2 step 2b): the level
    and its value, or the href-derived value when the level is [id] and the
    primary key is [text]. *)
Definition href_preferred (primary_key level : string) (t : pydict) : bool :=
  (level =? "id") && (primary_key =? "text")
  && truthy (get_nested_value t "href").

Definition reported_level (primary_key level : string) (t : pydict) : string :=
  if href_preferred primary_key level t then "href" else level.

Definition reported_value (primary_key level : string) (t : pydict) : pyval :=
  if href_preferred primary_key level t
  then get_nested_value t "href"
  else get_nested_value t level.

Definition reported_context (primary_key level : string) (t : pydict) : pyval :=
  make_context (reported_level primary_key level t)
               (reported_value primary_key level t).

(** The list as the resolver sees it: every record carries its position. *)
Definition track (i : nat) (e : pydict) : pydict :=
  dict_set original_index_key (PInt (Z.of_nat i)) e.

Definition tracked (elements_data : list pydict) : list pydict :=
  enumerate_from 0 elements_data.

(** The records that share the primary value of the [i]-th record [e]. *)
Definition primary_group (elements_data : list pydict) (primary_key : string)
    (i : nat) (e : pydict) : list pydict :=
  subgroup primary_key (tracked elements_data) (track i e).

(** A record as it is returned when no context is assigned, and with one. *)
Definition plain (e : pydict) : pydict := dict_remove original_index_key e.

Definition with_context (c : pyval) (e : pydict) : pydict :=
  dict_set uniqueness_context_key c (plain e).

(** The tracker of a record, and what a well tracked record looks like. *)
Definition oidx (t : pydict) : nat :=
  match dict_get original_index_key t with
  | Some (PInt z) => Z.to_nat z
  | _ => 0
  end.

Definition well_tracked (n : nat) (t : pydict) : Prop :=
  dict_get original_index_key t = Some (PInt (Z.of_nat (oidx t))) /\ oidx t < n.

(** ** Missing values, in the words of the specification *)

(** A dotted path that cannot be followed from a value: a key is absent, its
    value is [None], or the value reached is not a dict. *)
Inductive unreachable : list string -> pyval -> Prop :=
| unreachable_not_dict key rest v :
    (forall d, v <> PDict d) -> unreachable (key :: rest) v
| unreachable_missing key rest d :
    dict_get key d = None -> unreachable (key :: rest) (PDict d)
| unreachable_none key rest d :
    dict_get key d = Some PNone -> unreachable (key :: rest) (PDict d)
| unreachable_below key rest d v :
    dict_get key d = Some v -> unreachable rest v ->
    unreachable (key :: rest) (PDict d).

(** A dotted path that leads from a value to a value: every key on the way
    is there with a value that is not [None], in a dict. *)
Inductive reaches : list string -> pyval -> pyval -> Prop :=
| reaches_here v : reaches [] v v
| reaches_below key rest d v w :
    dict_get key d = Some v -> v <> PNone -> reaches rest v w ->
    reaches (key :: rest) (PDict d) w.

(** The level names with a derivation of their own. *)
Definition composite_key (key_path : string) : bool :=
  (key_path =? "sibling_text") || (key_path =? "parent_classes")
  || (key_path =? "parent_description") || (key_path =? "href").

(** A field that is not there, or holds [None]. *)
Definition absent (k : string) (d : pydict) : Prop :=
  dict_get k d = None \/ dict_get k d = Some PNone.

(** ** Sample records *)

Definition para_intro : pydict :=
  [("text_snippet", PStr "Learn More"); ("id", PStr "intro")].
Definition para_plain : pydict :=
  [("text_snippet", PStr "Learn More")].

Definition link_about : pydict :=
  [("text", PStr "Home"); ("id", PStr "nav-home");
   ("href", PStr "https://example.com/about")].
Definition link_contact : pydict :=
  [("text", PStr "Home"); ("id", PStr "footer-home");
   ("href", PStr "https://example.com/contact/")].
Definition link_root : pydict :=
  [("text", PStr "Home"); ("id", PStr "logo");
   ("href", PStr "https://example.com/")].
Definition link_crumb : pydict :=
  [("text", PStr "Home"); ("id", PStr "crumb"); ("href", PStr "/")].

Definition button_left : pydict :=
  [("text", PStr "Submit"); ("name", PStr "go");
   ("parent", PDict [("tag", PStr "div"); ("id", PStr "left")])].
Definition button_right : pydict :=
  [("text", PStr "Submit"); ("name", PStr "go");
   ("parent", PDict [("tag", PStr "div"); ("id", PStr "right")])].

Definition icon_search : pydict :=
  [("aria_label", PNone); ("title", PStr "Search")].
Definition icon_close : pydict :=
  [("aria_label", PNone); ("title", PStr "Close")].


(** A record whose next-sibling text is there and empty. *)
Definition record_between : pydict :=
  [("text", PStr "Go"); ("prev_sibling_text", PStr "Back");
   ("next_sibling_text", PStr "")].



(** * The Element Extractor *)

(** ** The parsed document

    A document tree as the parser library (BeautifulSoup) presents it: a
    [Tag] has a name, attributes and contents; a [NavigableString] is a piece
    of text, [shown] when [get_text] counts it (plain text and CDATA, not
    comments or declarations).  A multi-valued attribute such as [class] is a
    [PList] of strings, any other attribute a [PStr]. *)
Inductive node : Type :=
| NavigableString (shown : bool) (s : string)
| Tag (name : string) (attrs : pydict) (contents : list node).

(** An element with what navigation reaches from it: its ancestors (the
    parent first, the document last) and its previous and next siblings (the
    nearest first). *)
Record located := {
  here : node;
  parents : list node;
  before : list node;
  after : list node
}.

(** [tag.name]; a string has none. *)
Definition tag_name (n : node) : string :=
  match n with
  | Tag name _ _ => name
  | NavigableString _ _ => ""
  end.

Definition tag_attrs (n : node) : pydict :=
  match n with
  | Tag _ attrs _ => attrs
  | NavigableString _ _ => []
  end.

Definition tag_contents (n : node) : list node :=
  match n with
  | Tag _ _ contents => contents
  | NavigableString _ _ => []
  end.

Definition is_tag (n : node) : bool :=
  match n with
  | Tag _ _ _ => true
  | NavigableString _ _ => false
  end.

(** [tag.get(k)] and [tag.get('class', [])]. *)
Definition attr (n : node) (k : string) : pyval :=
  dict_get_default k (tag_attrs n) PNone.

Definition classes_of (n : node) : pyval :=
  dict_get_default "class" (tag_attrs n) (PList []).

(** [s in l] for a list of strings. *)
Definition str_in (s : string) (l : list string) : bool :=
  existsb (String.eqb s) l.

Definition py_in_strs (v : pyval) (l : list string) : bool :=
  match v with
  | PStr s => str_in s l
  | _ => false
  end.

(** [str.strip()]: the characters for which [isspace] holds. *)
Definition is_space (a : ascii) : bool :=
  let n := nat_of_ascii a in
  ((9 <=? n)%nat && (n <=? 13)%nat) || ((28 <=? n)%nat && (n <=? 32)%nat)
  || (n =? 133)%nat || (n =? 160)%nat.

Fixpoint lstrip (s : string) : string :=
  match s with
  | EmptyString => EmptyString
  | String a s' => if is_space a then lstrip s' else s
  end.

Fixpoint rstrip (s : string) : string :=
  match s with
  | EmptyString => EmptyString
  | String a s' =>
      match rstrip s' with
      | EmptyString => if is_space a then EmptyString else String a EmptyString
      | r => String a r
      end
  end.

Definition py_strip (s : string) : string := rstrip (lstrip s).

(** The shown strings below a node, in document order. *)
Fixpoint strings_of (n : node) : list string :=
  match n with
  | NavigableString shown s => if shown then [s] else []
  | Tag _ _ contents => flat_map strings_of contents
  end.

(** [tag.get_text(strip=True)]: the stripped strings that are not empty,
    joined. *)
Definition get_text_strip (n : node) : string :=
  String.concat ""
    (filter (fun s => negb (s =? "")) (map py_strip (strings_of n))).

(** The elements below a node in document order, the node first. *)
Fixpoint locate (ps bs : list node) (n : node) (as_ : list node) : list located :=
  match n with
  | NavigableString _ _ => []
  | Tag _ _ contents =>
      {| here := n; parents := ps; before := bs; after := as_ |}
        :: (fix children (bs' cs : list node) : list located :=
              match cs with
              | [] => []
              | c :: rest => locate (n :: ps) bs' c rest ++ children (c :: bs') rest
              end) [] contents
  end.

(** The elements of the document, in document order. *)
Definition descendants (soup : node) : list located :=
  tl (locate [] [] soup []).

(** [soup.find_all(names)] *)
Definition find_all (names : list string) (soup : node) : list located :=
  filter (fun l => str_in (tag_name (here l)) names) (descendants soup).

(** [for t in soup(names): t.decompose()] *)
Fixpoint decompose_all (names : list string) (n : node) : node :=
  match n with
  | NavigableString _ _ => n
  | Tag name attrs contents =>
      Tag name attrs
        ((fix keep (cs : list node) : list node :=
            match cs with
            | [] => []
            | c :: rest =>
                if is_tag c && str_in (tag_name c) names then keep rest
                else decompose_all names c :: keep rest
            end) contents)
  end.

(** ** Heading and link records (utils.py, lines 110-211 and 305-409) *)

(** [parent_info] of lines 140-150. *)
Definition parent_info (current : node) : pyval :=
  PDict [("tag", PStr (tag_name current));
         ("attributes", PDict (tag_attrs current));
         ("classes", classes_of current);
         ("id", attr current "id");
         ("aria_label", attr current "aria-label");
         ("role", attr current "role");
         ("aria_expanded", attr current "aria-expanded");
         ("aria_controls", attr current "aria-controls");
         ("aria_labelledby", attr current "aria-labelledby")].

(** [sibling_info] and [child_info] of lines 167-174 and 194-201. *)
Definition sibling_info (sibling : node) : pyval :=
  PDict [("tag", PStr (tag_name sibling));
         ("attributes", PDict (tag_attrs sibling));
         ("classes", classes_of sibling);
         ("id", attr sibling "id");
         ("text", PStr (get_text_strip sibling));
         ("role", attr sibling "role")].

Definition is_interactive (current : node) : bool :=
  str_in (tag_name current) ["button"; "a"]
  || py_in_strs (attr current "role") ["button"; "tab"; "menuitem"].

Record ancestry := {
  ctx_parent : pyval;
  ctx_ancestors : list pyval;
  ctx_interactive : list pyval
}.

(** [while current and current.name] (lines 138-161) along the chain of
    parents.  [current == heading.parent] holds at the first turn only: an
    ancestor properly contains the parent, so the structural equality of the
    library cannot hold for it. *)
Fixpoint ancestors_loop (first : bool) (chain : list node) (ctx : ancestry)
  : ancestry :=
  match chain with
  | [] => ctx
  | current :: rest =>
      if tag_name current =? "" then ctx
      else
        let info := parent_info current in
        let ctx1 :=
          if first
          then {| ctx_parent := info;
                  ctx_ancestors := ctx_ancestors ctx;
                  ctx_interactive := ctx_interactive ctx |}
          else {| ctx_parent := ctx_parent ctx;
                  ctx_ancestors := ctx_ancestors ctx ++ [info];
                  ctx_interactive := ctx_interactive ctx |} in
        let ctx2 :=
          if is_interactive current
          then {| ctx_parent := ctx_parent ctx1;
                  ctx_ancestors := ctx_ancestors ctx1;
                  ctx_interactive := ctx_interactive ctx1 ++ [info] |}
          else ctx1 in
        ancestors_loop false rest ctx2
  end.

(** [while sibling and len(...) < 3] (lines 164-190): [find_previous_sibling]
    and [find_next_sibling] pass over strings. *)
Fixpoint siblings_loop (siblings : list node) (acc : list pyval) : list pyval :=
  match siblings with
  | [] => acc
  | NavigableString _ _ :: rest => siblings_loop rest acc
  | (Tag _ _ _ as sibling) :: rest =>
      if (length acc <? 3)%nat then
        siblings_loop rest
          (if negb (tag_name sibling =? "") then acc ++ [sibling_info sibling]
           else acc)
      else acc
  end.

(** [tag.find_all(recursive=False)]: the child elements. *)
Definition child_tags (n : node) : list node := filter is_tag (tag_contents n).

Definition dom_context (element : pyval) (h : located) : pyval :=
  let ctx := ancestors_loop true (parents h)
               {| ctx_parent := PNone; ctx_ancestors := []; ctx_interactive := [] |} in
  PDict [("element", element);
         ("parent", ctx_parent ctx);
         ("ancestors", PList (ctx_ancestors ctx));
         ("siblings",
          PDict [("previous", PList (siblings_loop (before h) []));
                 ("next", PList (siblings_loop (after h) []))]);
         ("children", PList (map sibling_info (child_tags (here h))));
         ("interactive_parents", PList (ctx_interactive ctx))].

(** The body of the headings loop after the budget check (lines 114-211). *)
Definition heading_body (h : located) (heading_index : nat) : option pyval :=
  let heading := here h in
  let text := get_text_strip heading in
  if negb (text =? "") then
    Some (PDict
            [("dom_context",
              dom_context
                (PDict [("tag", PStr (tag_name heading));
                        ("attributes", PDict (tag_attrs heading));
                        ("classes", classes_of heading);
                        ("id", attr heading "id");
                        ("aria_label", attr heading "aria-label");
                        ("text", PStr text);
                        ("role", attr heading "role")]) h);
             ("sequential_index", PInt (Z.of_nat heading_index))])
  else None.

Definition has_attr (n : node) (k : string) : bool :=
  match dict_get k (tag_attrs n) with Some _ => true | None => false end.

(** The body of the links loop (lines 309-409); every link is appended. *)
Definition link_body (h : located) (link_index : nat) : option pyval :=
  let a := here h in
  Some (PDict
          [("dom_context",
            dom_context
              (PDict [("tag", PStr (tag_name a));
                      ("attributes", PDict (tag_attrs a));
                      ("classes", classes_of a);
                      ("id", attr a "id");
                      ("aria_label", attr a "aria-label");
                      ("text", PStr (get_text_strip a));
                      ("href", attr a "href")]) h);
           ("is_external_link", PBool (has_attr a "data-external-link-popup"));
           ("external_link_popup",
            PBool (has_attr a "data-external-link-popup"
                   && negb (has_attr a "data-external-skipped-whitelisted")))]).

(** ** The loops and the element budget *)

(** A category loop: [for c in candidates: if element_count >= max_elements:
    break; ...]; the body either appends one record and increments the
    category index and [element_count], or goes on without appending. *)
Fixpoint category_loop (body : located -> nat -> option pyval) (max_elements : Z)
    (candidates : list located) (index : nat) (acc : list pyval)
    (element_count : Z) : list pyval * nat * Z :=
  match candidates with
  | [] => (acc, index, element_count)
  | c :: rest =>
      if (element_count >=? max_elements)%Z then (acc, index, element_count)
      else
        match body c index with
        | Some record =>
            category_loop body max_elements rest (S index) (acc ++ [record])
              (element_count + 1)
        | None => category_loop body max_elements rest index acc element_count
        end
  end.

(** The two icon loops check the budget after the increment as well
    (lines 575 and 615). *)
Fixpoint icon_loop (body : located -> nat -> option pyval) (max_elements : Z)
    (candidates : list located) (index : nat) (acc : list pyval)
    (element_count : Z) : list pyval * nat * Z :=
  match candidates with
  | [] => (acc, index, element_count)
  | c :: rest =>
      if (element_count >=? max_elements)%Z then (acc, index, element_count)
      else
        match body c index with
        | Some record =>
            if (element_count + 1 >=? max_elements)%Z
            then (acc ++ [record], S index, (element_count + 1)%Z)
            else icon_loop body max_elements rest (S index) (acc ++ [record])
                   (element_count + 1)
        | None => icon_loop body max_elements rest index acc element_count
        end
  end.

(** [for tag_name in semantic_tags] (lines 803-808). *)
Fixpoint semantic_loop (soup : node) (max_elements : Z) (tags : list string)
    (acc : list pyval) (element_count : Z) : list pyval * Z :=
  match tags with
  | [] => (acc, element_count)
  | tag :: rest =>
      if (element_count >=? max_elements)%Z then (acc, element_count)
      else
        match find_all [tag] soup with
        | [] => semantic_loop soup max_elements rest acc element_count
        | found =>
            semantic_loop soup max_elements rest
              (acc ++ [PDict [("tag", PStr tag);
                              ("count", PInt (Z.of_nat (length found)))]])
              (element_count + 1)
        end
  end.

(** What the model takes from outside: the HTML parser of the library, and
    the bodies of the loops on paragraphs (lines 217-285), buttons (419-469),
    images (477-531), icons (540-576 and 581-615) and forms (622-798).  A
    body tells whether the candidate is emitted and builds its record;
    [None] stands for an iteration that appends nothing.  In the source
    every append is followed by the increment of the category index and of
    [element_count]. *)
Record extraction_rules := {
  html_parser : string -> list node;
  paragraph_body : located -> nat -> option pyval;
  button_body : located -> nat -> option pyval;
  image_body : string -> located -> nat -> option pyval;
  icon_body : located -> nat -> option pyval;
  svg_body : located -> nat -> option pyval;
  form_body : located -> nat -> option pyval
}.

(** The [elements] dict: category name -> records, in the order of the
    source. *)
Abbreviation elements := (list (string * list pyval)).

Definition initial_elements : elements :=
  [("headings", []); ("paragraphs", []); ("links", []); ("buttons", []);
   ("inputs", []); ("images_and_logos", []); ("icons", []); ("forms", []);
   ("semantic_elements", [])].

Fixpoint category_list (key : string) (e : elements) : list pyval :=
  match e with
  | [] => []
  | (k, l) :: e' => if k =? key then l else category_list key e'
  end.

Fixpoint set_category (key : string) (l : list pyval) (e : elements) : elements :=
  match e with
  | [] => []
  | (k, l') :: e' =>
      if k =? key then (k, l) :: e' else (k, l') :: set_category key l e'
  end.

(** [{k: v for k, v in elements.items() if v}] *)
Fixpoint cleanup (e : elements) : pydict :=
  match e with
  | [] => []
  | (k, []) :: e' => cleanup e'
  | (k, l) :: e' => (k, PList l) :: cleanup e'
  end.

(** The loop on one category, run on the dict and the counter. *)
Definition run_category (key : string)
    (loop : list pyval -> Z -> list pyval * Z) (st : elements * Z) : elements * Z :=
  let '(acc, element_count) := loop (category_list key (fst st)) (snd st) in
  (set_category key acc (fst st), element_count).

Definition drop_index (r : list pyval * nat * Z) : list pyval * Z :=
  (fst (fst r), snd r).

Definition heading_names : list string :=
  ["h1"; "h2"; "h3"; "h4"; "h5"; "h6"; "h7"].

Definition semantic_tags : list string :=
  ["header"; "footer"; "nav"; "main"; "section"; "article"; "aside"].

(** [find_all("a", href=True)] *)
Definition links_of (soup : node) : list located :=
  filter (fun l => negb (is_none (attr (here l) "href"))) (find_all ["a"] soup).

(** [find_all(["button", <input of type button, submit or reset>,
    <role == "button">])] *)
Definition buttons_of (soup : node) : list located :=
  filter (fun l =>
            (tag_name (here l) =? "button")
            || ((tag_name (here l) =? "input")
                && py_in_strs (attr (here l) "type") ["button"; "submit"; "reset"])
            || py_in_strs (attr (here l) "role") ["button"])
         (descendants soup).

Definition fetch_error_prefix : string := "Error fetching URL".

Definition make_soup (rules : extraction_rules) (html_content : string) : node :=
  decompose_all ["script"; "style"]
    (Tag "[document]" [] (html_parser rules html_content)).

(** [parse_html_for_elements] (utils.py, lines 75-816).  The menu icon and
    menu button lookups of lines 289-303 do not reach the result. *)
Definition parse_html_for_elements (rules : extraction_rules)
    (html_content base_url : string) (max_elements : Z) : pyval :=
  if prefix fetch_error_prefix html_content then
    PDict [("error", PStr html_content)]
  else
    let soup := make_soup rules html_content in
    let st := (initial_elements, 0%Z) in
    let st := run_category "headings"
                (fun acc n => drop_index
                   (category_loop heading_body max_elements
                      (find_all heading_names soup) 0 acc n)) st in
    let st := run_category "paragraphs"
                (fun acc n => drop_index
                   (category_loop (paragraph_body rules) max_elements
                      (find_all ["p"] soup) 0 acc n)) st in
    if (snd st >=? max_elements)%Z then PDict (cleanup (fst st)) else
    let st := run_category "links"
                (fun acc n => drop_index
                   (category_loop link_body max_elements
                      (links_of soup) 0 acc n)) st in
    if (snd st >=? max_elements)%Z then PDict (cleanup (fst st)) else
    let st := run_category "buttons"
                (fun acc n => drop_index
                   (category_loop (button_body rules) max_elements
                      (buttons_of soup) 0 acc n)) st in
    if (snd st >=? max_elements)%Z then PDict (cleanup (fst st)) else
    let st := run_category "images_and_logos"
                (fun acc n => drop_index
                   (category_loop (image_body rules base_url) max_elements
                      (find_all ["img"] soup) 0 acc n)) st in
    if (snd st >=? max_elements)%Z then PDict (cleanup (fst st)) else
    let st := run_category "icons"
                (fun acc n => drop_index
                   (let '(acc1, icon_index, n1) :=
                      icon_loop (icon_body rules) max_elements
                        (find_all ["i"; "span"] soup) 0 acc n in
                    icon_loop (svg_body rules) max_elements
                      (find_all ["svg"] soup) icon_index acc1 n1)) st in
    if (snd st >=? max_elements)%Z then PDict (cleanup (fst st)) else
    let st := run_category "forms"
                (fun acc n => drop_index
                   (category_loop (form_body rules) max_elements
                      (find_all ["form"] soup) 0 acc n)) st in
    if (snd st >=? max_elements)%Z then PDict (cleanup (fst st)) else
    let st := run_category "semantic_elements"
                (fun acc n => semantic_loop soup max_elements semantic_tags acc n) st in
    if (snd st >=? max_elements)%Z then PDict (cleanup (fst st)) else
    PDict (cleanup (fst st)).

(** The records of a category of the result (none when the key is absent),
    and the number of records of the result. *)
Definition category (key : string) (out : pyval) : list pyval :=
  match out with
  | PDict d => match dict_get key d with Some (PList l) => l | _ => [] end
  | _ => []
  end.

Definition record_count (out : pyval) : Z :=
  match out with
  | PDict d =>
      fold_right (fun kv n => match snd kv with
                              | PList l => (Z.of_nat (length l) + n)%Z
                              | _ => n
                              end) 0%Z d
  | _ => 0%Z
  end.

(** The loops of [parse_html_for_elements] in their order, each with the
    category it fills, and their run without the early returns. *)
Definition stage := Z -> list pyval -> Z -> list pyval * Z.

Definition stages_of (rules : extraction_rules) (soup : node) (base_url : string)
  : list (string * stage) :=
  [("headings",
    fun max acc n => drop_index
      (category_loop heading_body max (find_all heading_names soup) 0 acc n));
   ("paragraphs",
    fun max acc n => drop_index
      (category_loop (paragraph_body rules) max (find_all ["p"] soup) 0 acc n));
   ("links",
    fun max acc n => drop_index
      (category_loop link_body max (links_of soup) 0 acc n));
   ("buttons",
    fun max acc n => drop_index
      (category_loop (button_body rules) max (buttons_of soup) 0 acc n));
   ("images_and_logos",
    fun max acc n => drop_index
      (category_loop (image_body rules base_url) max (find_all ["img"] soup) 0 acc n));
   ("icons",
    fun max acc n => drop_index
      (let '(acc1, icon_index, n1) :=
         icon_loop (icon_body rules) max (find_all ["i"; "span"] soup) 0 acc n in
       icon_loop (svg_body rules) max (find_all ["svg"] soup) icon_index acc1 n1));
   ("forms",
    fun max acc n => drop_index
      (category_loop (form_body rules) max (find_all ["form"] soup) 0 acc n));
   ("semantic_elements",
    fun max acc n => semantic_loop soup max semantic_tags acc n)].

Fixpoint run_stages (max : Z) (stages : list (string * stage)) (st : elements * Z)
  : elements * Z :=
  match stages with
  | [] => st
  | (key, f) :: rest => run_stages max rest (run_category key (f max) st)
  end.

(** The same run with a return after each loop that reached the budget. *)
Fixpoint run_with_returns (max : Z) (stages : list (string * stage))
    (st : elements * Z) : elements :=
  match stages with
  | [] => fst st
  | (key, f) :: rest =>
      let st' := run_category key (f max) st in
      if (snd st' >=? max)%Z then fst st' else run_with_returns max rest st'
  end.

(** The number of records in the [elements] dict. *)
Fixpoint total_records (e : elements) : Z :=
  match e with
  | [] => 0%Z
  | (_, l) :: e' => (Z.of_nat (length l) + total_records e')%Z
  end.

(** ** Headings, in the words of the specification *)

Fixpoint mapi_from {A B} (f : A -> nat -> B) (i : nat) (l : list A) : list B :=
  match l with
  | [] => []
  | x :: l' => f x i :: mapi_from f (S i) l'
  end.

(** An element has a name (the parser gives one to every element). *)
Definition named (n : node) : bool :=
  negb (is_tag n) || negb (tag_name n =? "").

(** The ancestors of an element have names, and so have its sibling
    elements. *)
Definition context_named (h : located) : bool :=
  forallb (fun n => negb (tag_name n =? "")) (parents h)
  && forallb named (before h ++ after h).

Definition well_named (soup : node) : bool :=
  forallb context_named (descendants soup).

(** No element of the document is named [h7]. *)
Definition without_h7 (soup : node) : bool :=
  forallb (fun h => negb (tag_name (here h) =? "h7")) (descendants soup).

(** What a loop appends when the budget does not stop it. *)
Fixpoint emit_all (body : located -> nat -> option pyval)
    (candidates : list located) (index : nat) : list pyval :=
  match candidates with
  | [] => []
  | c :: rest =>
      match body c index with
      | Some record => record :: emit_all body rest (S index)
      | None => emit_all body rest index
      end
  end.

(** The record of a heading: its own description, its parent, the rest of
    its ancestor chain, its 3 nearest element siblings on each side, its
    child elements and its interactive ancestors. *)
Definition heading_record (h : located) (i : nat) : pyval :=
  PDict
    [("dom_context",
      PDict [("element",
              PDict [("tag", PStr (tag_name (here h)));
                     ("attributes", PDict (tag_attrs (here h)));
                     ("classes", classes_of (here h));
                     ("id", attr (here h) "id");
                     ("aria_label", attr (here h) "aria-label");
                     ("text", PStr (get_text_strip (here h)));
                     ("role", attr (here h) "role")]);
             ("parent",
              match parents h with
              | p :: _ => parent_info p
              | [] => PNone
              end);
             ("ancestors", PList (map parent_info (tl (parents h))));
             ("siblings",
              PDict [("previous",
                      PList (map sibling_info (firstn 3 (filter is_tag (before h)))));
                     ("next",
                      PList (map sibling_info (firstn 3 (filter is_tag (after h)))))]);
             ("children", PList (map sibling_info (child_tags (here h))));
             ("interactive_parents",
              PList (map parent_info (filter is_interactive (parents h))))]);
     ("sequential_index", PInt (Z.of_nat i))].

Definition is_heading (h : located) : bool :=
  str_in (tag_name (here h)) ["h1"; "h2"; "h3"; "h4"; "h5"; "h6"]
  && negb (get_text_strip (here h) =? "").

(** ** Sample documents *)

Definition no_body (h : located) (i : nat) : option pyval := None.

Definition rules_for (document : list node) : extraction_rules :=
  {| html_parser := fun _ => document;
     paragraph_body := no_body;
     button_body := no_body;
     image_body := fun _ => no_body;
     icon_body := no_body;
     svg_body := no_body;
     form_body := no_body |}.

Definition two_headings : list node :=
  [Tag "h1" [] [NavigableString true "First"];
   Tag "h2" [("id", PStr "second")] [NavigableString true "Second"]].

Definition seventh_level : list node :=
  [Tag "h7" [] [NavigableString true "Deep"]].

(** * Definitions for the proofs *)

(** ** Grouping by a derived value *)

Definition elems (g : groups) : list pydict := concat (map snd g).

Fixpoint keys_distinct (g : groups) : Prop :=
  match g with
  | [] => True
  | (k, _) :: g' =>
      (forall k' xs, In (k', xs) g' -> key_eqb k k' = false) /\ keys_distinct g'
  end.

(** [g] is the grouping of [l] by the derived value at [key]: every group is
    the sublist of [l] with the group's key, in the order of [l], and its
    key is the derived value of its first record. *)
Record grouped (key : string) (l : list pydict) (g : groups) : Prop := {
  grouped_members : forall k xs, In (k, xs) g ->
    xs = filter (fun u => key_eqb k (get_nested_value u key)) l;
  grouped_head : forall k xs, In (k, xs) g ->
    exists x rest, xs = x :: rest /\ k = get_nested_value x key;
  grouped_distinct : keys_distinct g;
  grouped_cover : forall u, In u l ->
    exists k xs, In (k, xs) g /\ key_eqb k (get_nested_value u key) = true;
  grouped_perm : Permutation (elems g) l
}.

Arguments grouped_members {key l g}.
Arguments grouped_head {key l g}.
Arguments grouped_distinct {key l g}.
Arguments grouped_cover {key l g}.
Arguments grouped_perm {key l g}.

(** ** The state of the level loop *)

Definition in_resolved (r : resolved_map) (i : nat) : bool :=
  existsb (fun p => key_eqb (fst p) (PInt (Z.of_nat i))) r.

Definition nonsingle (p : pyval * list pydict) : bool :=
  match snd p with
  | [_] => false
  | _ => true
  end.

(** ** Hashable derived values *)

Definition values_hashable (hier : list string) (pool : list pydict) : Prop :=
  forall t lvl, In t pool -> In lvl hier -> hashable (get_nested_value t lvl) = true.

(** Every derived value that the level loop computes is hashable. *)
Definition reached_hashable (hier : list string) (pool : list pydict) : Prop :=
  forall k level t, nth_error hier k = Some level -> In t (pool_at hier k pool) ->
    hashable (get_nested_value t level) = true.

Definition inputs_hashable (els : list pydict) (pk : string) (hier : list string)
  : Prop :=
  forall t key, In t (enumerate_from 0 els) -> In key (pk :: hier) ->
    hashable (get_nested_value t key) = true.

(** The output record of a record of the group [G]. *)
Definition group_result (pk : string) (hier : list string) (G : list pydict)
    (t : pydict) : pydict :=
  if (length G =? 1)%nat then stored t else outcome pk hier G t.

(** ** Loops under the budget *)

(** What every loop of the extractor does with the budget: at or past the
    budget it does nothing; otherwise it appends records, counts each of
    them, and stops at the budget; a smaller budget gives the same result or
    a result that has reached it and is a prefix. *)
Definition indexed_loop := Z -> nat -> list pyval -> Z -> list pyval * nat * Z.

Record budgeted3 (F : indexed_loop) : Prop := {
  frozen3 : forall max i acc n, (n >= max)%Z -> F max i acc n = (acc, i, n);
  extends3 : forall max i acc n,
    exists ext,
      fst (fst (F max i acc n)) = acc ++ ext
      /\ snd (F max i acc n) = (n + Z.of_nat (length ext))%Z
      /\ (ext = [] \/ (snd (F max i acc n) <= max)%Z);
  mono3 : forall N M i acc n, (N <= M)%Z ->
    F N i acc n = F M i acc n
    \/ ((snd (F N i acc n) >= N)%Z
        /\ exists ext, fst (fst (F M i acc n)) = fst (fst (F N i acc n)) ++ ext)
}.

Record budgeted (f : stage) : Prop := {
  frozen : forall max acc n, (n >= max)%Z -> f max acc n = (acc, n);
  extends : forall max acc n,
    exists ext,
      fst (f max acc n) = acc ++ ext
      /\ snd (f max acc n) = (n + Z.of_nat (length ext))%Z
      /\ (ext = [] \/ (snd (f max acc n) <= max)%Z);
  mono : forall N M acc n, (N <= M)%Z ->
    f N acc n = f M acc n
    \/ ((snd (f N acc n) >= N)%Z
        /\ exists ext, fst (f M acc n) = fst (f N acc n) ++ ext)
}.

Arguments frozen {f}.
Arguments extends {f}.
Arguments mono {f}.

Definition all_budgeted (stages : list (string * stage)) : Prop :=
  Forall (fun p => budgeted (snd p)) stages.

(** A smaller budget gives the same run, or a run that reached its budget
    and whose lists are prefixes. *)
Definition cut_short (N : Z) (sN sM : elements * Z) : Prop :=
  sN = sM
  \/ ((snd sN >= N)%Z
      /\ forall k, exists ext,
           category_list k (fst sM) = category_list k (fst sN) ++ ext).

(** ** Sample pages *)

Definition sample_page : string := "<h1>First</h1><h2 id=second>Second</h2>".
Definition sample_base : string := "https://example.com".

(** * More of the program *)

(** ** Substrings, lower case, iteration and membership *)

(** [sep in s] for strings. *)
Fixpoint occurs (sep s : string) : bool :=
  prefix sep s
  || match s with
     | EmptyString => false
     | String _ s' => occurs sep s'
     end.

(** [str.lower()], one [ascii] per character. *)
Definition lower_ascii (a : ascii) : ascii :=
  let n := nat_of_ascii a in
  if ((65 <=? n)%nat && (n <=? 90)%nat)
     || ((192 <=? n)%nat && (n <=? 222)%nat && negb (n =? 215)%nat)
  then ascii_of_nat (n + 32) else a.

Fixpoint py_lower (s : string) : string :=
  match s with
  | EmptyString => EmptyString
  | String a s' => String (lower_ascii a) (py_lower s')
  end.

(** [v.lower()]; only a string has [lower]. *)
Definition lower_of (v : pyval) : res string :=
  match v with
  | PStr s => Ok (py_lower s)
  | _ => Raise AttributeError
  end.

(** [for x in v]: the items of a list, the keys of a dict, the characters of
    a string. *)
Definition py_iter (v : pyval) : res (list pyval) :=
  match v with
  | PList l => Ok l
  | PDict d => Ok (map (fun kv => PStr (fst kv)) d)
  | PStr s => Ok (map PStr (chars s))
  | _ => Raise TypeError
  end.

(** [any(f(x) for x in l)]: the items are tried in order up to the first
    true one. *)
Fixpoint py_any {A} (f : A -> res bool) (l : list A) : res bool :=
  match l with
  | [] => Ok false
  | x :: rest => b <- f x ;; if b then Ok true else py_any f rest
  end.

(** [v == s] for a string [s]. *)
Definition py_eq_str (v : pyval) (s : string) : bool :=
  match v with
  | PStr x => x =? s
  | _ => false
  end.

(** [s in v] for a string [s]: an item of a list, a substring of a string, a
    key of a dict. *)
Definition py_contains (s : string) (v : pyval) : res bool :=
  match v with
  | PList l => Ok (existsb (fun x => py_eq_str x s) l)
  | PStr x => Ok (occurs s x)
  | PDict d => Ok (existsb (fun kv => fst kv =? s) d)
  | _ => Raise TypeError
  end.

(** ** [determine_link_type] (utils.py, lines 981-1046)

    No code of the repository calls the function. *)

(** [v.name]: no value of the universe has this attribute. *)
Definition name_of (v : pyval) : res pyval := Raise AttributeError.

(** [any(test(parent) for parent in dom_context[key])] *)
Definition any_parent (dom_context : pydict) (key : string)
    (test : pyval -> res bool) : res bool :=
  v <- dict_getitem dom_context key ;;
  parents <- py_iter v ;;
  py_any test parents.

(** The tests of the generator expressions, on one item. *)
Definition role_is (role : string) (parent : pyval) : res bool :=
  r <- py_get parent "role" PNone ;; Ok (py_eq_str r role).

Definition has_value (key : string) (parent : pyval) : res bool :=
  v <- py_get parent key PNone ;; Ok (negb (is_none v)).

Definition class_has (word : string) (parent : pyval) : res bool :=
  c <- py_get parent "class" (PList []) ;; py_contains word c.

Definition navigation_labelled (word : string) (parent : pyval) : res bool :=
  nav <- role_is "navigation" parent ;;
  if nav then
    label <- py_get parent "aria-label" (PStr "") ;;
    l <- lower_of label ;;
    Ok (occurs word l)
  else Ok false.

Definition name_is (name : string) (parent : pyval) : res bool :=
  n <- name_of parent ;; Ok (py_eq_str n name).

Definition action_texts : list string :=
  ["read more"; "learn more"; "view"; "see"; "click here"; "get started"].

(** [text.lower() in dom_context['element'].get('text', '').lower()] *)
Definition text_has (dom_context : pydict) (text : string) : res bool :=
  element <- dict_getitem dom_context "element" ;;
  t <- py_get element "text" (PStr "") ;;
  l <- lower_of t ;;
  Ok (occurs (py_lower text) l).

Definition determine_link_type (dom_context : pydict) : res string :=
  b <- any_parent dom_context "interactive_parents" (role_is "menuitem") ;;
  if b then
    b <- any_parent dom_context "interactive_parents" (has_value "aria-expanded") ;;
    if b then Ok "submenu_item" else Ok "menu_item"
  else
  b <- any_parent dom_context "interactive_parents" (has_value "aria-controls") ;;
  if b then
    b <- any_parent dom_context "interactive_parents" (has_value "aria-expanded") ;;
    if b then Ok "dropdown_trigger" else Ok "dropdown_item"
  else
  b <- any_parent dom_context "interactive_parents" (has_value "aria-expanded") ;;
  if b then Ok "accordion_item" else
  b <- any_parent dom_context "interactive_parents" (role_is "tab") ;;
  if b then Ok "tab_item" else
  b <- any_parent dom_context "ancestors" (role_is "navigation") ;;
  if b then
    b <- any_parent dom_context "ancestors" (class_has "header") ;;
    if b then Ok "header_nav_item" else
    b <- any_parent dom_context "ancestors" (class_has "footer") ;;
    if b then Ok "footer_nav_item" else
    b <- any_parent dom_context "ancestors" (class_has "sidebar") ;;
    if b then Ok "sidebar_nav_item" else Ok "nav_item"
  else
  b <- any_parent dom_context "ancestors" (navigation_labelled "breadcrumb") ;;
  if b then Ok "breadcrumb_item" else
  b <- any_parent dom_context "ancestors" (navigation_labelled "pagination") ;;
  if b then Ok "pagination_item" else
  b <- any_parent dom_context "ancestors" (name_is "footer") ;;
  if b then Ok "footer_link" else
  b <- any_parent dom_context "ancestors" (name_is "header") ;;
  if b then Ok "header_link" else
  b <- any_parent dom_context "ancestors" (class_has "sidebar") ;;
  if b then Ok "sidebar_link" else
  b <- any_parent dom_context "ancestors" (class_has "social") ;;
  if b then Ok "social_link" else
  b <- py_any (text_has dom_context) action_texts ;;
  if b then Ok "action_link" else Ok "regular_link".

(** ** The records of paragraphs, buttons, images and icons
    (utils.py, lines 217-285, 416-469, 477-531, 540-576 and 581-615) *)

(** [parent_info] of lines 242-248: tag, classes and id of the parent. *)
Definition short_parent_info (h : located) : pyval :=
  match parents h with
  | parent :: _ =>
      PDict [("tag", PStr (tag_name parent));
             ("classes", classes_of parent);
             ("id", attr parent "id")]
  | [] => PNone
  end.

(** [tag.find_previous_sibling()] and [tag.find_next_sibling()]: the nearest
    sibling element. *)
Fixpoint nearest_element (siblings : list node) : option node :=
  match siblings with
  | [] => None
  | (Tag _ _ _ as sibling) :: _ => Some sibling
  | NavigableString _ _ :: rest => nearest_element rest
  end.

(** The sibling text of lines 251-271: the text of the adjacent string when
    it is not blank, else the text of the nearest sibling element. *)
Definition element_sibling_text (siblings : list node) : pyval :=
  match nearest_element siblings with
  | Some sibling => PStr (get_text_strip sibling)
  | None => PNone
  end.

Definition nearest_text (siblings : list node) : pyval :=
  match siblings with
  | NavigableString _ s :: _ =>
      if negb (py_strip s =? "") then PStr (py_strip s)
      else element_sibling_text siblings
  | _ => element_sibling_text siblings
  end.

(** The sibling text of lines 555-558: the adjacent string only. *)
Definition adjacent_text (siblings : list node) : pyval :=
  match siblings with
  | NavigableString _ s :: _ =>
      if negb (py_strip s =? "") then PStr (py_strip s) else PNone
  | _ => PNone
  end.

(** [isinstance(child, str) and child.strip() == ""] *)
Definition blank_string (child : node) : bool :=
  match child with
  | NavigableString _ s => py_strip s =? ""
  | Tag _ _ _ => false
  end.

(** [text[:100] + ("..." if len(text) > 100 else "")] *)
Definition snippet (text : string) : string :=
  (substring 0 100 text ++ (if (100 <? String.length text)%nat then "..." else ""))%string.

(** [[f'h{i}' for i in range(1, 7)]] *)
Definition lower_heading_names : list string := ["h1"; "h2"; "h3"; "h4"; "h5"; "h6"].

(** The body of the paragraphs loop (lines 217-285). *)
Definition paragraph_record (h : located) (paragraph_index : nat)
  : res (option pyval) :=
  let p := here h in
  let text := get_text_strip p in
  is_part_of_interactive <-
    match parents h with
    | parent :: _ =>
        let parent_tag :=
          if negb (tag_name parent =? "") then py_lower (tag_name parent) else "" in
        parent_role <- lower_of (dict_get_default "role" (tag_attrs parent) (PStr "")) ;;
        Ok (str_in parent_tag ["a"; "button"] || (parent_role =? "button"))
    | [] => Ok false
    end ;;
  if is_part_of_interactive then Ok None
  else
    let significant_children :=
      filter (fun child => negb (blank_string child)) (tag_contents p) in
    let holds_a_heading :=
      match significant_children with
      | [child] =>
          negb (tag_name child =? "")
          && str_in (py_lower (tag_name child)) lower_heading_names
      | _ => false
      end in
    if holds_a_heading then Ok None
    else if negb (text =? "") && (10 <? String.length text)%nat then
      Ok (Some (PDict
                  [("tag", PStr (tag_name p));
                   ("text_snippet", PStr (snippet text));
                   ("id", attr p "id");
                   ("classes", classes_of p);
                   ("parent", short_parent_info h);
                   ("prev_sibling_text", nearest_text (before h));
                   ("next_sibling_text", nearest_text (after h));
                   ("sequential_index", PInt (Z.of_nat paragraph_index))]))
    else Ok None.

(** [tag.find(name)]: the first element below the tag with this name. *)
Definition find_first (names : list string) (n : node) : option node :=
  match find_all names n with
  | found :: _ => Some (here found)
  | [] => None
  end.

(** The body of the buttons loop (lines 419-469).  [btn.form] is
    [btn.find("form")]: the first [form] element below the button. *)
Definition button_record (h : located) (button_index : nat) : option pyval :=
  let btn := here h in
  match find_first ["form"] btn with
  | Some _ => None
  | None =>
      let text :=
        py_or (py_or (PStr (get_text_strip btn))
                     (dict_get_default "value" (tag_attrs btn) (PStr "")))
              (dict_get_default "aria-label" (tag_attrs btn) (PStr "")) in
      let contains_icon :=
        existsb (fun child => str_in (tag_name child) ["i"; "span"; "svg"])
                (tag_contents btn) in
      if truthy text || contains_icon then
        Some (PDict
                [("tag", PStr (tag_name btn));
                 ("type", dict_get_default "type" (tag_attrs btn) (PStr "button"));
                 ("text", text);
                 ("id", attr btn "id");
                 ("name", attr btn "name");
                 ("classes", classes_of btn);
                 ("contains_icon", PBool contains_icon);
                 ("parent", short_parent_info h);
                 ("prev_sibling_text", nearest_text (before h));
                 ("next_sibling_text", nearest_text (after h));
                 ("sequential_index", PInt (Z.of_nat button_index))])
      else None
  end.

(** [urljoin(base_url, v)] for a truthy attribute value: an empty base gives
    the value back, a value that is not a string cannot be joined.  The
    library function on two strings is a parameter: it returns the joined
    URL, or raises (urllib raises [ValueError] on a URL such as ["//[x"]). *)
Definition join_url (urljoin : string -> string -> res string) (base_url : string)
    (v : pyval) : res pyval :=
  if base_url =? "" then Ok v
  else
    match v with
    | PStr s => joined <- urljoin base_url s ;; Ok (PStr joined)
    | _ => Raise TypeError
    end.

(** The body of the images loop (lines 477-531). *)
Definition image_record (urljoin : string -> string -> res string) (base_url : string)
    (h : located) (image_index : nat) : res (option pyval) :=
  let img := here h in
  let alt_text := dict_get_default "alt" (tag_attrs img) (PStr "") in
  let src := dict_get_default "src" (tag_attrs img) (PStr "") in
  if truthy src then
    let is_clickable :=
      match parents h with
      | parent :: _ => tag_name parent =? "a"
      | [] => false
      end in
    parent_href <-
      match parents h with
      | parent :: _ =>
          if tag_name parent =? "a" then
            if truthy (attr parent "href")
            then join_url urljoin base_url (attr parent "href")
            else Ok (attr parent "href")
          else Ok PNone
      | [] => Ok PNone
      end ;;
    alt_lower <- lower_of alt_text ;;
    let is_logo :=
      occurs "logo" alt_lower
      || existsb (fun parent => tag_name parent =? "header") (parents h) in
    absolute_src <- join_url urljoin base_url src ;;
    Ok (Some (PDict
                [("tag", PStr (tag_name img));
                 ("alt", alt_text);
                 ("src", absolute_src);
                 ("id", attr img "id");
                 ("classes", classes_of img);
                 ("is_likely_logo", PBool is_logo);
                 ("parent", short_parent_info h);
                 ("prev_sibling_text", nearest_text (before h));
                 ("next_sibling_text", nearest_text (after h));
                 ("sequential_index", PInt (Z.of_nat image_index));
                 ("is_clickable", PBool is_clickable);
                 ("parent_href", parent_href)]))
  else Ok None.

(** The body of the first icons loop (lines 540-576). *)
Definition icon_record (h : located) (icon_index : nat) : res (option pyval) :=
  let tag := here h in
  let tag_classes := classes_of tag in
  let aria_label := attr tag "aria-label" in
  let icon_text := get_text_strip tag in
  let role := attr tag "role" in
  classes <- py_iter tag_classes ;;
  has_icon_or_logo_in_class <-
    py_any (fun cls =>
              icon <- py_contains "icon" cls ;;
              if icon then Ok true else py_contains "logo" cls) classes ;;
  let is_empty_or_nested_only :=
    (icon_text =? "")
    && forallb (fun child => is_tag child || blank_string child) (tag_contents tag) in
  if truthy aria_label || py_eq_str role "img" || has_icon_or_logo_in_class
     || (is_empty_or_nested_only && truthy tag_classes)
  then
    Ok (Some (PDict
                [("tag", PStr (tag_name tag));
                 ("classes", tag_classes);
                 ("aria_label", aria_label);
                 ("text", PStr icon_text);
                 ("role", role);
                 ("parent", short_parent_info h);
                 ("prev_sibling_text", adjacent_text (before h));
                 ("next_sibling_text", adjacent_text (after h));
                 ("sequential_index", PInt (Z.of_nat icon_index))]))
  else Ok None.

(** The body of the [svg] loop (lines 581-615). *)
Definition svg_record (h : located) (icon_index : nat) : option pyval :=
  let svg := here h in
  let aria_label := attr svg "aria-label" in
  let role := attr svg "role" in
  let title_text :=
    match find_first ["title"] svg with
    | Some title_tag => PStr (get_text_strip title_tag)
    | None => PNone
    end in
  let identifier := py_or aria_label title_text in
  if py_eq_str role "img" || truthy identifier then
    if negb (existsb (fun p => str_in (tag_name p) ["a"; "button"]) (parents h))
    then
      Some (PDict
              [("tag", PStr (tag_name svg));
               ("role", role);
               ("aria_label", aria_label);
               ("title", title_text);
               ("identifier_used", identifier);
               ("parent", short_parent_info h);
               ("prev_sibling_text", adjacent_text (before h));
               ("next_sibling_text", adjacent_text (after h));
               ("sequential_index", PInt (Z.of_nat icon_index))])
    else None
  else None.

(** A body that raises stops the whole extraction; the loops of the model
    have no exception, and take such a candidate for one that appends
    nothing.  A body raises only for an attribute value that is not what the
    parser builds (a list for [role], [alt], [src] or [href], a number in
    [class]), or, for an image, when [urljoin] raises; what is proved on the
    rules of the source is about the result of an extraction in which no body
    raises. *)
Definition settle (body : located -> nat -> res (option pyval))
    (h : located) (index : nat) : option pyval :=
  match body h index with
  | Ok record => record
  | Raise _ => None
  end.

(** The rules of the source; the parser, [urljoin] and the body of the forms
    loop stay parameters. *)
Definition source_rules (parser : string -> list node)
    (urljoin : string -> string -> res string)
    (form_record : located -> nat -> option pyval) : extraction_rules :=
  {| html_parser := parser;
     paragraph_body := settle paragraph_record;
     button_body := button_record;
     image_body := fun base_url => settle (image_record urljoin base_url);
     icon_body := settle icon_record;
     svg_body := svg_record;
     form_body := form_record |}.

(** ** The resolver calls of the application (app.py, lines 509-625) *)

(** [element['_original_index'] = i] needs a dict. *)
Fixpoint as_records (items : list pyval) : res (list pydict) :=
  match items with
  | [] => Ok []
  | PDict d :: rest => ds <- as_records rest ;; Ok (d :: ds)
  | _ :: _ => Raise TypeError
  end.

(** [add_uniqueness_context] applied to a Python value: the value is
    enumerated, and every item is given the tracker. *)
Definition add_uniqueness_context_to (elements_data : pyval) (primary_key : string)
    (context_hierarchy : list string) : res pyval :=
  items <- py_iter elements_data ;;
  records <- as_records items ;;
  out <- add_uniqueness_context records primary_key context_hierarchy ;;
  Ok (PList (map PDict out)).

(** The hierarchies of lines 511-518, 528-546, 555-562, 571-580, 590-601
    and 610-620. *)
Definition paragraph_context_hierarchy : list string :=
  ["id"; "parent.id"; "parent_classes"; "sibling_text"; "parent_description";
   "classes"].

Definition link_context_hierarchy : list string :=
  ["id"; "aria_label"; "text"; "href"; "parent.id"; "parent_classes";
   "sibling_text"; "classes"].

Definition heading_context_hierarchy : list string :=
  ["id"; "parent.id"; "sibling_text"; "parent_classes"; "parent_description";
   "classes"].

Definition image_context_hierarchy : list string :=
  ["alt"; "id"; "src"; "parent.id"; "sibling_text"; "parent_classes";
   "parent_description"; "classes"].

Definition icon_context_hierarchy : list string :=
  ["aria_label"; "title"; "text"; "parent.id"; "sibling_text";
   "parent_description"; "classes"].

Definition button_context_hierarchy : list string :=
  ["id"; "text"; "name"; "type"; "parent.id"; "sibling_text"; "parent_classes";
   "parent_description"; "classes"].

(** [if key in parsed_elements: parsed_elements[key] =
    add_uniqueness_context(parsed_elements[key], ...)] *)
Definition resolve_category (key primary_key : string)
    (context_hierarchy : list string) (parsed_elements : pydict) : res pydict :=
  match dict_get key parsed_elements with
  | None => Ok parsed_elements
  | Some elements_data =>
      out <- add_uniqueness_context_to elements_data primary_key context_hierarchy ;;
      Ok (dict_set key out parsed_elements)
  end.

(** The six calls in their order (lines 510-625). *)
Definition add_contexts (parsed_elements : pydict) : res pydict :=
  p <- resolve_category "paragraphs" "text_snippet" paragraph_context_hierarchy
         parsed_elements ;;
  p <- resolve_category "links" "text" link_context_hierarchy p ;;
  p <- resolve_category "headings" "text" heading_context_hierarchy p ;;
  p <- resolve_category "images_and_logos" "alt" image_context_hierarchy p ;;
  p <- resolve_category "icons" "aria_label" icon_context_hierarchy p ;;
  resolve_category "buttons" "text" button_context_hierarchy p.

(** The six calls of the application: category, primary key, hierarchy. *)
Definition resolver_calls : list (string * (string * list string)) :=
  [("paragraphs", ("text_snippet", paragraph_context_hierarchy));
   ("links", ("text", link_context_hierarchy));
   ("headings", ("text", heading_context_hierarchy));
   ("images_and_logos", ("alt", image_context_hierarchy));
   ("icons", ("aria_label", icon_context_hierarchy));
   ("buttons", ("text", button_context_hierarchy))].

(** * More definitions for the proofs *)

(** ** Derived values *)

(** The keys of a record that the derivation of [key_path] reads. *)
Definition reads (k key_path : string) : bool :=
  if key_path =? "sibling_text"
  then (k =? "next_sibling_text") || (k =? "prev_sibling_text")
  else if (key_path =? "parent_classes") || (key_path =? "parent_description")
  then k =? "parent"
  else if key_path =? "href" then k =? "href"
  else k =? hd "" (py_split "." key_path).

(** Every derived value that a call computes is hashable: the primary values,
    and in a group of several records the values at the levels reached. *)
Definition computed_hashable (els : list pydict) (pk : string) (hier : list string)
  : Prop :=
  (forall t, In t (tracked els) -> hashable (get_nested_value t pk) = true)
  /\ (forall t, In t (tracked els) ->
        (length (subgroup pk (tracked els) t) =? 1)%nat = false ->
        reached_hashable hier (subgroup pk (tracked els) t)).


(** ** Link types *)

(** The items of [dom_context[key]]. *)
Definition items_of (dom_context : pydict) (key : string) : res (list pyval) :=
  v <- dict_getitem dom_context key ;; py_iter v.

(** One of the elements carries the role. *)
Definition role_among (role : string) (l : list node) : bool :=
  existsb (fun n => py_eq_str (attr n "role") role) l.

(** ** What the loops emit *)

(** What the landmark loop appends for one tag (lines 803-808). *)
Definition semantic_record (soup : node) (tag : string) : list pyval :=
  match find_all [tag] soup with
  | [] => []
  | found => [PDict [("tag", PStr tag); ("count", PInt (Z.of_nat (length found)))]]
  end.

(** What the landmark loop appends when the budget does not stop it. *)
Definition semantic_summary (soup : node) : list pyval :=
  flat_map (semantic_record soup) semantic_tags.

(** What the two icon loops emit: the second goes on with the index of the
    first. *)
Definition icons_emitted (rules : extraction_rules) (soup : node) : list pyval :=
  let first := emit_all (icon_body rules) (find_all ["i"; "span"] soup) 0 in
  first ++ emit_all (svg_body rules) (find_all ["svg"] soup) (length first).

(** What every loop emits when the budget does not stop it, by category. *)
Definition emitted (rules : extraction_rules) (soup : node) (base_url : string)
  : list (string * list pyval) :=
  [("headings", emit_all heading_body (find_all heading_names soup) 0);
   ("paragraphs", emit_all (paragraph_body rules) (find_all ["p"] soup) 0);
   ("links", emit_all link_body (links_of soup) 0);
   ("buttons", emit_all (button_body rules) (buttons_of soup) 0);
   ("images_and_logos",
    emit_all (image_body rules base_url) (find_all ["img"] soup) 0);
   ("icons", icons_emitted rules soup);
   ("forms", emit_all (form_body rules) (find_all ["form"] soup) 0);
   ("semantic_elements", semantic_summary soup)].

(** A loop that appends the records of [U] until the budget stops it. *)
Definition cuts (f : stage) (U : list pyval) : Prop :=
  forall max acc n,
    f max acc n
    = (acc ++ firstn (Z.to_nat (max - n)) U,
       (n + Z.of_nat (length (firstn (Z.to_nat (max - n)) U)))%Z).

(** Every record that a body builds carries the index it was given. *)
Definition indexed (body : located -> nat -> option pyval) : Prop :=
  forall c i r, body c i = Some r ->
    exists d, r = PDict d
      /\ dict_get "sequential_index" d = Some (PInt (Z.of_nat i)).

(** A record with the three keys of a link record, or the two of a heading
    record. *)
Definition shaped (keys : list string) (r : pyval) : Prop :=
  exists d, r = PDict d /\ map fst d = keys.

(** The items of a list value. *)
Definition items_of_value (v : pyval) : list pyval :=
  match v with
  | PList l => l
  | _ => []
  end.

(** ** Removed elements *)

(** An element that [decompose_all] removes. *)
Definition removed (names : list string) (n : node) : bool :=
  is_tag n && str_in (tag_name n) names.

(** No element below the node is one of them. *)
Fixpoint clean (names : list string) (n : node) : bool :=
  match n with
  | NavigableString _ _ => true
  | Tag _ _ contents =>
      forallb (fun c => negb (removed names c) && clean names c) contents
  end.

(** Nothing that navigation reaches from the element is one of them. *)
Definition context_clean (names : list string) (h : located) : bool :=
  negb (removed names (here h)) && clean names (here h)
  && forallb (fun n => negb (removed names n)) (parents h ++ before h ++ after h).

(** ** Attribute values as the parser builds them *)

(** The attributes that the parser splits into a list of words, for some or
    for all elements. *)
Definition multi_valued : list string :=
  ["class"; "accesskey"; "dropzone"; "rel"; "rev"; "headers"; "accept-charset";
   "archive"; "sizes"; "sandbox"; "for"].

Definition is_str (v : pyval) : bool :=
  match v with PStr _ => true | _ => false end.

(** An attribute value is a string, or a list of strings for a multi-valued
    attribute. *)
Definition parsed_value (kv : string * pyval) : bool :=
  match snd kv with
  | PStr _ => true
  | PList l => str_in (fst kv) multi_valued && forallb is_str l
  | _ => false
  end.

(** The attribute values of an element are such values. *)
Definition parsed_attributes (n : node) : bool :=
  forallb parsed_value (tag_attrs n).

(** The attributes of an element and of its ancestors are such values. *)
Definition parsed_context (h : located) : bool :=
  parsed_attributes (here h) && forallb parsed_attributes (parents h).

(** So are those of every element of the document. *)
Definition parsed_document (soup : node) : bool :=
  forallb parsed_context (descendants soup).

(** A field of a record from which the hierarchies of the application
    derive hashable values only. *)
Definition flat_entry (kv : string * pyval) : bool :=
  if fst kv =? "classes" then is_list (snd kv) || hashable (snd kv)
  else if fst kv =? "parent" then
    match snd kv with
    | PDict p => forallb (fun f => (fst f =? "classes") || hashable (snd f)) p
    | _ => true
    end
  else hashable (snd kv).

(** Every field of the record is such a field. *)
Definition flat_record (d : pydict) : bool := forallb flat_entry d.

(** The keys that the calls of the application use. *)
Definition application_keys : list string :=
  ["text_snippet"; "alt"; "aria_label"; "text"; "id"; "name"; "type"; "src";
   "title"; "parent.id"; "parent_classes"; "sibling_text"; "parent_description";
   "classes"].

(** ** More samples *)

Definition sample_document : list node :=
  [Tag "script" [] [NavigableString true "var x;"];
   Tag "h1" [] [NavigableString true "Welcome"];
   Tag "p" [("class", PList [PStr "lead"])]
     [NavigableString true "A paragraph of the page that is long enough."];
   Tag "form" []
     [Tag "button" [("type", PStr "submit")] [NavigableString true "Send"]];
   Tag "div" [("role", PStr "button")]
     [Tag "form" [] []; NavigableString true "Open"];
   Tag "a" [("href", PStr "/about")] [NavigableString true "About"];
   Tag "img" [("src", PStr "/logo.png"); ("alt", PStr "Logo")] [];
   Tag "nav" [] []].

(** The text that stands for the sample document. *)
Definition sample_html : string := "<h1>Welcome</h1>".

(** A stand-in for [urljoin] that returns on every URL, and one that raises
    on a URL whose host opens a bracket, as urllib does. *)
Definition sample_urljoin (base url : string) : res string := Ok (base ++ url)%string.

Definition strict_urljoin (base url : string) : res string :=
  if prefix "//[" url then Raise ValueError else Ok (base ++ url)%string.

(** The rules of the source on a document that is given parsed. *)
Definition source_rules_for (document : list node) : extraction_rules :=
  source_rules (fun _ => document) sample_urljoin no_body.

(** The sample document as the extractor sees it, and some of its elements. *)
Definition sample_soup : node := make_soup (source_rules_for sample_document) sample_html.

Definition no_element : located :=
  {| here := NavigableString true ""; parents := []; before := []; after := [] |}.

Definition sample_paragraph : located := hd no_element (find_all ["p"] sample_soup).

Definition sample_link : located := hd no_element (links_of sample_soup).

Definition sample_image : located := hd no_element (find_all ["img"] sample_soup).

(** An image whose [src] urllib rejects. *)
Definition bracket_image : located :=
  {| here := Tag "img" [("src", PStr "//[x")] [];
     parents := []; before := []; after := [] |}.

Definition sample_button : located := nth 0 (buttons_of sample_soup) no_element.

Definition sample_wrapper : located := nth 1 (buttons_of sample_soup) no_element.

(** The record of the paragraph of the sample document. *)
Definition sample_paragraph_record : pyval :=
  match paragraph_record sample_paragraph 0 with
  | Ok (Some r) => r
  | _ => PNone
  end.

(** The result of the extraction on the sample document, and what the
    resolver calls make of it. *)
Definition sample_result : pydict :=
  match parse_html_for_elements (source_rules_for sample_document) sample_html
          sample_base 5000 with
  | PDict d => d
  | _ => []
  end.

Definition sample_resolved : pydict :=
  match add_contexts sample_result with
  | Ok d => d
  | Raise _ => []
  end.

(** The DOM context of the link of the sample document, and a context
    without ancestors. *)
Definition sample_link_context : pydict :=
  match dom_context (PDict [("text", PStr "About")]) sample_link with
  | PDict d => d
  | _ => []
  end.

Definition read_more_context : pydict :=
  [("element", PDict [("text", PStr "Read more")]);
   ("ancestors", PList []);
   ("interactive_parents", PList [])].

(** The two sample buttons as the resolver returns them. *)
Definition resolved_buttons : list pydict :=
  [with_context (make_context "parent.id" (PStr "left")) button_left;
   with_context (make_context "parent.id" (PStr "right")) button_right].

(** ** [add_uniqueness_context] on a list of dict objects

    The list that the caller passes holds dict objects, and one object may be
    listed twice.  The resolver writes the tracker into the objects of the
    caller (line 896), works on [copy.deepcopy(group)] for a group of several
    records (line 917), which keeps an object that is listed twice one
    object, and pops the tracker from every object that it stores (lines 912,
    961 and 973).  Here the objects live in a heap, a list holds addresses,
    and every write goes to the heap. *)
Module Objects.

Definition heap := list pydict.

Definition deref (h : heap) (a : nat) : pydict :=
  match nth_error h a with
  | Some d => d
  | None => []
  end.

Definition assign (h : heap) (a : nat) (d : pydict) : heap := list_update a d h.

(** [for i, element in enumerate(elements_data): element['_original_index'] = i] *)
Fixpoint enumerate_from (i : nat) (elements_data : list nat) (h : heap) : heap :=
  match elements_data with
  | [] => h
  | element :: rest =>
      enumerate_from (S i) rest
        (assign h element
           (dict_set original_index_key (PInt (Z.of_nat i)) (deref h element)))
  end.

(** A [defaultdict(list)] keyed by derived values, in insertion order. *)
Definition groups := list (pyval * list nat).

Fixpoint group_append (k : pyval) (x : nat) (g : groups) : groups :=
  match g with
  | [] => [(k, [x])]
  | (k', xs) :: g' =>
      if key_eqb k' k then (k', xs ++ [x]) :: g'
      else (k', xs) :: group_append k x g'
  end.

Definition defaultdict_append (g : groups) (k : pyval) (x : nat) : res groups :=
  if hashable k then Ok (group_append k x g) else Raise TypeError.

(** [for element in l: g[get_nested_value(element, key)].append(element)] *)
Fixpoint group_by_key (key : string) (h : heap) (l : list nat) (g : groups)
  : res groups :=
  match l with
  | [] => Ok g
  | element :: rest =>
      g' <- defaultdict_append g (get_nested_value (deref h element) key) element ;;
      group_by_key key h rest g'
  end.

(** [copy.deepcopy(group)]: every dict of the list is copied once, to a new
    address; the memo of [deepcopy] gives a dict that is listed twice one
    copy, which is listed twice. *)
Fixpoint deepcopy (group : list nat) (memo : list (nat * nat)) (h : heap)
  : list nat * heap :=
  match group with
  | [] => ([], h)
  | element :: rest =>
      match find (fun p => Nat.eqb (fst p) element) memo with
      | Some p =>
          let '(copies, h') := deepcopy rest memo h in
          (snd p :: copies, h')
      | None =>
          let copy := length h in
          let '(copies, h') :=
            deepcopy rest ((element, copy) :: memo) (h ++ [deref h element]) in
          (copy :: copies, h')
      end
  end.

Record level_state := {
  elements_still_ambiguous_next : list nat;
  resolved_in_this_group : resolved_map;
  processed_elements_data : list (option nat);
  objects : heap
}.

(** One iteration of [for context_value, subgroup in
    subgroups_at_this_level.items()] (lines 934-966). *)
Definition check_subgroup (primary_key context_level_key : string)
    (context_value : pyval) (subgroup : list nat) (st : level_state)
  : res level_state :=
  match subgroup with
  | [resolved_element] =>
      let h := objects st in
      original_idx <- dict_getitem (deref h resolved_element) original_index_key ;;
      seen <- resolved_contains (resolved_in_this_group st) original_idx ;;
      if negb seen then
        let h :=
          assign h resolved_element
            (annotate primary_key context_level_key context_value
               (deref h resolved_element)) in
        let resolved' := (original_idx, context_level_key) :: resolved_in_this_group st in
        '(_, stored) <- dict_pop (deref h resolved_element) original_index_key ;;
        let h := assign h resolved_element stored in
        processed' <-
          list_setitem (processed_elements_data st) original_idx
            (Some resolved_element) ;;
        Ok {| elements_still_ambiguous_next := elements_still_ambiguous_next st;
              resolved_in_this_group := resolved';
              processed_elements_data := processed';
              objects := h |}
      else Ok st
  | _ =>
      Ok {| elements_still_ambiguous_next := elements_still_ambiguous_next st ++ subgroup;
            resolved_in_this_group := resolved_in_this_group st;
            processed_elements_data := processed_elements_data st;
            objects := objects st |}
  end.

Fixpoint check_subgroups (primary_key context_level_key : string)
    (subgroups_at_this_level : groups) (st : level_state) : res level_state :=
  match subgroups_at_this_level with
  | [] => Ok st
  | (context_value, subgroup) :: rest =>
      st' <- check_subgroup primary_key context_level_key context_value subgroup st ;;
      check_subgroups primary_key context_level_key rest st'
  end.

(** [for context_level_key in context_hierarchy] (lines 920-969). *)
Fixpoint resolve_levels (primary_key : string) (context_hierarchy : list string)
    (ambiguous_subgroup : list nat) (resolved : resolved_map)
    (processed : list (option nat)) (h : heap)
  : res (list nat * list (option nat) * heap) :=
  match context_hierarchy with
  | [] => Ok (ambiguous_subgroup, processed, h)
  | context_level_key :: rest =>
      match ambiguous_subgroup with
      | [] => Ok (ambiguous_subgroup, processed, h)
      | _ =>
          subgroups_at_this_level <-
            group_by_key context_level_key h ambiguous_subgroup [] ;;
          st <- check_subgroups primary_key context_level_key subgroups_at_this_level
                  {| elements_still_ambiguous_next := [];
                     resolved_in_this_group := resolved;
                     processed_elements_data := processed;
                     objects := h |} ;;
          resolve_levels primary_key rest (elements_still_ambiguous_next st)
            (resolved_in_this_group st) (processed_elements_data st) (objects st)
      end
  end.

(** [for ambiguous_element in ambiguous_subgroup] (lines 972-975). *)
Fixpoint store_ambiguous (ambiguous_subgroup : list nat)
    (processed : list (option nat)) (h : heap)
  : res (list (option nat) * heap) :=
  match ambiguous_subgroup with
  | [] => Ok (processed, h)
  | ambiguous_element :: rest =>
      '(original_idx, stored) <-
        dict_pop (deref h ambiguous_element) original_index_key ;;
      let h := assign h ambiguous_element stored in
      processed' <- list_setitem processed original_idx (Some ambiguous_element) ;;
      store_ambiguous rest processed' h
  end.

(** The body of [for primary_value, group in initial_groups.items()]. *)
Definition process_group (primary_key : string) (context_hierarchy : list string)
    (group : list nat) (processed : list (option nat)) (h : heap)
  : res (list (option nat) * heap) :=
  match group with
  | [element] =>
      '(original_idx, stored) <- dict_pop (deref h element) original_index_key ;;
      let h := assign h element stored in
      processed' <- list_setitem processed original_idx (Some element) ;;
      Ok (processed', h)
  | _ =>
      let '(ambiguous_subgroup, h) := deepcopy group [] h in
      '(ambiguous_subgroup, processed', h) <-
        resolve_levels primary_key context_hierarchy ambiguous_subgroup []
          processed h ;;
      store_ambiguous ambiguous_subgroup processed' h
  end.

Fixpoint process_groups (primary_key : string) (context_hierarchy : list string)
    (initial_groups : groups) (processed : list (option nat)) (h : heap)
  : res (list (option nat) * heap) :=
  match initial_groups with
  | [] => Ok (processed, h)
  | (_, group) :: rest =>
      '(processed', h) <-
        process_group primary_key context_hierarchy group processed h ;;
      process_groups primary_key context_hierarchy rest processed' h
  end.

(** The call on the list [elements_data] of objects of [h]: the list that is
    returned, and the objects as the call leaves them. *)
Definition run (h : heap) (elements_data : list nat)
    (primary_key : string) (context_hierarchy : list string)
  : res (list nat * heap) :=
  let h := enumerate_from 0 elements_data h in
  initial_groups <- group_by_key primary_key h elements_data [] ;;
  '(processed, h) <-
    process_groups primary_key context_hierarchy initial_groups
      (repeat None (length elements_data)) h ;;
  Ok (drop_none processed, h).

(** What the caller receives: the records of the list that is returned. *)
Definition add_uniqueness_context (h : heap) (elements_data : list nat)
    (primary_key : string) (context_hierarchy : list string) : res (list pydict) :=
  '(final_data, h) <- run h elements_data primary_key context_hierarchy ;;
  Ok (map (deref h) final_data).

End Objects.

(** ** Objects and values *)







(** The objects that are still to be stored are distinct objects of the
    heap, and none of them is stored yet. *)
Definition separate (live : list nat) (processed : list (option nat))
    (h : Objects.heap) : Prop :=
  NoDup live
  /\ forall b, In b live -> b < length h /\ ~ In (Some b) processed.




(** The dicts of a heap are dicts: no key is there twice. *)
Definition dicts (h : Objects.heap) : Prop :=
  Forall (fun d : pydict => NoDup (map fst d)) h.


(** A sample of one dict object that is listed twice. *)
Definition one_record : pydict := [("text", PStr "Home")].


Definition icons_heap : Objects.heap := [icon_search; icon_close].

(** No key is in the list twice. *)
Fixpoint distinct_keys (keys : list string) : bool :=
  match keys with
  | [] => true
  | k :: rest => negb (existsb (String.eqb k) rest) && distinct_keys rest
  end.

(** * Proofs *)

(** ** Keys *)

Lemma key_eqb_refl a : hashable a = true -> key_eqb a a = true.
Proof.
  destruct a; cbv [key_eqb py_index hashable]; intros H; try discriminate; auto.
  - apply Z.eqb_refl.
  - apply Z.eqb_refl.
  - apply String.eqb_refl.
Qed.

Lemma key_eqb_sym a b : key_eqb a b = key_eqb b a.
Proof.
  destruct a, b; cbv [key_eqb py_index]; auto;
    try apply Z.eqb_sym; apply String.eqb_sym.
Qed.

Lemma key_eqb_hashable_l a b : key_eqb a b = true -> hashable a = true.
Proof. destruct a, b; cbv [key_eqb py_index hashable]; auto; discriminate. Qed.

Lemma key_eqb_hashable_r a b : key_eqb a b = true -> hashable b = true.
Proof. rewrite key_eqb_sym. apply key_eqb_hashable_l. Qed.

Lemma key_eqb_trans a b c :
  key_eqb a b = true -> key_eqb b c = true -> key_eqb a c = true.
Proof.
  destruct a, b, c; cbv [key_eqb py_index]; auto; try discriminate;
    rewrite ?Z.eqb_eq, ?String.eqb_eq; intros; subst; auto; congruence.
Qed.

Lemma key_eqb_cong a b c : key_eqb a b = true -> key_eqb a c = key_eqb b c.
Proof.
  intros H. destruct (key_eqb b c) eqn:E.
  - eapply key_eqb_trans; eauto.
  - destruct (key_eqb a c) eqn:E'; auto.
    rewrite key_eqb_sym in H. rewrite (key_eqb_trans _ _ _ H E') in E. discriminate.
Qed.

(** The no-value marker is not the empty string, also as a key. *)
Lemma none_is_not_empty_string :
  PNone <> PStr "" /\ key_eqb PNone (PStr "") = false /\ key_eqb (PStr "") PNone = false.
Proof. repeat split; discriminate. Qed.


(** ** Dictionaries *)

Lemma dict_get_set_same k v d : dict_get k (dict_set k v d) = Some v.
Proof.
  induction d as [| [k' v'] d IH]; simpl.
  - now rewrite String.eqb_refl.
  - destruct (k' =? k) eqn:E; simpl; rewrite E; auto.
Qed.

Lemma dict_get_set_other k k' v d :
  k <> k' -> dict_get k' (dict_set k v d) = dict_get k' d.
Proof.
  intros Hne. induction d as [| [k0 v0] d IH]; simpl.
  - destruct (k =? k') eqn:E; auto. apply String.eqb_eq in E. contradiction.
  - destruct (k0 =? k) eqn:E; simpl.
    + apply String.eqb_eq in E. subst k0.
      destruct (k =? k') eqn:E'; auto. apply String.eqb_eq in E'. contradiction.
    + now rewrite IH.
Qed.

Lemma dict_get_remove_other k k' d :
  k <> k' -> dict_get k' (dict_remove k d) = dict_get k' d.
Proof.
  intros Hne. induction d as [| [k0 v0] d IH]; simpl; auto.
  destruct (k0 =? k) eqn:E; simpl.
  - apply String.eqb_eq in E. subst k0.
    destruct (k =? k') eqn:E'; auto. apply String.eqb_eq in E'. contradiction.
  - now rewrite IH.
Qed.

Lemma dict_remove_absent k d : dict_get k d = None -> dict_remove k d = d.
Proof.
  induction d as [| [k0 v0] d IH]; simpl; auto.
  destruct (k0 =? k); [discriminate |]. intros H. now rewrite IH.
Qed.

Lemma dict_remove_set_absent k v d :
  dict_get k d = None -> dict_remove k (dict_set k v d) = d.
Proof.
  induction d as [| [k0 v0] d IH]; simpl.
  - now rewrite String.eqb_refl.
  - destruct (k0 =? k) eqn:E; [discriminate |]. intros H. simpl. rewrite E.
    now rewrite IH.
Qed.

Lemma dict_remove_set_comm k k' v d :
  k <> k' -> dict_remove k (dict_set k' v d) = dict_set k' v (dict_remove k d).
Proof.
  intros Hne. induction d as [| [k0 v0] d IH]; simpl.
  - destruct (k' =? k) eqn:E; auto. apply String.eqb_eq in E. congruence.
  - destruct (k0 =? k) eqn:E, (k0 =? k') eqn:E'; simpl; rewrite ?E, ?E'; auto.
    + apply String.eqb_eq in E, E'. congruence.
    + now rewrite IH.
Qed.

Lemma dict_remove_set_same k v d :
  dict_remove k (dict_set k v d) = dict_remove k d.
Proof.
  induction d as [| [k0 v0] d IH]; simpl.
  - now rewrite String.eqb_refl.
  - destruct (k0 =? k) eqn:E; simpl; rewrite E; auto. now rewrite IH.
Qed.

(** ** List update *)

Lemma list_update_length {A} i (x : A) l : length (list_update i x l) = length l.
Proof.
  revert i. induction l as [| a l IH]; intros [| i]; simpl; auto.
Qed.

Lemma nth_error_list_update_same {A} i (x : A) l :
  i < length l -> nth_error (list_update i x l) i = Some x.
Proof.
  revert i. induction l as [| a l IH]; intros [| i]; simpl; intros H;
    try lia; auto.
  apply IH. lia.
Qed.

Lemma nth_error_list_update_other {A} i j (x : A) l :
  i <> j -> nth_error (list_update i x l) j = nth_error l j.
Proof.
  revert i j. induction l as [| a l IH]; intros [| i] [| j]; simpl; intros H;
    auto; try lia.
Qed.

Lemma list_setitem_nat {A} (l : list A) i x :
  i < length l -> list_setitem l (PInt (Z.of_nat i)) x = Ok (list_update i x l).
Proof.
  intros H. unfold list_setitem. simpl.
  replace ((0 <=? Z.of_nat i)%Z && (Z.of_nat i <? Z.of_nat (length l))%Z) with true.
  - now rewrite Nat2Z.id.
  - symmetry. apply andb_true_iff. split; [apply Z.leb_le | apply Z.ltb_lt]; lia.
Qed.

(** ** Grouping by a derived value *)

Lemma grouped_nil key : grouped key [] [].
Proof.
  constructor; simpl; try tauto; auto.
Qed.

Lemma group_append_cases ke e g k xs :
  keys_distinct g ->
  In (k, xs) (group_append ke e g) ->
  (In (k, xs) g /\ key_eqb k ke = false)
  \/ (exists xs0, In (k, xs0) g /\ key_eqb k ke = true /\ xs = xs0 ++ [e])
  \/ (k = ke /\ xs = [e] /\ forall k' xs', In (k', xs') g -> key_eqb k' ke = false).
Proof.
  induction g as [| [k0 xs0] g IH]; simpl; intros Hd Hin.
  - destruct Hin as [Hin | []]. inversion Hin; subst. right; right. tauto.
  - destruct Hd as [Hd0 Hd]. destruct (key_eqb k0 ke) eqn:E.
    + destruct Hin as [Hin | Hin].
      * inversion Hin; subst. right; left. exists xs0. auto.
      * left. split; auto.
        destruct (key_eqb k ke) eqn:E'; auto.
        rewrite key_eqb_sym in E'.
        pose proof (Hd0 _ _ Hin) as Hx.
        rewrite (key_eqb_trans _ _ _ E E') in Hx. discriminate.
    + destruct Hin as [Hin | Hin].
      * inversion Hin; subst. left; auto.
      * destruct (IH Hd Hin) as [[H1 H2] | [[xs1 [H1 [H2 H3]]] | [H1 [H2 H3]]]].
        -- left; auto.
        -- right; left. exists xs1; auto.
        -- right; right. repeat split; auto.
           intros k' xs' [Hk | Hk]; [inversion Hk; subst; auto | eauto].
Qed.

Lemma group_append_keeps ke e g k xs :
  In (k, xs) g -> exists xs', In (k, xs') (group_append ke e g).
Proof.
  induction g as [| [k0 xs0] g IH]; simpl; [tauto |].
  intros [Hin | Hin]; destruct (key_eqb k0 ke) eqn:E.
  - inversion Hin; subst. eexists; left; reflexivity.
  - inversion Hin; subst. eexists; left; reflexivity.
  - eexists; right; eauto.
  - destruct (IH Hin) as [xs' H]. eexists; right; eauto.
Qed.

Lemma group_append_covers ke e g :
  hashable ke = true ->
  exists k xs, In (k, xs) (group_append ke e g) /\ key_eqb k ke = true.
Proof.
  intros Hh. induction g as [| [k0 xs0] g IH]; simpl.
  - exists ke, [e]. split; auto. now apply key_eqb_refl.
  - destruct (key_eqb k0 ke) eqn:E.
    + exists k0, (xs0 ++ [e]). split; auto. now left.
    + destruct IH as [k [xs [H1 H2]]]. exists k, xs. split; auto. now right.
Qed.

Lemma group_append_distinct ke e g :
  keys_distinct g -> keys_distinct (group_append ke e g).
Proof.
  induction g as [| [k0 xs0] g IH]; simpl; intros Hd.
  - split; [intros ? ? [] | exact I].
  - destruct Hd as [Hd0 Hd]. destruct (key_eqb k0 ke) eqn:E; simpl.
    + split; auto.
    + split; auto. intros k' xs' Hin.
      destruct (group_append_cases _ _ _ _ _ Hd Hin)
        as [[H1 H2] | [[xs1 [H1 [H2 H3]]] | [H1 [H2 H3]]]]; eauto.
      subst. auto.
Qed.

Lemma group_append_perm ke e g :
  Permutation (elems (group_append ke e g)) (elems g ++ [e]).
Proof.
  unfold elems. induction g as [| [k0 xs0] g IH]; simpl; auto.
  destruct (key_eqb k0 ke); simpl.
  - rewrite <- !app_assoc. apply Permutation_app_head.
    apply Permutation_app_comm.
  - rewrite <- app_assoc. now apply Permutation_app_head.
Qed.

Lemma filter_none {A} (f : A -> bool) l :
  (forall x, In x l -> f x = false) -> filter f l = [].
Proof.
  induction l as [| a l IH]; simpl; auto. intros H.
  rewrite (H a) by auto. apply IH. auto.
Qed.

Lemma group_append_grouped key l g e :
  grouped key l g ->
  hashable (get_nested_value e key) = true ->
  grouped key (l ++ [e]) (group_append (get_nested_value e key) e g).
Proof.
  intros [Hm Hh Hd Hc Hp] He. constructor.
  - intros k xs Hin. rewrite filter_app. simpl.
    destruct (group_append_cases _ _ _ _ _ Hd Hin)
      as [[H1 H2] | [[xs1 [H1 [H2 H3]]] | [H1 [H2 H3]]]].
    + rewrite H2, app_nil_r. auto.
    + rewrite H2. subst xs. f_equal. auto.
    + subst k xs. rewrite (key_eqb_refl _ He).
      rewrite filter_none; auto.
      intros u Hu. destruct (Hc u Hu) as [k' [xs' [Hk1 Hk2]]].
      destruct (key_eqb (get_nested_value e key) (get_nested_value u key)) eqn:E; auto.
      rewrite key_eqb_sym in E.
      pose proof (H3 _ _ Hk1) as Hx.
      rewrite (key_eqb_trans _ _ _ Hk2 E) in Hx. discriminate.
  - intros k xs Hin.
    destruct (group_append_cases _ _ _ _ _ Hd Hin)
      as [[H1 H2] | [[xs1 [H1 [H2 H3]]] | [H1 [H2 H3]]]].
    + eauto.
    + destruct (Hh _ _ H1) as [x [rest [Hx Hk]]]. subst.
      exists x, (rest ++ [e]). auto.
    + subst. exists e, []. auto.
  - now apply group_append_distinct.
  - intros u Hu. apply in_app_or in Hu. destruct Hu as [Hu | [Hu | []]].
    + destruct (Hc u Hu) as [k [xs [H1 H2]]].
      destruct (group_append_keeps (get_nested_value e key) e _ _ _ H1) as [xs' H].
      eauto.
    + subst u. now apply group_append_covers.
  - rewrite group_append_perm. now apply Permutation_app_tail.
Qed.

Lemma group_by_key_inv key l : forall pre g g',
  grouped key pre g ->
  group_by_key key l g = Ok g' ->
  grouped key (pre ++ l) g'
  /\ Forall (fun e => hashable (get_nested_value e key) = true) l.
Proof.
  induction l as [| e l IH]; simpl; intros pre g g' Hg H.
  - inversion H; subst. rewrite app_nil_r. auto.
  - unfold defaultdict_append in H.
    destruct (hashable (get_nested_value e key)) eqn:E; simpl in H; [| discriminate].
    destruct (IH (pre ++ [e]) _ _ (group_append_grouped _ _ _ _ Hg E) H) as [H1 H2].
    rewrite <- app_assoc in H1. auto.
Qed.

Lemma group_by_key_total key l : forall g,
  Forall (fun e => hashable (get_nested_value e key) = true) l ->
  exists g', group_by_key key l g = Ok g'.
Proof.
  induction l as [| e l IH]; simpl; intros g H; eauto.
  inversion H; subst. unfold defaultdict_append. rewrite H2. simpl. auto.
Qed.

Lemma group_by_key_grouped key l g :
  group_by_key key l [] = Ok g ->
  grouped key l g /\ Forall (fun e => hashable (get_nested_value e key) = true) l.
Proof.
  intros H. exact (group_by_key_inv key l [] [] g (grouped_nil key) H).
Qed.

(** A group is the subgroup of each of its records. *)
Lemma grouped_subgroup key l g k xs t :
  grouped key l g -> In (k, xs) g -> In t xs -> xs = subgroup key l t.
Proof.
  intros Hg Hin Ht. pose proof (grouped_members Hg _ _ Hin) as Hm.
  rewrite Hm in Ht. apply filter_In in Ht. destruct Ht as [_ Ht].
  rewrite Hm. unfold subgroup. apply filter_ext. intros u.
  rewrite (key_eqb_sym (get_nested_value u key)).
  rewrite (key_eqb_sym k) in Ht. rewrite (key_eqb_cong _ _ _ Ht).
  reflexivity.
Qed.

(** ** One context level *)

Lemma tracker_is_not_context : uniqueness_context_key <> original_index_key.
Proof. discriminate. Qed.

Lemma dict_get_annotate pk lvl cv t :
  dict_get original_index_key (annotate pk lvl cv t) = dict_get original_index_key t.
Proof.
  unfold annotate.
  destruct (negb (is_none cv)); auto.
  destruct ((lvl =? "id") && (pk =? "text")); [destruct (truthy _) |];
    apply dict_get_set_other, tracker_is_not_context.
Qed.

Lemma check_subgroup_single pk lvl cv t next r A :
  well_tracked (length A) t ->
  in_resolved r (oidx t) = false ->
  check_subgroup pk lvl cv [t]
    {| elements_still_ambiguous_next := next;
       resolved_in_this_group := r;
       processed_elements_data := A |}
  = Ok {| elements_still_ambiguous_next := next;
          resolved_in_this_group := (PInt (Z.of_nat (oidx t)), lvl) :: r;
          processed_elements_data :=
            list_update (oidx t) (Some (stored (annotate pk lvl cv t))) A |}.
Proof.
  intros [Hget Hlt] Hr. unfold check_subgroup, dict_getitem. rewrite Hget.
  cbn [bind resolved_in_this_group processed_elements_data
       elements_still_ambiguous_next].
  unfold resolved_contains. cbn [hashable bind].
  fold (in_resolved r (oidx t)). rewrite Hr. cbn [negb].
  unfold dict_pop. rewrite dict_get_annotate, Hget. cbn [bind].
  rewrite list_setitem_nat by assumption. reflexivity.
Qed.

Lemma in_singleton_cons {k : pyval} {t : pydict} {k0 xs gs} :
  In (k, [t]) ((k0, xs) :: gs) ->
  (k0 = k /\ xs = [t]) \/ In (k, [t]) gs.
Proof.
  intros [H | H]; [inversion H; auto | auto].
Qed.

Lemma check_subgroups_spec pk lvl : forall gs st,
  (forall t, In t (elems gs) -> well_tracked (length (processed_elements_data st)) t) ->
  NoDup (map oidx (elems gs)) ->
  (forall t, In t (elems gs) -> in_resolved (resolved_in_this_group st) (oidx t) = false) ->
  (forall k t, In (k, [t]) gs -> k = get_nested_value t lvl) ->
  exists st',
    check_subgroups pk lvl gs st = Ok st'
    /\ elements_still_ambiguous_next st'
       = elements_still_ambiguous_next st ++ elems (filter nonsingle gs)
    /\ length (processed_elements_data st') = length (processed_elements_data st)
    /\ (forall k t, In (k, [t]) gs ->
          nth_error (processed_elements_data st') (oidx t)
          = Some (Some (stored (annotate pk lvl (get_nested_value t lvl) t))))
    /\ (forall i, (forall k t, In (k, [t]) gs -> oidx t <> i) ->
          nth_error (processed_elements_data st') i
          = nth_error (processed_elements_data st) i)
    /\ (forall i, (forall k t, In (k, [t]) gs -> oidx t <> i) ->
          in_resolved (resolved_in_this_group st') i
          = in_resolved (resolved_in_this_group st) i).
Proof.
  induction gs as [| [k xs] gs IH]; intros st Hw Hnd Hr Hk.
  - exists st. simpl. rewrite app_nil_r. repeat split; auto; intros ? ? [].
  - assert (Hsub : forall t, In t (elems gs) -> In t (elems ((k, xs) :: gs))).
    { intros t Ht. unfold elems. simpl. apply in_or_app. now right. }
    assert (Hnd' : NoDup (map oidx (elems gs))).
    { unfold elems in Hnd. simpl in Hnd. rewrite map_app in Hnd.
      now apply NoDup_app_remove_l in Hnd. }
    assert (Hk' : forall k0 t, In (k0, [t]) gs -> k0 = get_nested_value t lvl).
    { intros k0 t Hin. apply Hk. now right. }
    destruct xs as [| t [| t2 xs]].
    + (* an empty subgroup is carried over *)
      destruct (IH {| elements_still_ambiguous_next := elements_still_ambiguous_next st ++ [];
                      resolved_in_this_group := resolved_in_this_group st;
                      processed_elements_data := processed_elements_data st |})
        as [st' [H1 [H2 [H3 [H4 [H5 H6]]]]]]; auto.
      exists st'. cbn [check_subgroups check_subgroup bind]. rewrite H1.
      cbn [elements_still_ambiguous_next processed_elements_data
           resolved_in_this_group] in *.
      split; [reflexivity |]. split.
      { rewrite H2. cbn [filter nonsingle snd]. unfold elems. simpl.
        now rewrite app_nil_r. }
      split; [assumption |]. split.
      { intros k0 t0 Hin. destruct (in_singleton_cons Hin) as [[_ Hx] | Hin'];
          [discriminate | eauto]. }
      split; intros i Hi; [apply H5 | apply H6]; intros k0 t0 Hin;
        apply (Hi k0); now right.
    + (* a subgroup of size 1 is resolved *)
      assert (Ht : In t (elems ((k, [t]) :: gs))) by (unfold elems; simpl; auto).
      assert (Hfresh : forall t', In t' (elems gs) -> oidx t' <> oidx t).
      { intros t' Ht' Heq. unfold elems in Hnd. simpl in Hnd.
        inversion Hnd as [| ? ? Hnot _]; subst. apply Hnot.
        rewrite <- Heq. now apply in_map. }
      assert (Hfresh' : forall k0 t0, In (k0, [t0]) gs -> oidx t0 <> oidx t).
      { intros k0 t0 Hin. apply Hfresh. unfold elems.
        apply in_concat. exists [t0]. split; [| now left].
        change [t0] with (snd (k0, [t0])). now apply in_map. }
      destruct st as [next r A]. cbn [elements_still_ambiguous_next
        processed_elements_data resolved_in_this_group] in *.
      destruct (IH {| elements_still_ambiguous_next := next;
                      resolved_in_this_group := (PInt (Z.of_nat (oidx t)), lvl) :: r;
                      processed_elements_data :=
                        list_update (oidx t)
                          (Some (stored (annotate pk lvl k t))) A |})
        as [st' [H1 [H2 [H3 [H4 [H5 H6]]]]]]; auto.
      { cbn [processed_elements_data]. rewrite list_update_length. auto. }
      { cbn [resolved_in_this_group]. intros t' Ht'. unfold in_resolved.
        cbn [existsb fst]. fold (in_resolved r (oidx t')).
        rewrite (Hr t') by auto. rewrite orb_false_r.
        cbv [key_eqb py_index]. apply Z.eqb_neq.
        specialize (Hfresh t' Ht'). lia. }
      exists st'. cbn [check_subgroups].
      rewrite check_subgroup_single by auto. cbn [bind]. rewrite H1.
      cbn [elements_still_ambiguous_next processed_elements_data
           resolved_in_this_group] in *.
      rewrite list_update_length in H3.
      split; [reflexivity |]. split; [exact H2 |]. split; [exact H3 |]. split.
      { intros k0 t0 Hin. destruct (in_singleton_cons Hin) as [[Hx Hy] | Hin'].
        - inversion Hy; subst t0 k0. rewrite H5 by auto.
          rewrite (Hk k t) by now left.
          apply nth_error_list_update_same. apply Hw. auto.
        - eauto. }
      split.
      { intros i Hi. rewrite H5.
        - apply nth_error_list_update_other. apply (Hi k). now left.
        - intros k0 t0 Hin. apply (Hi k0). now right. }
      { intros i Hi. rewrite H6.
        - unfold in_resolved. cbn [existsb fst].
          replace (key_eqb (PInt (Z.of_nat (oidx t))) (PInt (Z.of_nat i))) with false;
            auto.
          symmetry. cbv [key_eqb py_index]. apply Z.eqb_neq.
          specialize (Hi k t (or_introl eq_refl)). lia.
        - intros k0 t0 Hin. apply (Hi k0). now right. }
    + (* a larger subgroup is carried over *)
      destruct (IH {| elements_still_ambiguous_next :=
                        elements_still_ambiguous_next st ++ t :: t2 :: xs;
                      resolved_in_this_group := resolved_in_this_group st;
                      processed_elements_data := processed_elements_data st |})
        as [st' [H1 [H2 [H3 [H4 [H5 H6]]]]]]; auto.
      exists st'. cbn [check_subgroups check_subgroup bind]. rewrite H1.
      cbn [elements_still_ambiguous_next processed_elements_data
           resolved_in_this_group] in *.
      split; [reflexivity |]. split.
      { rewrite H2. cbn [filter nonsingle snd]. unfold elems.
        cbn [map concat snd]. now rewrite <- app_assoc. }
      split; [assumption |]. split.
      { intros k0 t0 Hin. destruct (in_singleton_cons Hin) as [[_ Hx] | Hin'];
          [discriminate | eauto]. }
      split; intros i Hi; [apply H5 | apply H6]; intros k0 t0 Hin;
        apply (Hi k0); now right.
Qed.

Lemma perm_filter {A} (f : A -> bool) (l l' : list A) :
  Permutation l l' -> Permutation (filter f l) (filter f l').
Proof.
  induction 1 as [| x l l' _ IH | x y l | l l' l'' _ IH1 _ IH2]; simpl.
  - constructor.
  - destruct (f x); auto.
  - destruct (f x), (f y); auto. constructor.
  - now transitivity (filter f l').
Qed.

Lemma nodup_map_inj {A B} (f : A -> B) (l : list A) a b :
  NoDup (map f l) -> In a l -> In b l -> f a = f b -> a = b.
Proof.
  induction l as [| x l IH]; simpl; [tauto |].
  intros Hnd Ha Hb Heq. inversion Hnd as [| ? ? Hnot Hnd']; subst.
  destruct Ha as [Ha | Ha], Hb as [Hb | Hb]; subst; auto.
  - exfalso. apply Hnot. rewrite Heq. now apply in_map.
  - exfalso. apply Hnot. rewrite <- Heq. now apply in_map.
Qed.

Lemma nodup_app_disjoint {A} (l l' : list A) a :
  NoDup (l ++ l') -> In a l -> In a l' -> False.
Proof.
  induction l as [| x l IH]; simpl; [tauto |].
  intros Hnd [Ha | Ha] Ha'; inversion Hnd as [| ? ? Hnot Hnd']; subst; auto.
  apply Hnot. apply in_or_app. now right.
Qed.

Lemma nodup_map_filter {A B} (f : A -> B) (q : A -> bool) (l : list A) :
  NoDup (map f l) -> NoDup (map f (filter q l)).
Proof.
  induction l as [| x l IH]; simpl; auto.
  intros Hnd. inversion Hnd as [| ? ? Hnot Hnd']; subst.
  destruct (q x); simpl; auto. constructor; auto.
  intros Hin. apply Hnot. apply in_map_iff in Hin.
  destruct Hin as [y [Hy Hin]]. apply filter_In in Hin.
  rewrite <- Hy. apply in_map. tauto.
Qed.

Lemma subgroup_self key pool t :
  In t pool -> hashable (get_nested_value t key) = true -> In t (subgroup key pool t).
Proof.
  intros Hin Hh. apply filter_In. split; auto. now apply key_eqb_refl.
Qed.

Lemma elems_in k xs (gs : groups) t : In (k, xs) gs -> In t xs -> In t (elems gs).
Proof.
  intros Hin Ht. unfold elems. apply in_concat. exists xs. split; auto.
  change xs with (snd (k, xs)). now apply in_map.
Qed.

(** The groups of size 1 are the records that are alone. *)
Lemma grouped_single key pool gs k t :
  grouped key pool gs -> In (k, [t]) gs -> In t pool /\ alone key pool t = true.
Proof.
  intros Hg Hin. split.
  - apply (Permutation_in _ (grouped_perm Hg)). eapply elems_in; eauto. now left.
  - unfold alone.
    rewrite <- (grouped_subgroup key pool gs k [t] t Hg Hin) by now left.
    reflexivity.
Qed.

Lemma grouped_alone key pool gs t :
  grouped key pool gs -> In t pool -> alone key pool t = true ->
  exists k, In (k, [t]) gs.
Proof.
  intros Hg Hin Ha. destruct (grouped_cover Hg t Hin) as [k [xs [Hk He]]].
  exists k. assert (Ht : In t xs).
  { rewrite (grouped_members Hg _ _ Hk). apply filter_In. auto. }
  pose proof (grouped_subgroup key pool gs k xs t Hg Hk Ht) as Hxs. subst xs.
  unfold alone in Ha. apply Nat.eqb_eq in Ha.
  destruct (subgroup key pool t) as [| x [| y r]]; try discriminate.
  destruct Ht as [Ht | []]. now subst.
Qed.

Lemma elems_filter_nonsingle key pool gs :
  (forall k xs t, In (k, xs) gs -> In t xs -> xs = subgroup key pool t) ->
  elems (filter nonsingle gs)
  = filter (fun t => negb (alone key pool t)) (elems gs).
Proof.
  unfold elems. induction gs as [| [k xs] gs IH]; intros H; auto.
  cbn [map concat snd]. rewrite filter_app, <- IH
    by (intros; eapply H; [right |]; eauto).
  assert (Hxs : forall t, In t xs -> alone key pool t = negb (nonsingle (k, xs))).
  { intros t Ht. unfold alone. rewrite <- (H k xs t) by (auto; now left).
    unfold nonsingle. simpl. now destruct xs as [| ? [| ? ?]]. }
  cbn [filter]. destruct (nonsingle (k, xs)) eqn:E; cbn [map concat snd].
  - f_equal. symmetry. apply forallb_filter_id. apply forallb_forall.
    intros t Ht. now rewrite (Hxs t Ht).
  - rewrite (filter_none (fun t => negb (alone key pool t)) xs)
      by (intros t Ht; now rewrite (Hxs t Ht)).
    reflexivity.
Qed.

Lemma level_step pk lvl pool r A gs :
  (forall t, In t pool -> well_tracked (length A) t) ->
  NoDup (map oidx pool) ->
  (forall t, In t pool -> in_resolved r (oidx t) = false) ->
  group_by_key lvl pool [] = Ok gs ->
  exists st',
    check_subgroups pk lvl gs
      {| elements_still_ambiguous_next := [];
         resolved_in_this_group := r;
         processed_elements_data := A |} = Ok st'
    /\ Permutation (elements_still_ambiguous_next st') (still_ambiguous lvl pool)
    /\ length (processed_elements_data st') = length A
    /\ (forall t, In t pool -> alone lvl pool t = true ->
          nth_error (processed_elements_data st') (oidx t)
          = Some (Some (stored (annotate pk lvl (get_nested_value t lvl) t))))
    /\ (forall i, (forall t, In t pool -> alone lvl pool t = true -> oidx t <> i) ->
          nth_error (processed_elements_data st') i = nth_error A i)
    /\ (forall t, In t (still_ambiguous lvl pool) ->
          in_resolved (resolved_in_this_group st') (oidx t) = false).
Proof.
  intros Hw Hnd Hr Hgs.
  destruct (group_by_key_grouped _ _ _ Hgs) as [Hg _].
  pose proof (grouped_perm Hg) as Hp.
  destruct (check_subgroups_spec pk lvl gs
              {| elements_still_ambiguous_next := [];
                 resolved_in_this_group := r;
                 processed_elements_data := A |})
    as [st' [H1 [H2 [H3 [H4 [H5 H6]]]]]].
  - intros t Ht. apply Hw. now apply (Permutation_in _ Hp).
  - apply (Permutation_NoDup (Permutation_map oidx (Permutation_sym Hp)) Hnd).
  - intros t Ht. apply Hr. now apply (Permutation_in _ Hp).
  - intros k t Hin. destruct (grouped_head Hg _ _ Hin) as [x [rest [Hx Hk]]].
    inversion Hx; subst. reflexivity.
  - exists st'. cbn [elements_still_ambiguous_next processed_elements_data
                     resolved_in_this_group] in *.
    split; [assumption |]. split.
    { rewrite H2. cbn [app].
      rewrite (elems_filter_nonsingle lvl pool gs).
      - unfold still_ambiguous. now apply perm_filter.
      - intros k xs t Hin Ht. eapply grouped_subgroup; eauto. }
    split; [assumption |]. split.
    { intros t Ht Ha. destruct (grouped_alone _ _ _ _ Hg Ht Ha) as [k Hk]. eauto. }
    split.
    { intros i Hi. apply H5. intros k t Hin.
      destruct (grouped_single _ _ _ _ _ Hg Hin). auto. }
    { intros t Ht. apply filter_In in Ht. destruct Ht as [Ht Hna].
      rewrite H6; auto. intros k s Hin Heq.
      destruct (grouped_single _ _ _ _ _ Hg Hin) as [Hs Hsa].
      assert (s = t) by (eapply nodup_map_inj; eauto). subst s.
      rewrite Hsa in Hna. discriminate. }
Qed.

(** ** The order of the pool does not matter *)

Lemma alone_perm key pool pool' t :
  Permutation pool pool' -> alone key pool t = alone key pool' t.
Proof.
  intros Hp. unfold alone, subgroup.
  now rewrite (Permutation_length (perm_filter _ _ _ Hp)).
Qed.

Lemma still_ambiguous_perm key pool pool' :
  Permutation pool pool' ->
  Permutation (still_ambiguous key pool) (still_ambiguous key pool').
Proof.
  intros Hp. unfold still_ambiguous.
  rewrite (filter_ext _ (fun t => negb (alone key pool' t)))
    by (intros t; now rewrite (alone_perm key _ _ t Hp)).
  now apply perm_filter.
Qed.

Lemma resolution_level_perm hier : forall pool pool' t,
  Permutation pool pool' ->
  resolution_level hier pool t = resolution_level hier pool' t.
Proof.
  induction hier as [| lvl rest IH]; intros pool pool' t Hp; simpl; auto.
  rewrite (alone_perm lvl _ _ t Hp).
  now rewrite (IH _ _ t (still_ambiguous_perm lvl _ _ Hp)).
Qed.

Lemma outcome_perm pk hier pool pool' t :
  Permutation pool pool' -> outcome pk hier pool t = outcome pk hier pool' t.
Proof.
  intros Hp. unfold outcome. now rewrite (resolution_level_perm hier _ _ t Hp).
Qed.

Lemma outcome_alone pk lvl rest pool t :
  alone lvl pool t = true ->
  outcome pk (lvl :: rest) pool t
  = stored (annotate pk lvl (get_nested_value t lvl) t).
Proof. intros H. unfold outcome. simpl. now rewrite H. Qed.

Lemma outcome_not_alone pk lvl rest pool t :
  alone lvl pool t = false ->
  outcome pk (lvl :: rest) pool t = outcome pk rest (still_ambiguous lvl pool) t.
Proof.
  intros H. unfold outcome. simpl. rewrite H.
  now destruct (resolution_level rest (still_ambiguous lvl pool) t).
Qed.

(** ** The records that stay ambiguous *)

Lemma store_ambiguous_spec : forall amb A,
  (forall t, In t amb -> well_tracked (length A) t) ->
  NoDup (map oidx amb) ->
  exists A',
    store_ambiguous amb A = Ok A'
    /\ length A' = length A
    /\ (forall t, In t amb -> nth_error A' (oidx t) = Some (Some (stored t)))
    /\ (forall i, (forall t, In t amb -> oidx t <> i) -> nth_error A' i = nth_error A i).
Proof.
  induction amb as [| t amb IH]; intros A Hw Hnd.
  - exists A. simpl. repeat split; auto. intros ? [].
  - inversion Hnd as [| ? ? Hnot Hnd']; subst.
    destruct (Hw t (or_introl eq_refl)) as [Hget Hlt].
    destruct (IH (list_update (oidx t) (Some (stored t)) A)) as [A' [H1 [H2 [H3 H4]]]];
      auto.
    { intros t' Ht'. rewrite list_update_length. apply Hw. now right. }
    exists A'. cbn [store_ambiguous]. unfold dict_pop. rewrite Hget. cbn [bind].
    rewrite list_setitem_nat by assumption. cbn [bind]. fold (stored t). rewrite H1.
    rewrite list_update_length in H2.
    split; [reflexivity |]. split; [assumption |]. split.
    + intros t' [Ht' | Ht'].
      * subst t'. rewrite H4.
        -- now apply nth_error_list_update_same.
        -- intros t' Ht' Heq. apply Hnot. rewrite <- Heq. now apply in_map.
      * auto.
    + intros i Hi. rewrite H4.
      * apply nth_error_list_update_other. apply Hi. now left.
      * intros t' Ht'. apply Hi. now right.
Qed.

(** ** An ambiguous group: all levels, then the remaining records *)

Lemma pool_at_nil hier : forall k, pool_at hier k [] = [].
Proof.
  induction hier as [| lvl rest IH]; intros [| k]; simpl; auto.
Qed.

Lemma pool_at_subset hier : forall k pool t, In t (pool_at hier k pool) -> In t pool.
Proof.
  induction hier as [| lvl rest IH]; intros [| k] pool t; simpl; auto.
  intros H. apply IH in H. apply filter_In in H. tauto.
Qed.

Lemma pool_at_perm hier : forall k pool pool',
  Permutation pool pool' -> Permutation (pool_at hier k pool) (pool_at hier k pool').
Proof.
  induction hier as [| lvl rest IH]; intros [| k] pool pool' Hp; simpl; auto.
  apply IH. now apply still_ambiguous_perm.
Qed.

Lemma values_reached_hashable hier pool :
  values_hashable hier pool -> reached_hashable hier pool.
Proof.
  intros H k level t Hk Ht. apply H.
  - eapply pool_at_subset; eauto.
  - eapply nth_error_In; eauto.
Qed.

Lemma resolve_levels_spec pk : forall hier pool r A,
  (forall t, In t pool -> well_tracked (length A) t) ->
  NoDup (map oidx pool) ->
  (forall t, In t pool -> in_resolved r (oidx t) = false) ->
  values_hashable hier pool \/ (exists x, resolve_levels pk hier pool r A = Ok x) ->
  exists amb A1 A2,
    resolve_levels pk hier pool r A = Ok (amb, A1)
    /\ store_ambiguous amb A1 = Ok A2
    /\ length A2 = length A
    /\ (forall t, In t pool ->
          nth_error A2 (oidx t) = Some (Some (outcome pk hier pool t)))
    /\ (forall i, (forall t, In t pool -> oidx t <> i) ->
          nth_error A2 i = nth_error A i)
    /\ reached_hashable hier pool.
Proof.
  induction hier as [| lvl rest IH]; intros pool r A Hw Hnd Hr Hok.
  - destruct (store_ambiguous_spec pool A Hw Hnd) as [A2 [H1 [H2 [H3 H4]]]].
    exists pool, A, A2. simpl. repeat split; auto.
    intros [| k] level t Hk; discriminate.
  - destruct pool as [| t0 pool0] eqn:Epool.
    { exists [], A, A. simpl.
      split; [reflexivity |]. split; [reflexivity |]. split; [reflexivity |].
      split; [intros ? [] |]. split; [reflexivity |].
      intros k level t _ Ht. rewrite (pool_at_nil (lvl :: rest) k) in Ht.
      destruct Ht. }
    rewrite <- Epool in *. clear Epool t0 pool0.
    assert (Hgs : exists gs, group_by_key lvl pool [] = Ok gs).
    { destruct Hok as [Hh | [x Hx]].
      - apply group_by_key_total. apply Forall_forall. intros t Ht.
        apply Hh; simpl; auto.
      - cbn [resolve_levels] in Hx.
        destruct pool; [eexists; reflexivity |].
        destruct (group_by_key lvl (p :: pool) []); [eauto | discriminate]. }
    destruct Hgs as [gs Hgs].
    destruct (group_by_key_grouped _ _ _ Hgs) as [_ Hfa].
    destruct (level_step pk lvl pool r A gs Hw Hnd Hr Hgs)
      as [st' [S1 [S2 [S3 [S4 [S5 S6]]]]]].
    assert (Hstep : resolve_levels pk (lvl :: rest) pool r A
                    = resolve_levels pk rest (elements_still_ambiguous_next st')
                        (resolved_in_this_group st') (processed_elements_data st')).
    { cbn [resolve_levels]. destruct pool as [| t0 pool0].
      - simpl in Hgs. inversion Hgs; subst gs. simpl in S1. inversion S1; subst st'.
        simpl. now destruct rest.
      - rewrite Hgs. cbn [bind]. rewrite S1. reflexivity. }
    assert (Hsub : forall t, In t (elements_still_ambiguous_next st') ->
                     In t pool /\ alone lvl pool t = false).
    { intros t Ht. apply (Permutation_in _ S2) in Ht. apply filter_In in Ht.
      destruct Ht as [Ht Ha]. split; auto. now destruct (alone lvl pool t). }
    destruct (IH (elements_still_ambiguous_next st') (resolved_in_this_group st')
                 (processed_elements_data st'))
      as [amb [A1 [A2 [R1 [R2 [R3 [R4 [R5 R6]]]]]]]].
    + intros t Ht. rewrite S3. apply Hw. now apply Hsub.
    + apply (Permutation_NoDup (Permutation_map oidx (Permutation_sym S2))).
      now apply nodup_map_filter.
    + intros t Ht. apply S6. now apply (Permutation_in _ S2).
    + destruct Hok as [Hh | [x Hx]].
      * left. intros t l Ht Hl. apply Hh; [now apply Hsub | now right].
      * right. exists x. now rewrite <- Hstep.
    + exists amb, A1, A2. rewrite Hstep.
      split; [assumption |]. split; [assumption |].
      split; [now rewrite R3 |]. split; [| split].
      * intros t Ht. destruct (alone lvl pool t) eqn:Ha.
        -- rewrite outcome_alone by assumption. rewrite R5; [now apply S4 |].
           intros t' Ht' Heq. destruct (Hsub t' Ht') as [Hin' Ha'].
           assert (t' = t) by (eapply nodup_map_inj; eauto). subst t'.
           rewrite Ha in Ha'. discriminate.
        -- rewrite outcome_not_alone by assumption.
           rewrite <- (outcome_perm pk rest _ _ t S2). apply R4.
           apply (Permutation_in _ (Permutation_sym S2)). apply filter_In.
           rewrite Ha. auto.
      * intros i Hi. rewrite R5.
        -- apply S5. intros t Ht _. now apply Hi.
        -- intros t Ht. apply Hi. now apply Hsub.
      * intros [| k] level t Hk Ht; simpl in Hk, Ht.
        -- inversion Hk; subst level.
           exact (proj1 (Forall_forall _ _) Hfa t Ht).
        -- apply (R6 k level t Hk).
           apply (Permutation_in _ (Permutation_sym (pool_at_perm rest k _ _ S2))).
           exact Ht.
Qed.

(** ** One group, then all groups *)

Lemma process_group_spec pk hier G A :
  (forall t, In t G -> well_tracked (length A) t) ->
  NoDup (map oidx G) ->
  values_hashable hier G \/ (exists x, process_group pk hier G A = Ok x) ->
  exists A',
    process_group pk hier G A = Ok A'
    /\ length A' = length A
    /\ (forall t, In t G -> nth_error A' (oidx t) = Some (Some (group_result pk hier G t)))
    /\ (forall i, (forall t, In t G -> oidx t <> i) -> nth_error A' i = nth_error A i)
    /\ ((length G =? 1)%nat = false -> reached_hashable hier G).
Proof.
  intros Hw Hnd Hok.
  assert (Hmulti : (length G =? 1)%nat = false ->
    process_group pk hier G A
    = ('(amb, A1) <- resolve_levels pk hier G [] A ;; store_ambiguous amb A1)).
  { destruct G as [| a [| b G']]; auto. discriminate. }
  destruct (length G =? 1)%nat eqn:E.
  - destruct G as [| t [| b G']]; try discriminate.
    destruct (store_ambiguous_spec [t] A Hw Hnd) as [A' [H1 [H2 [H3 H4]]]].
    exists A'. unfold group_result. simpl length. cbn [Nat.eqb].
    split; [| repeat split; auto; discriminate].
    unfold process_group. cbn [store_ambiguous] in H1.
    destruct (dict_pop t original_index_key) as [[v d] |]; [| discriminate].
    cbn [bind] in *. destruct (list_setitem A v (Some d)); [| discriminate].
    exact H1.
  - destruct (resolve_levels_spec pk hier G [] A Hw Hnd) as
      [amb [A1 [A2 [R1 [R2 [R3 [R4 [R5 R6]]]]]]]]; auto.
    { destruct Hok as [Hh | [x Hx]]; [now left | right].
      rewrite (Hmulti eq_refl) in Hx.
      destruct (resolve_levels pk hier G [] A); [eauto | discriminate]. }
    exists A2. rewrite (Hmulti eq_refl), R1. cbn [bind].
    unfold group_result. rewrite E. auto.
Qed.

Lemma process_groups_spec pk hier : forall gs A,
  (forall t, In t (elems gs) -> well_tracked (length A) t) ->
  NoDup (map oidx (elems gs)) ->
  (forall k G, In (k, G) gs -> values_hashable hier G)
  \/ (exists x, process_groups pk hier gs A = Ok x) ->
  exists A',
    process_groups pk hier gs A = Ok A'
    /\ length A' = length A
    /\ (forall k G t, In (k, G) gs -> In t G ->
          nth_error A' (oidx t) = Some (Some (group_result pk hier G t)))
    /\ (forall i, (forall t, In t (elems gs) -> oidx t <> i) ->
          nth_error A' i = nth_error A i)
    /\ (forall k G, In (k, G) gs -> (length G =? 1)%nat = false ->
          reached_hashable hier G).
Proof.
  induction gs as [| [k G] gs IH]; intros A Hw Hnd Hok.
  - exists A. simpl. repeat split; auto; intros; tauto.
  - assert (HG : forall t, In t G -> In t (elems ((k, G) :: gs))).
    { intros t Ht. unfold elems. simpl. apply in_or_app. now left. }
    assert (Hrest : forall t, In t (elems gs) -> In t (elems ((k, G) :: gs))).
    { intros t Ht. unfold elems. simpl. apply in_or_app. now right. }
    unfold elems in Hnd. cbn [map concat snd] in Hnd. rewrite map_app in Hnd.
    fold (elems gs) in Hnd.
    destruct (process_group_spec pk hier G A) as [A1 [P1 [P2 [P3 [P4 P5]]]]]; auto.
    { now apply NoDup_app_remove_r in Hnd. }
    { destruct Hok as [Hh | [x Hx]]; [left; apply (Hh k); now left | right].
      cbn [process_groups] in Hx.
      destruct (process_group pk hier G A); [eauto | discriminate]. }
    destruct (IH A1) as [A2 [Q1 [Q2 [Q3 [Q4 Q5]]]]].
    { intros t Ht. rewrite P2. auto. }
    { now apply NoDup_app_remove_l in Hnd. }
    { destruct Hok as [Hh | [x Hx]]; [left; intros k' G' Hin; apply (Hh k'); now right
                                      | right].
      cbn [process_groups] in Hx. rewrite P1 in Hx. eauto. }
    exists A2. cbn [process_groups]. rewrite P1. cbn [bind].
    split; [assumption |]. split; [congruence |]. split; [| split].
    + intros k' G' t [Hin | Hin] Ht.
      * inversion Hin; subst k' G'. rewrite Q4; auto.
        intros t' Ht' Heq.
        apply (nodup_app_disjoint _ _ (oidx t) Hnd);
          [now apply in_map | rewrite <- Heq; now apply in_map].
      * eauto.
    + intros i Hi. rewrite Q4; auto.
    + intros k' G' [Hin | Hin] Hlen.
      * inversion Hin; subst k' G'. auto.
      * eauto.
Qed.

(** ** The tracked list *)

Lemma oidx_track i e : oidx (track i e) = i.
Proof.
  unfold oidx, track. rewrite dict_get_set_same. apply Nat2Z.id.
Qed.

Lemma well_tracked_track n i e : i < n -> well_tracked n (track i e).
Proof.
  intros H. unfold well_tracked. rewrite oidx_track. split; auto.
  apply dict_get_set_same.
Qed.

Lemma stored_track i e : stored (track i e) = dict_remove original_index_key e.
Proof. apply dict_remove_set_same. Qed.

Lemma enumerate_from_length s els : length (enumerate_from s els) = length els.
Proof. revert s. induction els; intros s; simpl; auto. Qed.

Lemma enumerate_from_nth : forall els s i,
  nth_error (enumerate_from s els) i = option_map (track (s + i)) (nth_error els i).
Proof.
  induction els as [| e els IH]; intros s [| i]; simpl; auto.
  - now rewrite Nat.add_0_r.
  - rewrite IH. now rewrite Nat.add_succ_r.
Qed.

Lemma enumerate_from_oidx : forall els s,
  map oidx (enumerate_from s els) = seq s (length els).
Proof.
  induction els as [| e els IH]; intros s; simpl; auto.
  rewrite IH. f_equal. apply oidx_track.
Qed.

Lemma enumerate_from_in els t :
  In t (enumerate_from 0 els) ->
  exists i e, nth_error els i = Some e /\ t = track i e /\ i < length els.
Proof.
  intros Hin. apply In_nth_error in Hin. destruct Hin as [i Hi].
  rewrite enumerate_from_nth in Hi.
  destruct (nth_error els i) as [e |] eqn:E; [| discriminate].
  inversion Hi; subst. exists i, e. repeat split; auto.
  apply nth_error_Some. congruence.
Qed.

Lemma drop_none_all {A} : forall (P : list (option A)) (L : list A),
  length P = length L ->
  (forall i x, nth_error L i = Some x -> nth_error P i = Some (Some x)) ->
  drop_none P = L.
Proof.
  induction P as [| p P IH]; intros [| x L] Hlen H; simpl in *; try discriminate; auto.
  specialize (H 0 x eq_refl) as H0. simpl in H0. inversion H0; subst.
  f_equal. apply IH; [lia |]. intros i y Hy. apply (H (S i) y Hy).
Qed.

(** ** The resolver, record by record *)

(** When the call returns, and it does when every derived value is hashable,
    the result is the list of the resolved records, in the order of the
    input, and every derived value that was computed is hashable. *)
Lemma add_uniqueness_context_inv els pk hier :
  inputs_hashable els pk hier \/ (exists x, add_uniqueness_context els pk hier = Ok x) ->
  let T := enumerate_from 0 els in
  add_uniqueness_context els pk hier = Ok (map (resolved_record pk hier T) T)
  /\ (forall t, In t T -> hashable (get_nested_value t pk) = true)
  /\ (forall t, In t T -> (length (subgroup pk T t) =? 1)%nat = false ->
        reached_hashable hier (subgroup pk T t)).
Proof.
  intros Hok T. unfold add_uniqueness_context in *. fold T in Hok |- *.
  assert (Hgs : exists gs, group_by_key pk T [] = Ok gs).
  { destruct Hok as [Hh | [x Hx]].
    - apply group_by_key_total. apply Forall_forall. intros t Ht.
      apply Hh; simpl; auto.
    - destruct (group_by_key pk T []); [eauto | discriminate]. }
  destruct Hgs as [gs Hgs]. rewrite Hgs in *. cbn [bind] in *.
  destruct (group_by_key_grouped _ _ _ Hgs) as [Hg Hfa].
  pose proof (grouped_perm Hg) as Hp.
  assert (HT : forall t, In t T -> well_tracked (length els) t).
  { intros t Ht. destruct (enumerate_from_in els t Ht) as [i [e [_ [-> Hi]]]].
    now apply well_tracked_track. }
  assert (Hown : forall t, In t T ->
            exists k, In (k, subgroup pk T t) gs /\ In t (subgroup pk T t)).
  { intros t Ht. destruct (grouped_cover Hg t Ht) as [k [G [Hk He]]].
    assert (HtG : In t G).
    { rewrite (grouped_members Hg _ _ Hk). apply filter_In. auto. }
    rewrite <- (grouped_subgroup pk T gs k G t Hg Hk HtG). eauto. }
  destruct (process_groups_spec pk hier gs (repeat None (length els)))
    as [A [P1 [P2 [P3 [P4 P5]]]]].
  - intros t Ht. rewrite repeat_length. apply HT. now apply (Permutation_in _ Hp).
  - apply (Permutation_NoDup (Permutation_map oidx (Permutation_sym Hp))).
    unfold T. rewrite enumerate_from_oidx. apply seq_NoDup.
  - destruct Hok as [Hh | [x Hx]].
    + left. intros k G Hin t lvl Ht Hl. apply Hh; [| now right].
      apply (Permutation_in _ Hp). eapply elems_in; eauto.
    + right.
      destruct (process_groups pk hier gs (repeat None (length els)));
        [eauto | discriminate].
  - rewrite P1. cbn [bind]. split; [| split].
    + f_equal. apply drop_none_all.
      * rewrite P2, repeat_length, length_map. unfold T.
        now rewrite enumerate_from_length.
      * intros i x Hx. rewrite nth_error_map in Hx.
        destruct (nth_error T i) as [t |] eqn:Ht; [| discriminate].
        inversion Hx; subst x.
        assert (Hin : In t T) by (eapply nth_error_In; eauto).
        assert (Hi : oidx t = i).
        { unfold T in Ht. rewrite enumerate_from_nth in Ht.
          destruct (nth_error els i); [| discriminate].
          inversion Ht; subst. apply oidx_track. }
        destruct (Hown t Hin) as [k [Hk HtG]].
        rewrite <- Hi, (P3 k _ t Hk HtG). reflexivity.
    + intros t Ht. exact (proj1 (Forall_forall _ _) Hfa t Ht).
    + intros t Ht Hlen. destruct (Hown t Ht) as [k [Hk _]]. eauto.
Qed.

Lemma add_uniqueness_context_char els pk hier :
  inputs_hashable els pk hier \/ (exists x, add_uniqueness_context els pk hier = Ok x) ->
  add_uniqueness_context els pk hier
  = Ok (map (resolved_record pk hier (enumerate_from 0 els)) (enumerate_from 0 els)).
Proof.
  intros Hok. exact (proj1 (add_uniqueness_context_inv els pk hier Hok)).
Qed.

(** ** Resolved records, in the words of the specification *)

Lemma annotate_eq pk level t :
  annotate pk level (get_nested_value t level) t
  = if is_none (get_nested_value t level) then t
    else dict_set uniqueness_context_key (reported_context pk level t) t.
Proof.
  unfold annotate, reported_context, reported_level, reported_value, href_preferred.
  destruct (is_none (get_nested_value t level)); cbn [negb]; auto.
  destruct ((level =? "id") && (pk =? "text")); cbn [andb]; auto.
  destruct (truthy (get_nested_value t "href")); auto.
Qed.

Lemma stored_annotate pk level i e :
  stored (annotate pk level (get_nested_value (track i e) level) (track i e))
  = if is_none (get_nested_value (track i e) level) then plain e
    else with_context (reported_context pk level (track i e)) e.
Proof.
  rewrite annotate_eq. unfold with_context, plain.
  destruct (is_none _).
  - apply stored_track.
  - unfold stored. rewrite dict_remove_set_comm.
    + f_equal. apply dict_remove_set_same.
    + intros H. symmetry in H. revert H. apply tracker_is_not_context.
Qed.

Lemma plain_untracked e : dict_get original_index_key e = None -> plain e = e.
Proof. apply dict_remove_absent. Qed.

Lemma resolution_level_some hier : forall pool t k,
  resolution_level hier pool t = Some k ->
  exists level,
    nth_error hier k = Some level
    /\ nth k hier "" = level
    /\ alone level (pool_at hier k pool) t = true
    /\ (In t pool -> In t (pool_at hier k pool))
    /\ (forall k' level', k' < k -> nth_error hier k' = Some level' ->
          alone level' (pool_at hier k' pool) t = false).
Proof.
  induction hier as [| lvl rest IH]; intros pool t k H; simpl in H; [discriminate |].
  destruct (alone lvl pool t) eqn:Ha.
  - inversion H; subst k. exists lvl. simpl. repeat split; auto. intros; lia.
  - destruct (resolution_level rest (still_ambiguous lvl pool) t) as [k0 |] eqn:E;
      [| discriminate].
    inversion H; subst k. destruct (IH _ _ _ E) as [level [H1 [H2 [H3 [H4 H5]]]]].
    exists level. simpl. repeat split; auto.
    + intros Hin. apply H4. apply filter_In. rewrite Ha. auto.
    + intros [| k'] level' Hlt Hk; simpl in *.
      * inversion Hk; subst. assumption.
      * apply H5; auto. lia.
Qed.

Lemma resolution_level_none hier : forall pool t,
  resolution_level hier pool t = None ->
  forall k level, nth_error hier k = Some level ->
    alone level (pool_at hier k pool) t = false
    /\ (In t pool -> In t (pool_at hier k pool)).
Proof.
  induction hier as [| lvl rest IH]; intros pool t H k level Hk.
  - destruct k; discriminate.
  - simpl in H. destruct (alone lvl pool t) eqn:Ha; [discriminate |].
    destruct (resolution_level rest (still_ambiguous lvl pool) t) eqn:E;
      [discriminate |].
    destruct k as [| k]; simpl in *.
    + inversion Hk; subst. auto.
    + destruct (IH _ _ E k level Hk) as [H1 H2]. split; auto.
      intros Hin. apply H2. apply filter_In. rewrite Ha. auto.
Qed.

Lemma resolution_level_first hier : forall pool t k level,
  nth_error hier k = Some level ->
  In t (pool_at hier k pool) ->
  alone level (pool_at hier k pool) t = true ->
  resolution_level hier pool t = Some k.
Proof.
  induction hier as [| lvl rest IH]; intros pool t [| k] level Hk Hin Ha;
    simpl in *; try discriminate.
  - inversion Hk; subst. now rewrite Ha.
  - assert (Hs : In t (still_ambiguous lvl pool)) by (eapply pool_at_subset; eauto).
    apply filter_In in Hs. destruct Hs as [_ Hs].
    destruct (alone lvl pool t); [discriminate |].
    now rewrite (IH _ _ _ _ Hk Hin Ha).
Qed.

Lemma outcome_at pk hier pool t k level :
  nth_error hier k = Some level ->
  In t (pool_at hier k pool) ->
  alone level (pool_at hier k pool) t = true ->
  outcome pk hier pool t = stored (annotate pk level (get_nested_value t level) t).
Proof.
  intros Hk Hin Ha. unfold outcome.
  rewrite (resolution_level_first hier pool t k level Hk Hin Ha).
  now rewrite (nth_error_nth _ _ _ Hk).
Qed.

(** A record that is not alone in a pool of distinct records has a
    companion with the same derived value. *)
Lemma not_alone_companion key pool t :
  NoDup pool -> In t pool ->
  hashable (get_nested_value t key) = true ->
  alone key pool t = false ->
  exists u, In u pool /\ u <> t
    /\ key_eqb (get_nested_value u key) (get_nested_value t key) = true.
Proof.
  intros Hnd Hin Hh Ha.
  pose proof (subgroup_self key pool t Hin Hh) as Hself.
  assert (Hnd' : NoDup (subgroup key pool t)) by now apply NoDup_filter.
  assert (Hall : forall u, In u (subgroup key pool t) ->
            In u pool /\ key_eqb (get_nested_value u key) (get_nested_value t key) = true).
  { intros u Hu. now apply filter_In in Hu. }
  unfold alone in Ha. apply Nat.eqb_neq in Ha.
  destruct (subgroup key pool t) as [| x [| y r]]; simpl in *; try tauto; try lia.
  inversion Hnd' as [| ? ? Hnot _]; subst.
  destruct (Hall x (or_introl eq_refl)) as [Hx1 Hx2].
  destruct (Hall y (or_intror (or_introl eq_refl))) as [Hy1 Hy2].
  assert (Hxy : x <> y) by (intros ->; apply Hnot; now left).
  destruct Hself as [Hs | [Hs | Hs]].
  - subst x. exists y. repeat split; auto.
  - subst y. exists x. repeat split; auto.
  - exists x. repeat split; auto. intros ->. apply Hnot. now right.
Qed.

Lemma tracked_nodup els : NoDup (tracked els).
Proof.
  apply (NoDup_map_inv oidx). unfold tracked. rewrite enumerate_from_oidx.
  apply seq_NoDup.
Qed.

Lemma tracked_nth els i e :
  nth_error els i = Some e -> nth_error (tracked els) i = Some (track i e).
Proof.
  intros H. unfold tracked. rewrite enumerate_from_nth, H. reflexivity.
Qed.

Lemma pool_at_nodup hier : forall k pool, NoDup pool -> NoDup (pool_at hier k pool).
Proof.
  induction hier as [| lvl rest IH]; intros [| k] pool H; simpl; auto.
  apply IH. now apply NoDup_filter.
Qed.


(** What a returned list tells about the record at position [i]. *)
Lemma resolver_record els pk hier out i e :
  add_uniqueness_context els pk hier = Ok out ->
  nth_error els i = Some e ->
  length out = length els
  /\ nth_error out i = Some (resolved_record pk hier (tracked els) (track i e))
  /\ In (track i e) (primary_group els pk i e)
  /\ ((length (primary_group els pk i e) =? 1)%nat = false ->
        reached_hashable hier (primary_group els pk i e)).
Proof.
  intros Hout He.
  destruct (add_uniqueness_context_inv els pk hier (or_intror (ex_intro _ out Hout)))
    as [H1 [H2 H3]].
  rewrite Hout in H1. inversion H1 as [Hmap]. clear H1.
  pose proof (tracked_nth els i e He) as Ht. fold (tracked els) in *.
  assert (Hin : In (track i e) (tracked els)) by (eapply nth_error_In; eauto).
  split; [| split; [| split]].
  - rewrite length_map. apply enumerate_from_length.
  - rewrite nth_error_map, Ht. reflexivity.
  - apply subgroup_self; auto.
  - intros Hlen. apply H3; auto.
Qed.

Lemma resolver_record_single els pk hier out i e :
  add_uniqueness_context els pk hier = Ok out ->
  nth_error els i = Some e ->
  (length (primary_group els pk i e) =? 1)%nat = true ->
  nth_error out i = Some (plain e).
Proof.
  intros Hout He Hlen.
  destruct (resolver_record els pk hier out i e Hout He) as [_ [H _]].
  rewrite H. unfold resolved_record. fold (primary_group els pk i e).
  rewrite Hlen. now rewrite stored_track.
Qed.

Lemma resolver_record_at els pk hier out i e k level :
  add_uniqueness_context els pk hier = Ok out ->
  nth_error els i = Some e ->
  (length (primary_group els pk i e) =? 1)%nat = false ->
  nth_error hier k = Some level ->
  In (track i e) (pool_at hier k (primary_group els pk i e)) ->
  alone level (pool_at hier k (primary_group els pk i e)) (track i e) = true ->
  nth_error out i
  = Some (if is_none (get_nested_value (track i e) level) then plain e
          else with_context (reported_context pk level (track i e)) e).
Proof.
  intros Hout He Hlen Hk Hin Ha.
  destruct (resolver_record els pk hier out i e Hout He) as [_ [H _]].
  rewrite H. unfold resolved_record. fold (primary_group els pk i e).
  rewrite Hlen, (outcome_at pk hier _ _ k level Hk Hin Ha).
  now rewrite stored_annotate.
Qed.

Lemma resolver_record_unresolved els pk hier out i e :
  add_uniqueness_context els pk hier = Ok out ->
  nth_error els i = Some e ->
  (length (primary_group els pk i e) =? 1)%nat = false ->
  resolution_level hier (primary_group els pk i e) (track i e) = None ->
  nth_error out i = Some (plain e).
Proof.
  intros Hout He Hlen Hr.
  destruct (resolver_record els pk hier out i e Hout He) as [_ [H _]].
  rewrite H. unfold resolved_record. fold (primary_group els pk i e).
  rewrite Hlen. unfold outcome. rewrite Hr. now rewrite stored_track.
Qed.

Lemma primary_group_nodup els pk i e : NoDup (primary_group els pk i e).
Proof. apply NoDup_filter, tracked_nodup. Qed.

Lemma is_none_true v : is_none v = true -> v = PNone.
Proof. destruct v; simpl; auto; discriminate. Qed.

Lemma dict_get_default_track k i e v :
  k <> original_index_key ->
  dict_get_default k (track i e) v = dict_get_default k e v.
Proof.
  intros H. unfold dict_get_default, track.
  rewrite dict_get_set_other; auto.
Qed.

Lemma get_nested_value_track_href i e :
  get_nested_value (track i e) "href" = get_nested_value e "href".
Proof.
  unfold get_nested_value, get_nested_value_body. cbn [String.eqb Ascii.eqb Bool.eqb].
  rewrite dict_get_default_track by discriminate. reflexivity.
Qed.

(** * Dict objects and their values *)












Lemma length_list_setitem {A} (l l' : list A) idx x :
  list_setitem l idx x = Ok l' -> length l' = length l.
Proof.
  unfold list_setitem. destruct (py_index idx); [| discriminate].
  repeat match goal with |- context [if ?b then _ else _] => destruct b end;
    intros H; inversion H; subst; apply list_update_length.
Qed.





Lemma separate_tail l l' P h : separate (l ++ l') P h -> separate l' P h.
Proof.
  intros [Hn H]. split.
  - now apply NoDup_app_remove_l in Hn.
  - intros b Hb. apply H. apply in_or_app. now right.
Qed.

(** *** Grouping *)




(** *** One level *)




(** *** The levels of the hierarchy *)


(** *** Storing a record *)



(** *** The copy of a group *)



(** *** The groups of the primary value *)



(** *** The trackers *)







(** ** A list that holds an object twice *)











(** *** The groups *)






(** *** The levels *)






(** *** The copy of a group that holds an object twice *)



(** *** The call *)




Lemma distinct_keys_nodup keys : distinct_keys keys = true -> NoDup keys.
Proof.
  induction keys as [| k keys IH]; simpl; intros H; constructor.
  - apply andb_true_iff in H. destruct H as [H _]. apply negb_true_iff in H.
    intros Hin.
    assert (Hex : existsb (String.eqb k) keys = true).
    { apply existsb_exists. exists k. split; auto. apply String.eqb_refl. }
    congruence.
  - apply IH. apply andb_true_iff in H. tauto.
Qed.

Lemma dicts_by_keys h :
  forallb (fun d : pydict => distinct_keys (map fst d)) h = true -> dicts h.
Proof.
  intros H. apply Forall_forall. intros d Hd.
  apply distinct_keys_nodup. rewrite forallb_forall in H. now apply H.
Qed.


(** * The claims on the resolver *)

(** C1 (as amended).  In a group of several records that share a primary
    value, a record that is alone in its subgroup at a level, among the
    records still ambiguous at that level, is resolved there: it is assigned
    the reported [uniqueness_context] when its value at the level is not the
    no-value marker, and it is returned without one when its value is the
    no-value marker.  Consequently every record of such a group either
    carries an assigned [uniqueness_context], or was singled out by lacking a
    value, or is irreducibly ambiguous: at every level of the hierarchy
    another record of its group has the same derived value. *)
Theorem singleton_subgroup_is_resolved els pk hier out i e :
  add_uniqueness_context els pk hier = Ok out ->
  nth_error els i = Some e ->
  (length (primary_group els pk i e) =? 1)%nat = false ->
  (forall k level,
      nth_error hier k = Some level ->
      In (track i e) (pool_at hier k (primary_group els pk i e)) ->
      alone level (pool_at hier k (primary_group els pk i e)) (track i e) = true ->
      nth_error out i
      = Some (if is_none (get_nested_value (track i e) level) then plain e
              else with_context (reported_context pk level (track i e)) e))
  /\ ((exists c, nth_error out i = Some (with_context c e))
      \/ (nth_error out i = Some (plain e)
          /\ exists k level,
               nth_error hier k = Some level
               /\ In (track i e) (pool_at hier k (primary_group els pk i e))
               /\ alone level (pool_at hier k (primary_group els pk i e)) (track i e) = true
               /\ get_nested_value (track i e) level = PNone)
      \/ (nth_error out i = Some (plain e)
          /\ forall level, In level hier ->
               exists u, In u (primary_group els pk i e) /\ u <> track i e
                 /\ key_eqb (get_nested_value u level)
                            (get_nested_value (track i e) level) = true)).
Proof.
  intros Hout He Hlen. split.
  - intros k level. now apply resolver_record_at.
  - destruct (resolver_record els pk hier out i e Hout He) as [_ [_ [Hin Hh]]].
    specialize (Hh Hlen).
    destruct (resolution_level hier (primary_group els pk i e) (track i e))
      as [k |] eqn:Er.
    + destruct (resolution_level_some hier _ _ _ Er) as [level [H1 [_ [H3 [H4 _]]]]].
      specialize (H4 Hin).
      pose proof (resolver_record_at els pk hier out i e k level Hout He Hlen H1 H4 H3)
        as Ho.
      destruct (is_none (get_nested_value (track i e) level)) eqn:En.
      * right; left. split; auto. exists k, level. repeat split; auto.
        now apply is_none_true.
      * left. eauto.
    + right; right.
      split; [exact (resolver_record_unresolved els pk hier out i e Hout He Hlen Er) |].
      intros level Hl. apply In_nth_error in Hl. destruct Hl as [k Hk].
      destruct (resolution_level_none hier _ _ Er k level Hk) as [Ha Hp].
      specialize (Hp Hin).
      destruct (not_alone_companion level _ (track i e)
                  (pool_at_nodup hier k _ (primary_group_nodup els pk i e)) Hp
                  (Hh k level _ Hk Hp) Ha) as [u [Hu1 [Hu2 Hu3]]].
      exists u. repeat split; auto. eapply pool_at_subset; eauto.
Qed.

(** C2 (as amended).  A record that is assigned a [uniqueness_context] is
    resolved at the first level of the hierarchy at which it is alone in its
    subgroup among the records still ambiguous there, and the reported level
    is that level, except that [href] is reported when that level is [id],
    the primary key is [text] and the href-derived value of the record is
    truthy. *)
Theorem context_level_is_first els pk hier out i e :
  add_uniqueness_context els pk hier = Ok out ->
  nth_error els i = Some e ->
  nth_error out i = Some (plain e)
  \/ exists k level,
       nth_error hier k = Some level
       /\ In (track i e) (pool_at hier k (primary_group els pk i e))
       /\ alone level (pool_at hier k (primary_group els pk i e)) (track i e) = true
       /\ (forall k' level', k' < k -> nth_error hier k' = Some level' ->
             alone level' (pool_at hier k' (primary_group els pk i e)) (track i e) = false)
       /\ is_none (get_nested_value (track i e) level) = false
       /\ nth_error out i
          = Some (with_context
                    (make_context (reported_level pk level (track i e))
                                  (reported_value pk level (track i e))) e)
       /\ (href_preferred pk level (track i e) = false ->
             reported_level pk level (track i e) = level)
       /\ (href_preferred pk level (track i e) = true ->
             reported_level pk level (track i e) = "href").
Proof.
  intros Hout He.
  destruct (length (primary_group els pk i e) =? 1)%nat eqn:Hlen.
  { left. exact (resolver_record_single els pk hier out i e Hout He Hlen). }
  destruct (resolver_record els pk hier out i e Hout He) as [_ [_ [Hin _]]].
  destruct (resolution_level hier (primary_group els pk i e) (track i e))
    as [k |] eqn:Er.
  - destruct (resolution_level_some hier _ _ _ Er) as [level [H1 [_ [H3 [H4 H5]]]]].
    specialize (H4 Hin).
    pose proof (resolver_record_at els pk hier out i e k level Hout He Hlen H1 H4 H3)
      as Ho.
    destruct (is_none (get_nested_value (track i e) level)) eqn:En; [now left |].
    right. exists k, level. unfold reported_level.
    repeat split; auto; intros ->; reflexivity.
  - left. exact (resolver_record_unresolved els pk hier out i e Hout He Hlen Er).
Qed.

(** C3 (as amended).  A record resolved at level [id] with primary key
    [text] reports level [href] with the href-derived value when that value
    is truthy (not [None] and not the empty string); otherwise, and with any
    other level or primary key, it reports the discriminating level and its
    value. *)
Theorem href_is_preferred_over_id els pk hier out i e k level :
  add_uniqueness_context els pk hier = Ok out ->
  nth_error els i = Some e ->
  (length (primary_group els pk i e) =? 1)%nat = false ->
  nth_error hier k = Some level ->
  In (track i e) (pool_at hier k (primary_group els pk i e)) ->
  alone level (pool_at hier k (primary_group els pk i e)) (track i e) = true ->
  is_none (get_nested_value (track i e) level) = false ->
  (level = "id" -> pk = "text" -> truthy (get_nested_value e "href") = true ->
     nth_error out i
     = Some (with_context (make_context "href" (get_nested_value e "href")) e))
  /\ (level <> "id" \/ pk <> "text" \/ truthy (get_nested_value e "href") = false ->
     nth_error out i
     = Some (with_context
               (make_context level (get_nested_value (track i e) level)) e)).
Proof.
  intros Hout He Hlen Hk Hin Ha Hn.
  pose proof (resolver_record_at els pk hier out i e k level Hout He Hlen Hk Hin Ha)
    as Ho.
  rewrite Hn in Ho. rewrite Ho.
  unfold reported_context, reported_level, reported_value, href_preferred.
  rewrite get_nested_value_track_href. split.
  - intros -> -> Ht. rewrite Ht. reflexivity.
  - intros H.
    destruct (level =? "id") eqn:E1; cbn [andb]; auto.
    destruct (pk =? "text") eqn:E2; cbn [andb]; auto.
    destruct (truthy (get_nested_value e "href")) eqn:E3; auto.
    apply String.eqb_eq in E1, E2. destruct H as [H | [H | H]]; congruence.
Qed.




(** * The claims on derived values *)

Lemma py_get_raises v k default e : py_get v k default = Raise e -> e = AttributeError.
Proof. destruct v; simpl; intros H; inversion H; reflexivity. Qed.

Lemma py_join_raises sep v e : py_join sep v = Raise e -> e = TypeError.
Proof.
  destruct v; simpl; intros H; try (inversion H; reflexivity).
  destruct (all_strs l); inversion H; reflexivity.
Qed.

Ltac raise_cases :=
  repeat match goal with
         | H : Ok _ = Raise _ |- _ => discriminate H
         | H : Raise _ = Raise _ |- _ => inversion H; subst; clear H
         | H : py_get _ _ _ = Raise _ |- _ => apply py_get_raises in H; subst
         | H : py_join _ _ = Raise _ |- _ => apply py_join_raises in H; subst
         | H : context [bind ?c _] |- _ => destruct c eqn:?; cbn [bind] in H
         | H : context [if ?b then _ else _] |- _ => destruct b eqn:?
         | H : context [match ?x with _ => _ end] |- _ => destruct x eqn:?
         end; auto.

Lemma get_nested_value_body_raises d key e :
  get_nested_value_body d key = Raise e -> e = AttributeError \/ e = TypeError.
Proof.
  unfold get_nested_value_body. intros H. raise_cases.
Qed.

Lemma unreachable_traverse keys v : unreachable keys v -> traverse keys v = None.
Proof.
  induction 1 as [key rest v Hv | key rest d Hd | key rest d Hd | key rest d v Hd Hu IH];
    simpl.
  - destruct v; auto. exfalso. now apply (Hv d).
  - now rewrite Hd.
  - now rewrite Hd.
  - rewrite Hd. now destruct v.
Qed.

Lemma absent_default k d : absent k d -> dict_get_default k d PNone = PNone.
Proof. unfold dict_get_default. now intros [-> | ->]. Qed.

Lemma grouped_none_group key pool gs t :
  group_by_key key pool [] = Ok gs ->
  In t pool ->
  get_nested_value t key = PNone ->
  In (PNone, filter (fun u => is_none (get_nested_value u key)) pool) gs.
Proof.
  intros Hgs Hin Hn. destruct (group_by_key_grouped _ _ _ Hgs) as [Hg _].
  destruct (grouped_cover Hg t Hin) as [k [xs [Hk He]]].
  rewrite Hn in He. assert (k = PNone) by (destruct k; auto; discriminate).
  subst k. pose proof (grouped_members Hg _ _ Hk) as Hm. subst xs.
  exact Hk.
Qed.

Lemma key_eqb_none_r v : key_eqb v PNone = is_none v.
Proof. now destruct v. Qed.

Lemma pool_at_succ hier : forall k pool level,
  nth_error hier k = Some level ->
  pool_at hier (S k) pool = still_ambiguous level (pool_at hier k pool).
Proof.
  induction hier as [| lvl rest IH]; intros [| k] pool level Hk;
    simpl in Hk; try discriminate.
  - inversion Hk; subst. destruct rest; reflexivity.
  - change (pool_at (lvl :: rest) (S (S k)) pool)
      with (pool_at rest (S k) (still_ambiguous lvl pool)).
    now rewrite (IH k _ level Hk).
Qed.

Lemma reaches_traverse keys v w : reaches keys v w -> traverse keys v = Some w.
Proof.
  induction 1 as [v | key rest d v w Hd Hv _ IH]; simpl; auto.
  rewrite Hd. destruct v; auto. contradiction.
Qed.

Lemma pool_at_not_alone hier : forall k pool t,
  In t (pool_at hier k pool) ->
  forall k' level', k' < k -> nth_error hier k' = Some level' ->
    alone level' (pool_at hier k' pool) t = false.
Proof.
  induction hier as [| lvl rest IH]; intros k pool t Hin k' level' Hlt Hk'.
  - destruct k'; discriminate.
  - destruct k as [| k]; [lia |].
    change (pool_at (lvl :: rest) (S k) pool)
      with (pool_at rest k (still_ambiguous lvl pool)) in Hin.
    destruct k' as [| k'].
    + simpl in Hk'. inversion Hk'; subst. simpl.
      apply pool_at_subset in Hin. apply filter_In in Hin.
      destruct Hin as [_ Hin]. now apply negb_true_iff in Hin.
    + change (pool_at (lvl :: rest) (S k') pool)
        with (pool_at rest k' (still_ambiguous lvl pool)).
      apply (IH k _ t Hin k' level'); [lia | exact Hk'].
Qed.

(** C5 (as amended).  A missing or unreachable value resolves to [None]: for
    a dotted path, when a key is absent, holds [None], or a non-dict is
    reached; for the composite levels, when their source fields are absent.
    A string that a dotted path leads to is derived as it is, the empty
    string too; at the level [href] an empty string is derived as [None].
    The grouping loop puts all the records of its pool that lack the value in
    one group, of key [None].  In a call that returns, a record that lacks
    the value of a level has for subgroup all the records of the pool of that
    level that lack it, and no other; alone in it, the record is returned
    without a [uniqueness_context]; else it stays in the pool of the next
    level, and is returned without a [uniqueness_context] when the level is
    the last; a record alone with the empty string receives a context.  The
    level [sibling_text] is the next-sibling text when that is a non-empty
    text, else the previous-sibling text: also when the next-sibling text is
    there and empty. *)
Theorem missing_value_is_no_value_marker :
  (forall d key,
      composite_key key = false ->
      unreachable (py_split "." key) (PDict d) ->
      get_nested_value d key = PNone)
  /\ (forall d,
        absent "next_sibling_text" d -> absent "prev_sibling_text" d ->
        get_nested_value d "sibling_text" = PNone)
  /\ (forall d,
        absent "parent" d ->
        get_nested_value d "parent_classes" = PNone
        /\ get_nested_value d "parent_description" = PNone)
  /\ (forall d p,
        dict_get "parent" d = Some (PDict p) -> absent "classes" p ->
        get_nested_value d "parent_classes" = PNone)
  /\ (forall d,
        absent "href" d \/ dict_get "href" d = Some (PStr "") ->
        get_nested_value d "href" = PNone)
  /\ (forall d key s,
        composite_key key = false ->
        reaches (py_split "." key) (PDict d) (PStr s) ->
        get_nested_value d key = PStr s)
  /\ (forall key pool gs t,
        group_by_key key pool [] = Ok gs ->
        In t pool ->
        get_nested_value t key = PNone ->
        In (PNone, filter (fun u => is_none (get_nested_value u key)) pool) gs)
  /\ (forall els pk hier out i e k level,
        add_uniqueness_context els pk hier = Ok out ->
        nth_error els i = Some e ->
        (length (primary_group els pk i e) =? 1)%nat = false ->
        nth_error hier k = Some level ->
        In (track i e) (pool_at hier k (primary_group els pk i e)) ->
        (get_nested_value (track i e) level = PNone ->
           subgroup level (pool_at hier k (primary_group els pk i e)) (track i e)
           = filter (fun u => is_none (get_nested_value u level))
               (pool_at hier k (primary_group els pk i e))
           /\ (alone level (pool_at hier k (primary_group els pk i e)) (track i e)
               = true ->
               nth_error out i = Some (plain e))
           /\ (alone level (pool_at hier k (primary_group els pk i e)) (track i e)
               = false ->
               In (track i e) (pool_at hier (S k) (primary_group els pk i e)))
           /\ (alone level (pool_at hier k (primary_group els pk i e)) (track i e)
               = false ->
               S k = length hier ->
               nth_error out i = Some (plain e)))
        /\ (get_nested_value (track i e) level = PStr "" ->
            alone level (pool_at hier k (primary_group els pk i e)) (track i e)
            = true ->
            nth_error out i
            = Some (with_context (reported_context pk level (track i e)) e)))
  /\ (forall d s,
        dict_get "next_sibling_text" d = Some (PStr s) -> s <> "" ->
        get_nested_value d "sibling_text" = PStr s)
  /\ (forall d,
        absent "next_sibling_text" d
        \/ dict_get "next_sibling_text" d = Some (PStr "") ->
        get_nested_value d "sibling_text"
        = dict_get_default "prev_sibling_text" d PNone).
Proof.
  repeat apply conj.
  - intros d key Hc Hu. unfold composite_key in Hc.
    apply orb_false_iff in Hc. destruct Hc as [Hc H4].
    apply orb_false_iff in Hc. destruct Hc as [Hc H3].
    apply orb_false_iff in Hc. destruct Hc as [H1 H2].
    unfold get_nested_value, get_nested_value_body.
    rewrite H1, H2, H3, H4, (unreachable_traverse _ _ Hu). reflexivity.
  - intros d Hn Hp. unfold get_nested_value, get_nested_value_body.
    cbn [String.eqb Ascii.eqb Bool.eqb].
    rewrite (absent_default _ _ Hn), (absent_default _ _ Hp). reflexivity.
  - intros d Hp. split; unfold get_nested_value, get_nested_value_body;
      cbn [String.eqb Ascii.eqb Bool.eqb];
      rewrite (absent_default _ _ Hp); reflexivity.
  - intros d p Hd Hc. unfold get_nested_value, get_nested_value_body.
    cbn [String.eqb Ascii.eqb Bool.eqb].
    unfold dict_get_default. rewrite Hd.
    destruct (truthy (PDict p)); auto. cbn [py_get bind].
    destruct Hc as [-> | ->]; reflexivity.
  - intros d Hh. unfold get_nested_value, get_nested_value_body.
    cbn [String.eqb Ascii.eqb Bool.eqb].
    unfold dict_get_default. destruct Hh as [[-> | ->] | ->]; reflexivity.
  - intros d key s Hc Hr. unfold composite_key in Hc.
    apply orb_false_iff in Hc. destruct Hc as [Hc H4].
    apply orb_false_iff in Hc. destruct Hc as [Hc H3].
    apply orb_false_iff in Hc. destruct Hc as [H1 H2].
    unfold get_nested_value, get_nested_value_body.
    rewrite H1, H2, H3, H4, (reaches_traverse _ _ _ Hr). cbn [is_list].
    now rewrite andb_false_r.
  - exact grouped_none_group.
  - intros els pk hier out i e k level Hout He Hlen Hk Hin. split.
    + intros Hn. split; [| split; [| split]].
      * unfold subgroup. rewrite Hn. apply filter_ext. intros u.
        apply key_eqb_none_r.
      * intros Ha.
        rewrite (resolver_record_at els pk hier out i e k level Hout He Hlen Hk Hin Ha).
        now rewrite Hn.
      * intros Ha. rewrite (pool_at_succ hier k _ level Hk).
        apply filter_In. split; auto. now rewrite Ha.
      * intros Ha Hlast.
        apply (resolver_record_unresolved els pk hier out i e Hout He Hlen).
        destruct (resolution_level hier (primary_group els pk i e) (track i e))
          as [j |] eqn:Ej; auto.
        exfalso.
        destruct (resolution_level_some hier _ _ j Ej)
          as [level' [Hj [_ [Hal _]]]].
        assert (Hlt : j < length hier) by (apply nth_error_Some; congruence).
        destruct (Nat.eq_dec j k) as [-> | Hne].
        -- rewrite Hk in Hj. inversion Hj; subst. congruence.
        -- rewrite (pool_at_not_alone hier k _ _ Hin j level') in Hal;
             [discriminate | lia | assumption].
    + intros Hs Ha.
      rewrite (resolver_record_at els pk hier out i e k level Hout He Hlen Hk Hin Ha).
      now rewrite Hs.
  - intros d s Hd Hs. unfold get_nested_value, get_nested_value_body.
    cbn [String.eqb Ascii.eqb Bool.eqb].
    unfold dict_get_default at 1. rewrite Hd. unfold py_or. cbn [truthy].
    destruct (s =? "") eqn:E; auto. apply String.eqb_eq in E. contradiction.
  - intros d Hd. unfold get_nested_value, get_nested_value_body.
    cbn [String.eqb Ascii.eqb Bool.eqb].
    unfold dict_get_default at 1. unfold py_or.
    destruct Hd as [[-> | ->] | ->]; reflexivity.
Qed.

(** * The claims at concrete records *)

(** C1 as stated fails: the group of the two paragraphs is split by [id];
    [para_plain] is alone in its subgroup (it has no [id]) and is returned
    without a [uniqueness_context], although the level tells it apart from
    the other record of its group. *)
Lemma lacking_a_value_resolves_without_context :
  add_uniqueness_context [para_intro; para_plain] "text_snippet" ["id"]
  = Ok [with_context (make_context "id" (PStr "intro")) para_intro; para_plain]
  /\ length (primary_group [para_intro; para_plain] "text_snippet" 1 para_plain) = 2
  /\ subgroup "id" (primary_group [para_intro; para_plain] "text_snippet" 1 para_plain)
       (track 1 para_plain) = [track 1 para_plain]
  /\ dict_get uniqueness_context_key para_plain = None.
Proof. repeat split. Qed.

Lemma singleton_subgroup_is_resolved_witness :
  nth_error [with_context (make_context "id" (PStr "intro")) para_intro; para_plain] 0
  = Some (with_context (make_context "id" (PStr "intro")) para_intro).
Proof.
  exact (proj1 (singleton_subgroup_is_resolved
                  [para_intro; para_plain] "text_snippet" ["id"]
                  [with_context (make_context "id" (PStr "intro")) para_intro; para_plain]
                  0 para_intro eq_refl eq_refl eq_refl)
               0 "id" eq_refl (or_introl eq_refl) eq_refl).
Defined.

(** C2 as stated fails: both links are told apart by [id], the only level of
    the hierarchy, and the level reported is [href]. *)
Lemma reported_level_is_not_the_resolving_level :
  add_uniqueness_context [link_about; link_contact] "text" ["id"]
  = Ok [with_context (make_context "href" (PStr "about")) link_about;
        with_context (make_context "href" (PStr "contact")) link_contact]
  /\ alone "id" (primary_group [link_about; link_contact] "text" 0 link_about)
       (track 0 link_about) = true
  /\ nth_error ["id"] 0 = Some "id"
  /\ ("href" =? "id") = false.
Proof. repeat split. Qed.

Lemma context_level_is_first_witness :
  nth_error [with_context (make_context "parent.id" (PStr "left")) button_left;
             with_context (make_context "parent.id" (PStr "right")) button_right] 0
  = Some (plain button_left)
  \/ exists k level,
       nth_error ["name"; "parent.id"] k = Some level
       /\ In (track 0 button_left)
            (pool_at ["name"; "parent.id"] k
               (primary_group [button_left; button_right] "text" 0 button_left))
       /\ alone level
            (pool_at ["name"; "parent.id"] k
               (primary_group [button_left; button_right] "text" 0 button_left))
            (track 0 button_left) = true
       /\ (forall k' level', k' < k ->
             nth_error ["name"; "parent.id"] k' = Some level' ->
             alone level'
               (pool_at ["name"; "parent.id"] k'
                  (primary_group [button_left; button_right] "text" 0 button_left))
               (track 0 button_left) = false)
       /\ is_none (get_nested_value (track 0 button_left) level) = false
       /\ nth_error [with_context (make_context "parent.id" (PStr "left")) button_left;
                     with_context (make_context "parent.id" (PStr "right")) button_right] 0
          = Some (with_context
                    (make_context (reported_level "text" level (track 0 button_left))
                                  (reported_value "text" level (track 0 button_left)))
                    button_left)
       /\ (href_preferred "text" level (track 0 button_left) = false ->
             reported_level "text" level (track 0 button_left) = level)
       /\ (href_preferred "text" level (track 0 button_left) = true ->
             reported_level "text" level (track 0 button_left) = "href").
Proof.
  exact (context_level_is_first [button_left; button_right] "text"
           ["name"; "parent.id"]
           [with_context (make_context "parent.id" (PStr "left")) button_left;
            with_context (make_context "parent.id" (PStr "right")) button_right]
           0 button_left eq_refl eq_refl).
Defined.

(** C3 as stated fails: the href-derived value of both links is the empty
    string, which is not [None], and the level reported is [id]. *)
Lemma empty_href_value_reports_id :
  add_uniqueness_context [link_root; link_crumb] "text" ["id"]
  = Ok [with_context (make_context "id" (PStr "logo")) link_root;
        with_context (make_context "id" (PStr "crumb")) link_crumb]
  /\ get_nested_value link_root "href" = PStr ""
  /\ is_none (get_nested_value link_root "href") = false
  /\ alone "id" (primary_group [link_root; link_crumb] "text" 0 link_root)
       (track 0 link_root) = true.
Proof. repeat split. Qed.

Lemma href_is_preferred_over_id_witness :
  nth_error [with_context (make_context "href" (PStr "about")) link_about;
             with_context (make_context "href" (PStr "contact")) link_contact] 0
  = Some (with_context (make_context "href" (get_nested_value link_about "href"))
            link_about).
Proof.
  exact (proj1 (href_is_preferred_over_id
                  [link_about; link_contact] "text" ["id"]
                  [with_context (make_context "href" (PStr "about")) link_about;
                   with_context (make_context "href" (PStr "contact")) link_contact]
                  0 link_about 0 "id" eq_refl eq_refl eq_refl eq_refl
                  (or_introl eq_refl) eq_refl eq_refl)
               eq_refl eq_refl eq_refl).
Defined.



(** The dicts of the caller, in a group of several records, keep the
    tracker: the call pops it from their copies, which it returns. *)
Lemma tracker_stays_on_the_dicts_of_the_caller :
  Objects.run [one_record; one_record] [0; 1] "text" []
  = Ok ([2; 3], [track 0 one_record; track 1 one_record; one_record; one_record]).
Proof. reflexivity. Qed.


Lemma icons_heap_dicts : dicts icons_heap.
Proof. apply dicts_by_keys. reflexivity. Qed.







(** C5 as stated fails: the next-sibling text of the record is there, the
    empty string, and [sibling_text] is the previous-sibling text; and an
    [href] that is the empty string is derived as [None], the value of a
    record without [href]. *)
Lemma empty_next_sibling_text_gives_the_previous :
  dict_get "next_sibling_text" record_between = Some (PStr "")
  /\ get_nested_value record_between "sibling_text" = PStr "Back"
  /\ get_nested_value record_between "next_sibling_text" = PStr ""
  /\ get_nested_value [("href", PStr "")] "href" = PNone
  /\ get_nested_value [] "href" = PNone.
Proof. repeat split. Qed.

Lemma missing_value_is_no_value_marker_witness :
  nth_error [with_context (make_context "id" (PStr "intro")) para_intro; para_plain] 1
  = Some (plain para_plain).
Proof.
  refine (proj1 (proj2 (proj1
            (proj1 (proj2 (proj2 (proj2 (proj2 (proj2 (proj2 (proj2
               missing_value_is_no_value_marker)))))))
               [para_intro; para_plain] "text_snippet" ["id"]
               [with_context (make_context "id" (PStr "intro")) para_intro; para_plain]
               1 para_plain 0 "id" eq_refl eq_refl eq_refl eq_refl _)
            eq_refl)) eq_refl).
  right. left. reflexivity.
Defined.

(** * Proofs on the extractor *)

(** ** A loop under the budget *)

Lemma geb_ge a b : (a >=? b)%Z = true <-> (a >= b)%Z.
Proof. rewrite Z.geb_le. lia. Qed.

Lemma geb_lt a b : (a >=? b)%Z = false <-> (a < b)%Z.
Proof.
  destruct (a >=? b)%Z eqn:E.
  - apply geb_ge in E. split; [discriminate | lia].
  - split; auto. intros _. destruct (Z_lt_ge_dec a b) as [H | H]; auto.
    apply geb_ge in H. congruence.
Qed.

Lemma category_loop_frozen body max cands i acc n :
  (n >= max)%Z -> category_loop body max cands i acc n = (acc, i, n).
Proof.
  intros H. destruct cands; simpl; auto.
  now rewrite (proj2 (geb_ge n max) H).
Qed.

Lemma category_loop_extends body max : forall cands i acc n,
  exists ext,
    fst (fst (category_loop body max cands i acc n)) = acc ++ ext
    /\ snd (category_loop body max cands i acc n) = (n + Z.of_nat (length ext))%Z
    /\ (ext = [] \/ (snd (category_loop body max cands i acc n) <= max)%Z).
Proof.
  induction cands as [| c rest IH]; intros i acc n; simpl.
  - exists []. rewrite app_nil_r, Z.add_0_r. auto.
  - destruct (n >=? max)%Z eqn:E.
    + exists []. simpl. rewrite app_nil_r, Z.add_0_r. auto.
    + apply geb_lt in E. destruct (body c i) as [r |]; [| apply IH].
      destruct (IH (S i) (acc ++ [r]) (n + 1)%Z) as [ext [H1 [H2 H3]]].
      exists (r :: ext). rewrite H1, H2, <- app_assoc. simpl length.
      repeat split; auto; [lia |].
      right. destruct H3 as [-> | H3]; simpl; lia.
Qed.

Lemma category_loop_mono body N M : (N <= M)%Z -> forall cands i acc n,
  category_loop body N cands i acc n = category_loop body M cands i acc n
  \/ ((snd (category_loop body N cands i acc n) >= N)%Z
      /\ exists ext,
           fst (fst (category_loop body M cands i acc n))
           = fst (fst (category_loop body N cands i acc n)) ++ ext).
Proof.
  intros Hle. induction cands as [| c rest IH]; intros i acc n.
  - now left.
  - destruct (Z_lt_ge_dec n N) as [Hlt | Hge].
    + simpl. rewrite (proj2 (geb_lt n N) Hlt).
      rewrite (proj2 (geb_lt n M)) by lia.
      destruct (body c i); apply IH.
    + right. rewrite (category_loop_frozen body N (c :: rest) i acc n Hge).
      simpl fst. simpl snd. split; auto.
      destruct (category_loop_extends body M (c :: rest) i acc n) as [ext [H _]].
      eauto.
Qed.

Lemma category_loop_budgeted body cands :
  budgeted3 (fun max => category_loop body max cands).
Proof.
  constructor.
  - intros. now apply category_loop_frozen.
  - intros. apply category_loop_extends.
  - intros. now apply category_loop_mono.
Qed.

(** The check after the increment of the icon loops changes nothing. *)
Lemma icon_loop_is_category_loop body max : forall cands i acc n,
  icon_loop body max cands i acc n = category_loop body max cands i acc n.
Proof.
  induction cands as [| c rest IH]; intros i acc n; simpl; auto.
  destruct (n >=? max)%Z; auto. destruct (body c i) as [r |]; auto.
  destruct (n + 1 >=? max)%Z eqn:E; auto.
  apply geb_ge in E. now rewrite category_loop_frozen.
Qed.

Lemma icon_loop_budgeted body cands :
  budgeted3 (fun max => icon_loop body max cands).
Proof.
  destruct (category_loop_budgeted body cands) as [H1 H2 H3].
  constructor; intros; rewrite ?icon_loop_is_category_loop; auto.
Qed.

(** Two loops in a row, the second going on from the index of the first. *)
Lemma budgeted3_seq F G :
  budgeted3 F -> budgeted3 G ->
  budgeted3 (fun max i acc n =>
               let '(a, j, c) := F max i acc n in G max j a c).
Proof.
  intros [F1 F2 F3] [G1 G2 G3]. constructor.
  - intros max i acc n H. rewrite (F1 max i acc n H). now apply G1.
  - intros max i acc n. destruct (F2 max i acc n) as [e1 [A1 [A2 A3]]].
    destruct (F max i acc n) as [[a j] c]. simpl in A1, A2, A3. subst a.
    destruct (G2 max j (acc ++ e1) c) as [e2 [B1 [B2 B3]]].
    exists (e1 ++ e2). rewrite B1, B2, A2, <- app_assoc, length_app.
    repeat split; auto; [lia |].
    destruct B3 as [-> | B3].
    + rewrite app_nil_r. simpl. destruct A3 as [-> | A3]; auto. right. lia.
    + right. lia.
  - intros N M i acc n Hle. destruct (F3 N M i acc n Hle) as [E | [D1 [ext D2]]].
    + rewrite E. destruct (F M i acc n) as [[a j] c]. now apply G3.
    + right. destruct (G2 M (snd (fst (F M i acc n))) (fst (fst (F M i acc n)))
                         (snd (F M i acc n))) as [e2 [B1 _]].
      destruct (F N i acc n) as [[a j] c]. simpl in D1, D2.
      rewrite (G1 N j a c D1). simpl fst. simpl snd. split; auto.
      destruct (F M i acc n) as [[a' j'] c']. simpl in *.
      exists (ext ++ e2). rewrite B1, D2. now rewrite app_assoc.
Qed.

Lemma budgeted3_drop F i :
  budgeted3 F -> budgeted (fun max acc n => drop_index (F max i acc n)).
Proof.
  intros [F1 F2 F3]. constructor; unfold drop_index.
  - intros max acc n H. now rewrite (F1 max i acc n H).
  - intros max acc n. apply F2.
  - intros N M acc n Hle. destruct (F3 N M i acc n Hle) as [E | D]; auto.
    left. now rewrite E.
Qed.

Lemma semantic_loop_frozen soup max tags acc n :
  (n >= max)%Z -> semantic_loop soup max tags acc n = (acc, n).
Proof.
  intros H. destruct tags; simpl; auto.
  now rewrite (proj2 (geb_ge n max) H).
Qed.

Lemma semantic_loop_extends soup max : forall tags acc n,
  exists ext,
    fst (semantic_loop soup max tags acc n) = acc ++ ext
    /\ snd (semantic_loop soup max tags acc n) = (n + Z.of_nat (length ext))%Z
    /\ (ext = [] \/ (snd (semantic_loop soup max tags acc n) <= max)%Z).
Proof.
  induction tags as [| t rest IH]; intros acc n; simpl.
  - exists []. rewrite app_nil_r, Z.add_0_r. auto.
  - destruct (n >=? max)%Z eqn:E.
    + exists []. simpl. rewrite app_nil_r, Z.add_0_r. auto.
    + apply geb_lt in E. destruct (find_all [t] soup) as [| f found]; [apply IH |].
      match goal with
      | |- context [semantic_loop soup max rest (acc ++ [?r]) _] =>
          destruct (IH (acc ++ [r]) (n + 1)%Z) as [ext [H1 [H2 H3]]];
          exists (r :: ext)
      end.
      rewrite H1, H2, <- app_assoc. simpl length.
      repeat split; auto; [lia |].
      right. destruct H3 as [-> | H3]; simpl; lia.
Qed.

Lemma semantic_loop_budgeted soup tags :
  budgeted (fun max => semantic_loop soup max tags).
Proof.
  constructor.
  - intros. now apply semantic_loop_frozen.
  - intros. apply semantic_loop_extends.
  - intros N M acc n Hle. revert acc n.
    induction tags as [| t rest IH]; intros acc n; [now left |].
    destruct (Z_lt_ge_dec n N) as [Hlt | Hge].
    + simpl. rewrite (proj2 (geb_lt n N) Hlt).
      rewrite (proj2 (geb_lt n M)) by lia.
      destruct (find_all [t] soup); apply IH.
    + right. rewrite (semantic_loop_frozen soup N (t :: rest) acc n Hge).
      simpl fst. simpl snd. split; auto.
      destruct (semantic_loop_extends soup M (t :: rest) acc n) as [ext [H _]].
      eauto.
Qed.

(** ** The [elements] dict *)

Lemma set_category_keys key l e : map fst (set_category key l e) = map fst e.
Proof.
  induction e as [| [k l'] e IH]; simpl; auto.
  destruct (k =? key); simpl; auto. now rewrite IH.
Qed.

Lemma set_category_id key e : set_category key (category_list key e) e = e.
Proof.
  induction e as [| [k l'] e IH]; simpl; auto.
  destruct (k =? key); auto. now rewrite IH.
Qed.

Lemma category_list_set_same key l e :
  In key (map fst e) -> category_list key (set_category key l e) = l.
Proof.
  induction e as [| [k l'] e IH]; simpl; [tauto |].
  intros H. destruct (k =? key) eqn:E; simpl; rewrite E; auto.
  apply IH. destruct H as [H | H]; auto. subst.
  rewrite String.eqb_refl in E. discriminate.
Qed.

Lemma category_list_set_other key k l e :
  k <> key -> category_list k (set_category key l e) = category_list k e.
Proof.
  intros Hne. induction e as [| [k0 l'] e IH]; simpl; auto.
  destruct (k0 =? key) eqn:E; simpl.
  - apply String.eqb_eq in E. subst k0.
    destruct (key =? k) eqn:E'; auto. apply String.eqb_eq in E'. congruence.
  - now rewrite IH.
Qed.

Lemma total_records_set key l e :
  In key (map fst e) ->
  total_records (set_category key l e)
  = (total_records e - Z.of_nat (length (category_list key e)) + Z.of_nat (length l))%Z.
Proof.
  induction e as [| [k l'] e IH]; simpl; [tauto |].
  intros H. destruct (k =? key) eqn:E; simpl; [lia |].
  rewrite IH; [lia |]. destruct H as [H | H]; auto. subst.
  rewrite String.eqb_refl in E. discriminate.
Qed.

Lemma record_count_cleanup e : record_count (PDict (cleanup e)) = total_records e.
Proof.
  unfold record_count. induction e as [| [k l] e IH]; simpl; auto.
  destruct l; simpl; rewrite IH; auto.
Qed.

Lemma dict_get_cleanup_absent key e :
  ~ In key (map fst e) -> dict_get key (cleanup e) = None.
Proof.
  induction e as [| [k l] e IH]; simpl; auto.
  intros H. destruct l; [apply IH; tauto |]. simpl.
  destruct (k =? key) eqn:E; [| apply IH; tauto].
  apply String.eqb_eq in E. tauto.
Qed.

Lemma category_cleanup key e :
  NoDup (map fst e) -> category key (PDict (cleanup e)) = category_list key e.
Proof.
  unfold category. induction e as [| [k l] e IH]; simpl; auto.
  intros Hnd. inversion Hnd as [| ? ? Hnot Hnd']; subst.
  destruct (k =? key) eqn:E.
  - apply String.eqb_eq in E. subst k. destruct l; simpl.
    + now rewrite dict_get_cleanup_absent.
    + now rewrite String.eqb_refl.
  - destruct l; simpl; rewrite ?E; auto.
Qed.

(** ** The run of the loops *)

Lemma run_category_frozen key f max st :
  budgeted f -> (snd st >= max)%Z -> run_category key (f max) st = st.
Proof.
  intros Hf H. unfold run_category. rewrite (frozen Hf _ _ _ H).
  rewrite set_category_id. now destruct st.
Qed.

Lemma run_stages_frozen max : forall stages st,
  all_budgeted stages -> (snd st >= max)%Z -> run_stages max stages st = st.
Proof.
  induction stages as [| [key f] rest IH]; intros st Hb H; simpl; auto.
  inversion Hb; subst. rewrite run_category_frozen; auto.
Qed.

Lemma run_with_returns_is_run max : forall stages st,
  all_budgeted stages ->
  run_with_returns max stages st = fst (run_stages max stages st).
Proof.
  induction stages as [| [key f] rest IH]; intros st Hb; simpl; auto.
  inversion Hb; subst.
  destruct (snd (run_category key (f max) st) >=? max)%Z eqn:E; auto.
  apply geb_ge in E. now rewrite run_stages_frozen.
Qed.

Lemma stages_budgeted rules soup base : all_budgeted (stages_of rules soup base).
Proof.
  unfold all_budgeted, stages_of.
  repeat (apply Forall_cons; [cbn [snd] |]); try apply Forall_nil;
    try (apply (budgeted3_drop (fun max => category_loop _ max _) 0);
         apply category_loop_budgeted).
  - apply (budgeted3_drop
             (fun max i acc n =>
                let '(a, j, c) := icon_loop (icon_body rules) max
                                    (find_all ["i"; "span"] soup) i acc n in
                icon_loop (svg_body rules) max (find_all ["svg"] soup) j a c) 0).
    apply budgeted3_seq; apply icon_loop_budgeted.
  - apply semantic_loop_budgeted.
Qed.

Lemma run_stages_first max key f rest st :
  all_budgeted rest ->
  fst (run_stages max ((key, f) :: rest) st)
  = run_with_returns max rest (run_category key (f max) st).
Proof.
  intros Hb. simpl. now rewrite run_with_returns_is_run.
Qed.

(** The extractor is the run of its loops. *)
Lemma parse_is_run rules html base max :
  prefix fetch_error_prefix html = false ->
  parse_html_for_elements rules html base max
  = PDict (cleanup (fst (run_stages max
                           (stages_of rules (make_soup rules html) base)
                           (initial_elements, 0%Z)))).
Proof.
  intros H. unfold parse_html_for_elements. rewrite H. cbv zeta.
  pose proof (stages_budgeted rules (make_soup rules html) base) as Hb.
  unfold stages_of in *.
  rewrite run_stages_first by (inversion Hb; assumption).
  cbn [run_with_returns].
  repeat match goal with
         | |- context [if (?a >=? ?b)%Z then _ else _] => destruct (a >=? b)%Z
         end; reflexivity.
Qed.

Lemma category_list_set key k l e :
  category_list k (set_category key l e) = category_list k e
  \/ (k = key /\ category_list k (set_category key l e) = l).
Proof.
  induction e as [| [k0 l'] e IH]; simpl; auto.
  destruct (k0 =? key) eqn:E; simpl.
  - apply String.eqb_eq in E. subst k0. destruct (key =? k) eqn:E'; auto.
    apply String.eqb_eq in E'. auto.
  - destruct (k0 =? k); auto.
Qed.

Lemma set_category_prefix key l1 l2 e k :
  (exists ext, l2 = l1 ++ ext) ->
  exists ext,
    category_list k (set_category key l2 e)
    = category_list k (set_category key l1 e) ++ ext.
Proof.
  intros [ext Hext]. induction e as [| [k0 l'] e IH]; simpl.
  - exists []. reflexivity.
  - destruct (k0 =? key) eqn:E; simpl.
    + destruct (k0 =? k); [eauto |]. exists []. now rewrite app_nil_r.
    + destruct (k0 =? k); auto. exists []. now rewrite app_nil_r.
Qed.

Lemma run_category_lists key f max st k :
  budgeted f ->
  exists ext,
    category_list k (fst (run_category key (f max) st))
    = category_list k (fst st) ++ ext.
Proof.
  intros Hf. unfold run_category.
  destruct (extends Hf max (category_list key (fst st)) (snd st)) as [ext [H1 _]].
  destruct (f max (category_list key (fst st)) (snd st)) as [acc n]. simpl in *.
  destruct (category_list_set key k acc (fst st)) as [-> | [-> ->]].
  - exists []. now rewrite app_nil_r.
  - eauto.
Qed.

Lemma run_category_other key f st k :
  k <> key -> category_list k (fst (run_category key f st)) = category_list k (fst st).
Proof.
  intros Hne. unfold run_category.
  destruct (f (category_list key (fst st)) (snd st)) as [acc n]. simpl.
  now apply category_list_set_other.
Qed.

Lemma run_stages_other max k : forall stages st,
  ~ In k (map fst stages) ->
  category_list k (fst (run_stages max stages st)) = category_list k (fst st).
Proof.
  induction stages as [| [key f] rest IH]; intros st H; simpl in *; auto.
  rewrite IH by tauto. apply run_category_other. intros ->. tauto.
Qed.

Lemma run_stages_lists max k : forall stages st,
  all_budgeted stages ->
  exists ext,
    category_list k (fst (run_stages max stages st)) = category_list k (fst st) ++ ext.
Proof.
  induction stages as [| [key f] rest IH]; intros st Hb; simpl.
  - exists []. now rewrite app_nil_r.
  - inversion Hb as [| ? ? Hf Hb']; subst. simpl in Hf.
    destruct (IH (run_category key (f max) st) Hb') as [e2 H2].
    destruct (run_category_lists key f max st k Hf) as [e1 H1].
    exists (e1 ++ e2). now rewrite H2, H1, app_assoc.
Qed.

(** The counter is the number of records, and it stays within the budget. *)
Lemma run_stages_count max : forall stages st,
  all_budgeted stages ->
  (forall p, In p stages -> In (fst p) (map fst (fst st))) ->
  snd st = total_records (fst st) ->
  (snd st <= max)%Z ->
  snd (run_stages max stages st) = total_records (fst (run_stages max stages st))
  /\ (snd (run_stages max stages st) <= max)%Z
  /\ map fst (fst (run_stages max stages st)) = map fst (fst st).
Proof.
  induction stages as [| [key f] rest IH]; intros st Hb Hk Hn Hle; simpl; auto.
  inversion Hb as [| ? ? Hf Hb']; subst. simpl in Hf.
  assert (Hkey : In key (map fst (fst st))) by (apply (Hk (key, f)); now left).
  destruct (extends Hf max (category_list key (fst st)) (snd st)) as [ext [H1 [H2 H3]]].
  assert (Hst : fst (run_category key (f max) st)
                = set_category key (fst (f max (category_list key (fst st)) (snd st)))
                    (fst st)
                /\ snd (run_category key (f max) st)
                   = snd (f max (category_list key (fst st)) (snd st))).
  { unfold run_category.
    destruct (f max (category_list key (fst st)) (snd st)) as [a c].
    simpl. split; reflexivity. }
  destruct Hst as [Hs1 Hs2].
  destruct (IH (run_category key (f max) st)) as [I1 [I2 I3]]; auto.
  - intros p Hp. rewrite Hs1, set_category_keys. apply Hk. now right.
  - rewrite Hs1, Hs2, total_records_set, H1, H2, length_app by assumption. lia.
  - rewrite Hs2. destruct H3 as [-> | H3]; auto. rewrite H2. simpl. lia.
  - repeat split; auto. rewrite I3, Hs1. apply set_category_keys.
Qed.

Lemma run_stages_cut_short N M : (N <= M)%Z -> forall stages sN sM,
  all_budgeted stages ->
  cut_short N sN sM ->
  cut_short N (run_stages N stages sN) (run_stages M stages sM).
Proof.
  intros Hle. induction stages as [| [key f] rest IH]; intros sN sM Hb HR; simpl; auto.
  inversion Hb as [| ? ? Hf Hb']; subst. simpl in Hf.
  apply IH; auto. destruct HR as [-> | [Hge Hpre]].
  - destruct (mono Hf N M (category_list key (fst sM)) (snd sM) Hle)
      as [E | [D1 D2]].
    + left. unfold run_category. now rewrite E.
    + right. unfold run_category.
      destruct (f N (category_list key (fst sM)) (snd sM)) as [aN cN].
      destruct (f M (category_list key (fst sM)) (snd sM)) as [aM cM].
      simpl in *. split; auto. intros k. now apply set_category_prefix.
  - right. rewrite (run_category_frozen key f N sN Hf Hge). split; auto.
    intros k. destruct (Hpre k) as [e1 H1].
    destruct (run_category_lists key f M sM k Hf) as [e2 H2].
    exists (e1 ++ e2). now rewrite H2, H1, app_assoc.
Qed.

Lemma initial_keys_nodup : NoDup (map fst initial_elements).
Proof.
  simpl. repeat (constructor; [simpl; intuition discriminate |]). constructor.
Qed.

Lemma stages_keys rules soup base p :
  In p (stages_of rules soup base) -> In (fst p) (map fst initial_elements).
Proof.
  unfold stages_of. simpl.
  intros H; repeat (destruct H as [<- | H]; [simpl; tauto |]); destruct H.
Qed.

(** C7.  For a budget of [N] elements, [0 <= N], the records returned
    across all categories are at most [N]; with a larger budget [M] every
    category starts with the records returned under [N], in the same order;
    the result under [N] is the result under [M] unless [N] records were
    returned; and for a page that was fetched the result has no [error]
    entry, also when the budget was reached. *)
Theorem element_budget_is_respected rules html base N M :
  (0 <= N)%Z -> (N <= M)%Z ->
  (record_count (parse_html_for_elements rules html base N) <= N)%Z
  /\ (forall key, exists rest,
        category key (parse_html_for_elements rules html base M)
        = category key (parse_html_for_elements rules html base N) ++ rest)
  /\ (parse_html_for_elements rules html base N
      = parse_html_for_elements rules html base M
      \/ record_count (parse_html_for_elements rules html base N) = N)
  /\ (prefix fetch_error_prefix html = false ->
      forall d, parse_html_for_elements rules html base N = PDict d ->
        dict_get "error" d = None).
Proof.
  intros H0 Hle.
  destruct (prefix fetch_error_prefix html) eqn:Hp.
  { unfold parse_html_for_elements. rewrite Hp. simpl. repeat split; auto.
    - intros key. exists []. now rewrite app_nil_r.
    - discriminate. }
  rewrite !parse_is_run by assumption.
  set (soup := make_soup rules html).
  pose proof (stages_budgeted rules soup base) as Hb.
  destruct (run_stages_count N (stages_of rules soup base) (initial_elements, 0%Z) Hb)
    as [C1 [C2 C3]]; auto.
  { intros p Hin. now apply stages_keys in Hin. }
  destruct (run_stages_count M (stages_of rules soup base) (initial_elements, 0%Z) Hb)
    as [_ [_ C3']]; auto; try (simpl; lia).
  { intros p Hin. now apply stages_keys in Hin. }
  pose proof (run_stages_cut_short N M Hle (stages_of rules soup base)
                (initial_elements, 0%Z) (initial_elements, 0%Z) Hb
                (or_introl eq_refl)) as HR.
  rewrite !record_count_cleanup, <- C1.
  split; [assumption |]. split; [| split].
  - intros key.
    rewrite !category_cleanup by (rewrite ?C3, ?C3'; apply initial_keys_nodup).
    destruct HR as [-> | [_ HR]]; [| apply HR].
    exists []. now rewrite app_nil_r.
  - destruct HR as [-> | [HR _]]; [now left | right; lia].
  - intros _ d Hd.
    assert (Hg : forall e, PDict (cleanup e) = PDict d ->
                   ~ In "error" (map fst e) -> dict_get "error" d = None).
    { intros e He Hn. injection He as <-. now apply dict_get_cleanup_absent. }
    apply (Hg _ Hd). rewrite C3. simpl. intuition discriminate.
Qed.

(** C8.  An input that starts with the fetch-failure prefix is answered by
    the dict with the single key [error] bound to the input; no category key
    is present. *)
Theorem fetch_error_short_circuits rules html base N :
  prefix fetch_error_prefix html = true ->
  parse_html_for_elements rules html base N = PDict [("error", PStr html)]
  /\ forall key, category key (parse_html_for_elements rules html base N) = [].
Proof.
  intros H. unfold parse_html_for_elements. rewrite H. split; auto.
  intros key. unfold category, dict_get.
  destruct ("error" =? key); reflexivity.
Qed.

(** ** Headings *)

Lemma ancestors_loop_rest : forall chain ctx,
  forallb (fun n => negb (tag_name n =? "")) chain = true ->
  ancestors_loop false chain ctx
  = {| ctx_parent := ctx_parent ctx;
       ctx_ancestors := ctx_ancestors ctx ++ map parent_info chain;
       ctx_interactive :=
         ctx_interactive ctx ++ map parent_info (filter is_interactive chain) |}.
Proof.
  induction chain as [| c chain IH]; intros ctx H; simpl.
  - rewrite !app_nil_r. now destruct ctx.
  - simpl in H. apply andb_true_iff in H. destruct H as [Hc H].
    apply negb_true_iff in Hc. rewrite Hc.
    destruct (is_interactive c); rewrite IH by assumption; simpl;
      now rewrite <- ?app_assoc.
Qed.

Lemma ancestors_loop_first chain :
  forallb (fun n => negb (tag_name n =? "")) chain = true ->
  ancestors_loop true chain
    {| ctx_parent := PNone; ctx_ancestors := []; ctx_interactive := [] |}
  = {| ctx_parent := match chain with p :: _ => parent_info p | [] => PNone end;
       ctx_ancestors := map parent_info (tl chain);
       ctx_interactive := map parent_info (filter is_interactive chain) |}.
Proof.
  destruct chain as [| c chain]; intros H; simpl; auto.
  simpl in H. apply andb_true_iff in H. destruct H as [Hc H].
  apply negb_true_iff in Hc. rewrite Hc.
  destruct (is_interactive c); now rewrite ancestors_loop_rest.
Qed.

Lemma siblings_loop_spec : forall l acc,
  forallb named l = true ->
  siblings_loop l acc
  = acc ++ map sibling_info (firstn (3 - length acc) (filter is_tag l)).
Proof.
  induction l as [| s l IH]; intros acc H.
  - cbn [siblings_loop filter]. rewrite firstn_nil. cbn [map].
    now rewrite app_nil_r.
  - cbn [forallb] in H. apply andb_true_iff in H. destruct H as [Hs H].
    destruct s as [shown str | name attrs contents];
      cbn [siblings_loop filter is_tag]; [now apply IH |].
    unfold named in Hs. cbn [is_tag negb orb tag_name] in Hs.
    cbn [tag_name]. rewrite Hs.
    destruct (length acc <? 3)%nat eqn:E.
    + apply Nat.ltb_lt in E. rewrite IH by assumption.
      rewrite length_app. cbn [length].
      replace (3 - length acc) with (S (3 - (length acc + 1))) by lia.
      cbn [firstn map]. now rewrite <- app_assoc.
    + apply Nat.ltb_ge in E. replace (3 - length acc) with 0 by lia.
      cbn [firstn map]. now rewrite app_nil_r.
Qed.

Lemma heading_body_spec h i :
  context_named h = true ->
  heading_body h i
  = if negb (get_text_strip (here h) =? "") then Some (heading_record h i) else None.
Proof.
  intros H. unfold context_named in H. apply andb_true_iff in H.
  destruct H as [Hp Hs]. rewrite forallb_app in Hs.
  apply andb_true_iff in Hs. destruct Hs as [Hb Ha].
  unfold heading_body, heading_record, dom_context.
  destruct (negb (get_text_strip (here h) =? "")); auto.
  rewrite (ancestors_loop_first _ Hp).
  rewrite (siblings_loop_spec _ [] Hb), (siblings_loop_spec _ [] Ha).
  reflexivity.
Qed.

Lemma emit_all_heading : forall cands i,
  forallb context_named cands = true ->
  emit_all heading_body cands i
  = mapi_from heading_record i
      (filter (fun h => negb (get_text_strip (here h) =? "")) cands).
Proof.
  induction cands as [| c cands IH]; intros i H; simpl; auto.
  simpl in H. apply andb_true_iff in H. destruct H as [Hc H].
  rewrite (heading_body_spec c i Hc).
  destruct (negb (get_text_strip (here c) =? "")); simpl; now rewrite IH.
Qed.

Lemma category_loop_firstn body max : forall cands i acc n,
  fst (fst (category_loop body max cands i acc n))
  = acc ++ firstn (Z.to_nat (max - n)) (emit_all body cands i).
Proof.
  induction cands as [| c rest IH]; intros i acc n; simpl.
  - now rewrite firstn_nil, app_nil_r.
  - destruct (n >=? max)%Z eqn:E.
    + apply geb_ge in E. replace (Z.to_nat (max - n)) with 0 by lia.
      simpl. now rewrite app_nil_r.
    + apply geb_lt in E. destruct (body c i) as [r |]; [| apply IH].
      rewrite IH.
      replace (Z.to_nat (max - n)) with (S (Z.to_nat (max - (n + 1)))) by lia.
      simpl. now rewrite <- app_assoc.
Qed.

Lemma filter_twice {A} (p q : A -> bool) l :
  filter p (filter q l) = filter (fun x => q x && p x) l.
Proof.
  induction l as [| a l IH]; simpl; auto.
  destruct (q a); simpl; [destruct (p a) |]; now rewrite IH.
Qed.

Lemma forallb_filter {A} (p q : A -> bool) l :
  forallb p l = true -> forallb p (filter q l) = true.
Proof.
  induction l as [| a l IH]; simpl; auto.
  intros H. apply andb_true_iff in H. destruct H as [Ha H].
  destruct (q a); simpl; auto. now rewrite Ha, IH.
Qed.

Lemma run_category_same key f st :
  In key (map fst (fst st)) ->
  category_list key (fst (run_category key f st))
  = fst (f (category_list key (fst st)) (snd st)).
Proof.
  intros H. unfold run_category.
  destruct (f (category_list key (fst st)) (snd st)) as [acc n]. simpl.
  now apply category_list_set_same.
Qed.

Lemma run_stages_keys max : forall stages st,
  map fst (fst (run_stages max stages st)) = map fst (fst st).
Proof.
  induction stages as [| [key f] rest IH]; intros st; simpl; auto.
  rewrite IH. unfold run_category.
  destruct (f max (category_list key (fst st)) (snd st)). simpl.
  apply set_category_keys.
Qed.

(** C9 (as amended).  For a document without [h7] elements, the category
    [headings] holds, in document order and up to the element budget, the
    records of the [h1] to [h6] elements whose text is not empty; each
    record has the parent, the rest of the ancestor chain up to the
    document, the 3 nearest element siblings on each side, the child
    elements and the interactive ancestors of its element. *)
Theorem headings_are_the_h1_to_h6_elements rules html base N :
  prefix fetch_error_prefix html = false ->
  well_named (make_soup rules html) = true ->
  without_h7 (make_soup rules html) = true ->
  category "headings" (parse_html_for_elements rules html base N)
  = firstn (Z.to_nat N)
      (mapi_from heading_record 0
         (filter is_heading (descendants (make_soup rules html)))).
Proof.
  intros Hp Hw H7. rewrite parse_is_run by assumption.
  set (soup := make_soup rules html) in *.
  pose proof (run_stages_keys N (stages_of rules soup base) (initial_elements, 0%Z))
    as Hk.
  rewrite category_cleanup by (rewrite Hk; apply initial_keys_nodup).
  unfold stages_of. cbn [run_stages].
  repeat rewrite run_category_other by discriminate.
  rewrite run_category_same by (simpl; tauto).
  unfold drop_index. cbn [fst snd].
  change (category_list "headings" initial_elements) with (@nil pyval).
  rewrite category_loop_firstn. cbn [app]. rewrite Z.sub_0_r. f_equal.
  unfold find_all. rewrite emit_all_heading, filter_twice.
  - f_equal. apply filter_ext_in. intros h Hh. unfold is_heading. f_equal.
    unfold without_h7 in H7. rewrite forallb_forall in H7.
    specialize (H7 h Hh). apply negb_true_iff in H7.
    unfold heading_names, str_in. cbn [existsb]. rewrite H7.
    now rewrite !orb_false_r.
  - apply forallb_filter. exact Hw.
Qed.

(** * The claims on the extractor at concrete documents *)

Lemma element_budget_is_respected_witness :
  (record_count
     (parse_html_for_elements (rules_for two_headings) sample_page sample_base 1)
   <= 1)%Z.
Proof.
  refine (proj1 (element_budget_is_respected (rules_for two_headings)
                   sample_page sample_base 1 5 _ _)); lia.
Defined.

(** A budget is a number of records: under [max_elements = -1] nothing is
    extracted. *)
Lemma negative_budget_returns_no_record :
  parse_html_for_elements (rules_for two_headings) sample_page sample_base (-1)
  = PDict []
  /\ record_count
       (parse_html_for_elements (rules_for two_headings) sample_page sample_base (-1))
     = 0%Z.
Proof. repeat split. Qed.

Lemma fetch_error_short_circuits_witness :
  parse_html_for_elements (rules_for two_headings) "Error fetching URL: timeout"
    sample_base 5000
  = PDict [("error", PStr "Error fetching URL: timeout")].
Proof.
  exact (proj1 (fetch_error_short_circuits (rules_for two_headings)
                  "Error fetching URL: timeout" sample_base 5000 eq_refl)).
Defined.

(** C9 as stated fails: under a budget of 1 the category holds one of the
    two headings of the document; and an [h7] element is taken for a
    heading. *)
Lemma headings_are_cut_and_h7_is_taken :
  length (category "headings"
            (parse_html_for_elements (rules_for two_headings)
               sample_page sample_base 1)) = 1
  /\ length (filter is_heading
               (descendants (make_soup (rules_for two_headings) sample_page))) = 2
  /\ length (category "headings"
               (parse_html_for_elements (rules_for seventh_level)
                  "<h7>Deep</h7>" sample_base 5000)) = 1
  /\ filter is_heading
       (descendants (make_soup (rules_for seventh_level) "<h7>Deep</h7>")) = [].
Proof. repeat split. Qed.

Lemma headings_are_the_h1_to_h6_elements_witness :
  category "headings"
    (parse_html_for_elements (rules_for two_headings) sample_page sample_base 5000)
  = firstn (Z.to_nat 5000)
      (mapi_from heading_record 0
         (filter is_heading
            (descendants (make_soup (rules_for two_headings) sample_page)))).
Proof.
  exact (headings_are_the_h1_to_h6_elements (rules_for two_headings)
           sample_page sample_base 5000 eq_refl eq_refl eq_refl).
Defined.

(** * Further properties of the resolver *)

(** ** The keys that a derivation reads *)

Lemma split_aux_nonempty sep : forall s skip cur, split_aux sep s skip cur <> [].
Proof.
  induction s as [|c s IH]; intros skip cur; cbn [split_aux];
    [intros H; discriminate H|].
  destruct skip; [|apply IH].
  destruct (prefix sep (String c s)); [intros H; discriminate H|apply IH].
Qed.

Lemma get_nested_value_agree d d' key :
  (forall k, reads k key = true -> dict_get k d = dict_get k d') ->
  get_nested_value d key = get_nested_value d' key.
Proof.
  intros H. unfold get_nested_value, get_nested_value_body, dict_get_default.
  unfold reads in H.
  destruct (key =? "sibling_text") eqn:E1.
  { rewrite (H "next_sibling_text"), (H "prev_sibling_text"); auto. }
  destruct (key =? "parent_classes") eqn:E2.
  { rewrite (H "parent"); auto. }
  destruct (key =? "parent_description") eqn:E3.
  { rewrite (H "parent"); auto. }
  destruct (key =? "href") eqn:E4.
  { rewrite (H "href"); auto. }
  simpl in H.
  destruct (py_split "." key) as [|k0 rest] eqn:Es.
  { exfalso. revert Es. apply split_aux_nonempty. }
  simpl in *. rewrite (H k0); auto. apply String.eqb_refl.
Qed.

Lemma get_nested_value_set k v d key :
  reads k key = false ->
  get_nested_value (dict_set k v d) key = get_nested_value d key.
Proof.
  intros H. apply get_nested_value_agree. intros k' Hk'.
  apply dict_get_set_other. intros ->. congruence.
Qed.


Lemma get_nested_value_track i e key :
  reads original_index_key key = false ->
  get_nested_value (track i e) key = get_nested_value e key.
Proof. apply get_nested_value_set. Qed.

(** ** Records with a primary value of their own, and records told apart *)


Lemma two_members {A} (l : list A) a b :
  In a l -> In b l -> a <> b -> (length l =? 1)%nat = false.
Proof.
  destruct l as [| x [| y l]]; simpl; intros Ha Hb Hab; auto.
  destruct Ha as [<- | []], Hb as [<- | []]. congruence.
Qed.

Lemma map_stored_enumerate : forall els s,
  map stored (enumerate_from s els) = map plain els.
Proof.
  induction els as [| e els IH]; intros s; simpl; auto.
  f_equal; [apply dict_remove_set_same | apply IH].
Qed.

Lemma pool_at_earlier hier : forall k k' pool t,
  k <= k' -> In t (pool_at hier k' pool) -> In t (pool_at hier k pool).
Proof.
  induction hier as [| lvl rest IH]; intros k k' pool t Hle Hin.
  - destruct k, k'; simpl in *; auto.
  - destruct k as [| k]; simpl.
    + eapply pool_at_subset; eauto.
    + destruct k' as [| k']; [lia |]. simpl in Hin. apply (IH k k'); [lia | auto].
Qed.



Lemma resolver_identity els pk hier :
  (forall e, In e els -> dict_get original_index_key e = None) ->
  (forall key, In key (pk :: hier) -> reads original_index_key key = false) ->
  (forall e key, In e els -> In key (pk :: hier) -> get_nested_value e key = PNone) ->
  add_uniqueness_context els pk hier = Ok els.
Proof.
  intros Hno Hkeys Hnone.
  assert (Hv : forall t key, In t (enumerate_from 0 els) -> In key (pk :: hier) ->
                 get_nested_value t key = PNone).
  { intros t key Ht Hk. destruct (enumerate_from_in els t Ht) as [i [e [Hi [-> _]]]].
    rewrite get_nested_value_track by auto. apply Hnone; auto.
    eapply nth_error_In; eauto. }
  rewrite add_uniqueness_context_char.
  2:{ left. intros t key Ht Hk. now rewrite Hv. }
  f_equal.
  rewrite (map_ext_in _ stored).
  - rewrite map_stored_enumerate. rewrite (map_ext_in _ (fun e => e)), map_id; auto.
    intros e He. apply plain_untracked. auto.
  - intros t Ht. unfold resolved_record.
    destruct (length _ =? 1)%nat; auto.
    unfold outcome.
    destruct (resolution_level hier _ t) as [k |] eqn:E; auto.
    destruct (resolution_level_some hier _ t k E) as [level [Hk [-> _]]].
    rewrite Hv; auto. right. eapply nth_error_In; eauto.
Qed.

Lemma outcome_context pk hier pool i e c :
  dict_get uniqueness_context_key e = None ->
  dict_get uniqueness_context_key (outcome pk hier pool (track i e)) = Some c ->
  exists k level,
    nth_error hier k = Some level
    /\ alone level (pool_at hier k pool) (track i e) = true
    /\ (In (track i e) pool -> In (track i e) (pool_at hier k pool))
    /\ is_none (get_nested_value (track i e) level) = false
    /\ c = reported_context pk level (track i e).
Proof.
  intros Hno. unfold outcome.
  assert (Hplain : dict_get uniqueness_context_key (plain e) = None).
  { unfold plain. rewrite dict_get_remove_other; auto. discriminate. }
  destruct (resolution_level hier pool (track i e)) as [k |] eqn:E.
  - destruct (resolution_level_some hier _ _ k E) as [level [Hk [-> [Ha [Hin _]]]]].
    rewrite stored_annotate.
    destruct (is_none (get_nested_value (track i e) level)) eqn:En.
    + rewrite Hplain. discriminate.
    + unfold with_context. rewrite dict_get_set_same. intros H. inversion H; subst.
      exists k, level. auto.
  - rewrite stored_track. fold (plain e). rewrite Hplain. discriminate.
Qed.

Lemma subgroup_same_key key pool t u :
  key_eqb (get_nested_value t key) (get_nested_value u key) = true ->
  subgroup key pool t = subgroup key pool u.
Proof.
  intros H. unfold subgroup. apply filter_ext. intros x.
  rewrite (key_eqb_sym _ (get_nested_value t key)),
          (key_eqb_sym _ (get_nested_value u key)).
  now apply key_eqb_cong.
Qed.

(** X3.  Two records of the list that share their primary value and both
    receive a [uniqueness_context] receive different ones, the href special
    case apart (primary key [text] with [id] in the hierarchy).  The
    records carry no [uniqueness_context] when they are given. *)
Theorem contexts_tell_records_apart els pk hier out i j ei ej oi oj ci cj :
  add_uniqueness_context els pk hier = Ok out ->
  nth_error els i = Some ei -> nth_error els j = Some ej -> i <> j ->
  key_eqb (get_nested_value (track i ei) pk) (get_nested_value (track j ej) pk) = true ->
  pk <> "text" \/ ~ In "id" hier ->
  dict_get uniqueness_context_key ei = None ->
  dict_get uniqueness_context_key ej = None ->
  nth_error out i = Some oi -> nth_error out j = Some oj ->
  dict_get uniqueness_context_key oi = Some ci ->
  dict_get uniqueness_context_key oj = Some cj ->
  ci <> cj.
Proof.
  intros Hout Hi Hj Hij Hkey Hhref Hni Hnj Hoi Hoj Hci Hcj.
  destruct (resolver_record els pk hier out i ei Hout Hi) as [_ [Ri [Ini Hhash]]].
  destruct (resolver_record els pk hier out j ej Hout Hj) as [_ [Rj [Inj _]]].
  unfold primary_group in *.
  rewrite <- (subgroup_same_key pk (tracked els) _ _ Hkey) in Inj.
  assert (Hne : track i ei <> track j ej).
  { intros E. apply (f_equal oidx) in E. now rewrite !oidx_track in E. }
  set (G := subgroup pk (tracked els) (track i ei)) in *.
  assert (Hlen : (length G =? 1)%nat = false) by (apply (two_members _ (track i ei) (track j ej)); auto).
  specialize (Hhash Hlen).
  unfold resolved_record in Ri, Rj.
  rewrite <- (subgroup_same_key pk (tracked els) _ _ Hkey) in Rj.
  fold G in Ri, Rj. rewrite Hlen in Ri, Rj.
  rewrite Hoi in Ri. rewrite Hoj in Rj. inversion Ri; subst oi. inversion Rj; subst oj.
  destruct (outcome_context pk hier G i ei ci Hni Hci)
    as [ki [Li [Hki [Hai [Hpi [Hvi ->]]]]]].
  destruct (outcome_context pk hier G j ej cj Hnj Hcj)
    as [kj [Lj [Hkj [Haj [Hpj [Hvj ->]]]]]].
  specialize (Hpi Ini). specialize (Hpj Inj).
  assert (Hnp : forall k L t, nth_error hier k = Some L ->
                  href_preferred pk L t = false).
  { intros k L t Hk. unfold href_preferred.
    destruct (L =? "id") eqn:E1; auto. destruct (pk =? "text") eqn:E2; auto.
    apply String.eqb_eq in E1, E2. subst. exfalso.
    destruct Hhref as [H | H]; [now apply H | apply H].
    eapply nth_error_In; eauto. }
  unfold reported_context, reported_level, reported_value, make_context.
  rewrite (Hnp ki Li), (Hnp kj Lj) by auto.
  intros E. inversion E as [[EL Ev]]. subst Lj.
  assert (Hmeet : forall k k' t u,
            nth_error hier k = Some Li ->
            k <= k' ->
            In t (pool_at hier k G) -> In u (pool_at hier k' G) ->
            alone Li (pool_at hier k G) t = true ->
            get_nested_value u Li = get_nested_value t Li ->
            t <> u -> False).
  { intros k k' t u Hk Hle Ht Hu Ha Hv Htu.
    pose proof (pool_at_earlier hier k k' G u Hle Hu) as Hu'.
    assert (Hh : hashable (get_nested_value t Li) = true) by (eapply Hhash; eauto).
    unfold alone in Ha.
    rewrite (two_members _ t u) in Ha; [discriminate | | | auto].
    - apply subgroup_self; auto.
    - apply filter_In. split; auto. rewrite Hv. now apply key_eqb_refl. }
  destruct (Nat.le_ge_cases ki kj) as [Hle | Hle].
  - apply (Hmeet ki kj (track i ei) (track j ej)); auto.
  - apply (Hmeet kj ki (track j ej) (track i ei)); auto.
Qed.


(** ** When the resolver raises *)

Lemma group_by_key_result key : forall l g,
  (exists g', group_by_key key l g = Ok g')
  \/ (group_by_key key l g = Raise TypeError
      /\ exists t, In t l /\ hashable (get_nested_value t key) = false).
Proof.
  induction l as [| e l IH]; intros g; cbn [group_by_key]; eauto.
  unfold defaultdict_append.
  destruct (hashable (get_nested_value e key)) eqn:E; cbn [bind].
  - destruct (IH (group_append (get_nested_value e key) e g))
      as [H | [H [t [Ht Hh]]]]; auto.
    right. split; auto. exists t. split; auto. now right.
  - right. split; auto. exists e. split; auto. now left.
Qed.

Lemma resolve_levels_result pk : forall hier pool r A,
  (forall t, In t pool -> well_tracked (length A) t) ->
  NoDup (map oidx pool) ->
  (forall t, In t pool -> in_resolved r (oidx t) = false) ->
  (exists x, resolve_levels pk hier pool r A = Ok x)
  \/ (resolve_levels pk hier pool r A = Raise TypeError
      /\ ~ reached_hashable hier pool).
Proof.
  induction hier as [| lvl rest IH]; intros pool r A Hw Hnd Hr.
  - left. simpl. eauto.
  - destruct pool as [| t0 pool0] eqn:Epool.
    { left. simpl. eauto. }
    rewrite <- Epool in *.
    assert (Hcons : resolve_levels pk (lvl :: rest) pool r A
              = (subgroups_at_this_level <- group_by_key lvl pool [] ;;
                 st <- check_subgroups pk lvl subgroups_at_this_level
                         {| elements_still_ambiguous_next := [];
                            resolved_in_this_group := r;
                            processed_elements_data := A |} ;;
                 resolve_levels pk rest (elements_still_ambiguous_next st)
                   (resolved_in_this_group st) (processed_elements_data st))).
    { rewrite Epool. reflexivity. }
    clear Epool t0 pool0.
    destruct (group_by_key_result lvl pool []) as [[gs Hgs] | [Hgs [t [Ht Hh]]]].
    + destruct (level_step pk lvl pool r A gs Hw Hnd Hr Hgs)
        as [st' [S1 [S2 [S3 [S4 [S5 S6]]]]]].
      rewrite Hcons, Hgs. cbn [bind]. rewrite S1. cbn [bind].
      assert (Hsub : forall t, In t (elements_still_ambiguous_next st') -> In t pool).
      { intros t Ht. apply (Permutation_in _ S2) in Ht. apply filter_In in Ht. tauto. }
      destruct (IH (elements_still_ambiguous_next st') (resolved_in_this_group st')
                   (processed_elements_data st')) as [H | [H Hn]]; auto.
      * intros t Ht. rewrite S3. auto.
      * apply (Permutation_NoDup (Permutation_map oidx (Permutation_sym S2))).
        now apply nodup_map_filter.
      * intros t Ht. apply S6. now apply (Permutation_in _ S2).
      * right. split; auto. intros Hreach. apply Hn.
        intros k level t Hk Ht. apply (Hreach (S k) level t Hk). simpl.
        apply (Permutation_in _ (pool_at_perm rest k _ _ S2)). exact Ht.
    + right. rewrite Hcons, Hgs. split; auto. intros Hreach.
      rewrite (Hreach 0 lvl t eq_refl Ht) in Hh. discriminate.
Qed.

Lemma process_group_result pk hier G A :
  (forall t, In t G -> well_tracked (length A) t) ->
  NoDup (map oidx G) ->
  (exists x, process_group pk hier G A = Ok x)
  \/ (process_group pk hier G A = Raise TypeError
      /\ (length G =? 1)%nat = false /\ ~ reached_hashable hier G).
Proof.
  intros Hw Hnd.
  destruct (length G =? 1)%nat eqn:E.
  - left. destruct G as [| t [| b G']]; try discriminate.
    destruct (store_ambiguous_spec [t] A Hw Hnd) as [A' [H1 _]].
    exists A'. unfold process_group. cbn [store_ambiguous] in H1.
    destruct (dict_pop t original_index_key) as [[v d] |]; [| discriminate].
    cbn [bind] in *. destruct (list_setitem A v (Some d)); [| discriminate].
    exact H1.
  - assert (Hmulti : process_group pk hier G A
      = ('(amb, A1) <- resolve_levels pk hier G [] A ;; store_ambiguous amb A1)).
    { destruct G as [| a [| b G']]; auto. discriminate. }
    destruct (resolve_levels_result pk hier G [] A Hw Hnd) as [Hx | [Hx Hn]]; auto.
    + left.
      destruct (resolve_levels_spec pk hier G [] A Hw Hnd)
        as [amb [A1 [A2 [R1 [R2 _]]]]]; auto.
      exists A2. rewrite Hmulti, R1. exact R2.
    + right. rewrite Hmulti, Hx. auto.
Qed.

Lemma process_groups_result pk hier : forall gs A,
  (forall t, In t (elems gs) -> well_tracked (length A) t) ->
  NoDup (map oidx (elems gs)) ->
  (exists x, process_groups pk hier gs A = Ok x)
  \/ (process_groups pk hier gs A = Raise TypeError
      /\ exists k G, In (k, G) gs /\ (length G =? 1)%nat = false
           /\ ~ reached_hashable hier G).
Proof.
  induction gs as [| [k G] gs IH]; intros A Hw Hnd.
  - left. simpl. eauto.
  - assert (HG : forall t, In t G -> In t (elems ((k, G) :: gs))).
    { intros t Ht. unfold elems. simpl. apply in_or_app. now left. }
    assert (Hrest : forall t, In t (elems gs) -> In t (elems ((k, G) :: gs))).
    { intros t Ht. unfold elems. simpl. apply in_or_app. now right. }
    unfold elems in Hnd. cbn [map concat snd] in Hnd. rewrite map_app in Hnd.
    fold (elems gs) in Hnd.
    assert (HndG : NoDup (map oidx G)) by now apply NoDup_app_remove_r in Hnd.
    cbn [process_groups].
    destruct (process_group_result pk hier G A) as [Hx | [Hx [Hl Hn]]]; auto.
    + destruct (process_group_spec pk hier G A) as [A1 [P1 [P2 _]]]; auto.
      rewrite P1. cbn [bind].
      destruct (IH A1) as [Hy | [Hy [k' [G' [Hin [Hl Hn]]]]]]; auto.
      * intros t Ht. rewrite P2. auto.
      * now apply NoDup_app_remove_l in Hnd.
      * right. split; auto. exists k', G'. split; auto. now right.
    + right. rewrite Hx. split; auto. exists k, G. split; auto. now left.
Qed.

Lemma add_uniqueness_context_result els pk hier :
  (exists out, add_uniqueness_context els pk hier = Ok out)
  \/ (add_uniqueness_context els pk hier = Raise TypeError
      /\ ~ computed_hashable els pk hier).
Proof.
  unfold add_uniqueness_context, computed_hashable, tracked.
  set (T := enumerate_from 0 els).
  destruct (group_by_key_result pk T []) as [[gs Hgs] | [Hgs [t [Ht Hh]]]].
  - rewrite Hgs. cbn [bind].
    destruct (group_by_key_grouped _ _ _ Hgs) as [Hg _].
    pose proof (grouped_perm Hg) as Hp.
    destruct (process_groups_result pk hier gs (repeat None (length els)))
      as [[x Hx] | [Hx [k [G [Hin [Hl Hn]]]]]].
    + intros t Ht. rewrite repeat_length.
      apply (Permutation_in _ Hp) in Ht.
      destruct (enumerate_from_in els t Ht) as [i [e [_ [-> Hi]]]].
      now apply well_tracked_track.
    + apply (Permutation_NoDup (Permutation_map oidx (Permutation_sym Hp))).
      unfold T. rewrite enumerate_from_oidx. apply seq_NoDup.
    + left. rewrite Hx. cbn [bind]. eauto.
    + right. rewrite Hx. split; auto. intros [_ Hc]. apply Hn.
      destruct (grouped_head Hg _ _ Hin) as [t [rest [-> _]]].
      rewrite (grouped_subgroup pk T gs k (t :: rest) t Hg Hin (or_introl eq_refl)) in *.
      apply Hc; auto.
      pose proof (grouped_members Hg _ _ Hin) as Hm.
      assert (In t (t :: rest)) as Hx' by now left.
      rewrite (grouped_subgroup pk T gs k (t :: rest) t Hg Hin (or_introl eq_refl)) in Hx'.
      apply filter_In in Hx'. tauto.
  - right. rewrite Hgs. split; auto. intros [Hc _].
    rewrite (Hc t Ht) in Hh. discriminate.
Qed.


(** ** Resolving twice *)

Lemma dict_set_twice k v d : dict_set k v (dict_set k v d) = dict_set k v d.
Proof.
  induction d as [| [k' v'] d IH]; simpl.
  - now rewrite String.eqb_refl.
  - destruct (k' =? k) eqn:E; simpl; rewrite E; [reflexivity | now rewrite IH].
Qed.

Lemma filter_map_comm {A B} (f : A -> B) (p : B -> bool) l :
  filter p (map f l) = map f (filter (fun x => p (f x)) l).
Proof.
  induction l as [| a l IH]; simpl; auto.
  destruct (p (f a)); simpl; now rewrite IH.
Qed.

(** A change of the records that keeps the derived values at [keys]. *)
Section Renaming.

Variable keys : list string.

Variable F : pydict -> pydict.

Hypothesis HF : forall u key, In key keys ->
  get_nested_value (F u) key = get_nested_value u key.

Lemma subgroup_map key pool t :
  In key keys -> subgroup key (map F pool) (F t) = map F (subgroup key pool t).
Proof.
  intros Hk. unfold subgroup. rewrite filter_map_comm. f_equal.
  apply filter_ext. intros u. now rewrite !HF.
Qed.

Lemma alone_map key pool t :
  In key keys -> alone key (map F pool) (F t) = alone key pool t.
Proof.
  intros Hk. unfold alone. now rewrite subgroup_map, length_map.
Qed.

Lemma still_ambiguous_map key pool :
  In key keys -> still_ambiguous key (map F pool) = map F (still_ambiguous key pool).
Proof.
  intros Hk. unfold still_ambiguous. rewrite filter_map_comm. f_equal.
  apply filter_ext. intros u. now rewrite alone_map.
Qed.

Lemma pool_at_map hier : incl hier keys -> forall k pool,
  pool_at hier k (map F pool) = map F (pool_at hier k pool).
Proof.
  induction hier as [| lvl rest IH]; intros Hi [| k] pool; simpl; auto.
  rewrite still_ambiguous_map by (apply Hi; now left).
  apply IH. intros x Hx. apply Hi. now right.
Qed.

Lemma resolution_level_map hier : incl hier keys -> forall pool t,
  resolution_level hier (map F pool) (F t) = resolution_level hier pool t.
Proof.
  induction hier as [| lvl rest IH]; intros Hi pool t; simpl; auto.
  rewrite alone_map by (apply Hi; now left).
  destruct (alone lvl pool t); auto.
  rewrite still_ambiguous_map by (apply Hi; now left).
  rewrite IH; auto. intros x Hx. apply Hi. now right.
Qed.

Lemma reached_hashable_map hier pool :
  incl hier keys -> reached_hashable hier pool -> reached_hashable hier (map F pool).
Proof.
  intros Hi H k level t Hk Ht. rewrite pool_at_map in Ht by assumption.
  apply in_map_iff in Ht. destruct Ht as [u [<- Hu]].
  rewrite HF; [eapply H; eauto |]. apply Hi. eapply nth_error_In; eauto.
Qed.

End Renaming.

(** The output record of the resolver has the fields of the input record,
    the tracker and the context apart. *)
Lemma stored_annotate_fields pk level v t k :
  k <> original_index_key -> k <> uniqueness_context_key ->
  dict_get k (stored (annotate pk level v t)) = dict_get k t.
Proof.
  intros H1 H2. unfold stored. rewrite dict_get_remove_other by auto.
  unfold annotate. destruct (negb (is_none v)); auto.
  destruct ((level =? "id") && (pk =? "text")); [destruct (truthy _) |];
    apply dict_get_set_other; auto.
Qed.

Lemma resolved_record_fields pk hier T t k :
  k <> original_index_key -> k <> uniqueness_context_key ->
  dict_get k (resolved_record pk hier T t) = dict_get k t.
Proof.
  intros H1 H2. unfold resolved_record, outcome.
  destruct (length _ =? 1)%nat.
  - unfold stored. apply dict_get_remove_other; auto.
  - destruct (resolution_level _ _ _).
    + now apply stored_annotate_fields.
    + unfold stored. apply dict_get_remove_other; auto.
Qed.

Lemma reads_href k : reads k "href" = (k =? "href").
Proof. reflexivity. Qed.

(** X6.  Resolving twice changes nothing: on records without the key
    [_original_index], and for keys that read neither this key nor
    [uniqueness_context], the output of a call is returned as it is by the
    same call. *)
Theorem add_uniqueness_context_is_idempotent els pk hier out :
  (forall e, In e els -> dict_get original_index_key e = None) ->
  (forall key, In key (pk :: hier) ->
     reads original_index_key key = false
     /\ reads uniqueness_context_key key = false) ->
  add_uniqueness_context els pk hier = Ok out ->
  add_uniqueness_context out pk hier = Ok out.
Proof.
  intros Hno Hkeys Hout.
  destruct (add_uniqueness_context_inv els pk hier (or_intror (ex_intro _ out Hout)))
    as [H1 [H2 H3]].
  set (T := enumerate_from 0 els) in *.
  set (R := resolved_record pk hier T) in *.
  rewrite Hout in H1. inversion H1 as [Eout]. clear H1.
  set (F := fun t => track (oidx t) (R t)).
  assert (HF : forall u key, In key ("href" :: pk :: hier) ->
                 get_nested_value (F u) key = get_nested_value u key).
  { intros u key Hk. apply get_nested_value_agree. intros k Hr.
    assert (Hk1 : k <> original_index_key /\ k <> uniqueness_context_key).
    { destruct Hk as [<- | Hk].
      - rewrite reads_href in Hr. apply String.eqb_eq in Hr. subst k.
        split; discriminate.
      - destruct (Hkeys key Hk) as [Ha Hb]. split; intros ->; congruence. }
    destruct Hk1 as [Ha Hb]. unfold F, track.
    rewrite dict_get_set_other by auto.
    unfold R. now apply resolved_record_fields. }
  assert (HT' : enumerate_from 0 (map R T) = map F T).
  { apply nth_error_ext. intros n.
    rewrite enumerate_from_nth, !nth_error_map. unfold T.
    rewrite enumerate_from_nth. simpl.
    destruct (nth_error els n) as [e |]; simpl; auto.
    unfold F. now rewrite oidx_track. }
  assert (Hi : incl (pk :: hier) ("href" :: pk :: hier)) by (intros x Hx; now right).
  assert (Hih : incl hier ("href" :: pk :: hier)) by (intros x Hx; now do 2 right).
  assert (Hpk : In pk ("href" :: pk :: hier)) by (right; now left).
  assert (Hsg : forall t, subgroup pk (map F T) (F t) = map F (subgroup pk T t)).
  { intros t. now apply (subgroup_map ("href" :: pk :: hier)). }
  assert (Hret : exists out', add_uniqueness_context (map R T) pk hier = Ok out').
  { destruct (add_uniqueness_context_result (map R T) pk hier) as [Hok | [_ Hn]];
      [exact Hok |].
    exfalso. apply Hn.
    unfold computed_hashable, tracked. rewrite HT'. split.
    - intros t' Ht'. apply in_map_iff in Ht'. destruct Ht' as [u [<- Hu]].
      rewrite HF by auto. now apply H2.
    - intros t' Ht'. apply in_map_iff in Ht'. destruct Ht' as [u [<- Hu]].
      rewrite Hsg, length_map. intros Hl.
      apply (reached_hashable_map ("href" :: pk :: hier)); auto. }
  rewrite (add_uniqueness_context_char (map R T) pk hier (or_intror Hret)).
  rewrite HT', map_map. f_equal. apply map_ext_in. intros t0 Ht.
  destruct (enumerate_from_in els t0 Ht) as [i [e [He [-> _]]]].
  assert (Hne : dict_get original_index_key e = None).
  { apply Hno. eapply nth_error_In; eauto. }
  assert (Hpl : plain e = e) by now apply plain_untracked.
  set (t := track i e).
  set (G := subgroup pk T t).
  assert (HR : R t = if (length G =? 1)%nat then stored t
               else match resolution_level hier G t with
                    | Some k =>
                        stored (annotate pk (nth k hier "")
                                  (get_nested_value t (nth k hier "")) t)
                    | None => stored t
                    end) by reflexivity.
  assert (Hstored : stored t = e).
  { unfold t. rewrite stored_track. exact Hpl. }
  assert (Hot : dict_get original_index_key (R t) = None).
  { rewrite HR. destruct (length G =? 1)%nat; [| destruct (resolution_level hier G t)].
    - now rewrite Hstored.
    - unfold t. rewrite stored_annotate. destruct (is_none _).
      + now rewrite Hpl.
      + unfold with_context. rewrite dict_get_set_other by discriminate.
        now rewrite Hpl.
    - now rewrite Hstored. }
  assert (HFt : F t = track i (R t)) by (unfold F, t; now rewrite oidx_track).
  assert (Hst : stored (F t) = R t).
  { rewrite HFt, stored_track. now apply dict_remove_absent. }
  unfold resolved_record at 1. rewrite Hsg, length_map. fold G.
  destruct (length G =? 1)%nat eqn:EL; [exact Hst |].
  unfold outcome. rewrite (resolution_level_map ("href" :: pk :: hier)) by auto.
  destruct (resolution_level hier G t) as [k |] eqn:E; [| exact Hst].
  destruct (resolution_level_some hier _ _ k E) as [level [Hk [HL _]]].
  rewrite HL in *.
  assert (HLin : In level ("href" :: pk :: hier)).
  { do 2 right. eapply nth_error_In; eauto. }
  assert (Hv : get_nested_value (F t) level = get_nested_value t level) by auto.
  assert (Hh : get_nested_value (F t) "href" = get_nested_value t "href").
  { apply HF. now left. }
  assert (Hc : reported_context pk level (F t) = reported_context pk level t).
  { unfold reported_context, reported_level, reported_value, href_preferred.
    now rewrite Hh, Hv. }
  rewrite HFt in Hv, Hc |- *. rewrite (stored_annotate pk level i (R t)), Hv, Hc.
  rewrite HR. unfold t. rewrite !stored_annotate.
  destruct (is_none (get_nested_value (track i e) level)).
  - now rewrite Hpl, Hpl.
  - unfold with_context. rewrite Hpl. unfold plain.
    rewrite dict_remove_set_comm by discriminate.
    fold (plain e). rewrite Hpl. apply dict_set_twice.
Qed.

(** ** The order of the records *)

Section Untracked.

Variable pk : string.

Variable hier : list string.

Hypothesis Hkeys : forall key, In key (pk :: hier) ->
  reads original_index_key key = false.

Let keys := "href" :: pk :: hier.











End Untracked.


(** ** The href-derived value *)

Lemma string_app_assoc (a b c : string) : ((a ++ b) ++ c = a ++ (b ++ c))%string.
Proof. induction a; simpl; congruence. Qed.

Lemma string_app_nil_r (a : string) : (a ++ "" = a)%string.
Proof. induction a; simpl; congruence. Qed.

Lemma split_aux_no_match sep : forall s cur,
  occurs sep s = false -> split_aux sep s 0 cur = [(cur ++ s)%string].
Proof.
  induction s as [| c s IH]; intros cur H.
  - simpl. now rewrite string_app_nil_r.
  - cbn [occurs] in H. apply orb_false_iff in H. destruct H as [Hp Hs].
    cbn [split_aux]. rewrite Hp, (IH _ Hs), string_app_assoc. reflexivity.
Qed.

Lemma split_aux_first_match : forall pre rest cur,
  contains_char char_slash pre = false ->
  split_aux "//" (pre ++ "//" ++ rest) 0 cur
  = (cur ++ pre)%string :: split_aux "//" rest 0 "".
Proof.
  induction pre as [| c pre IH]; intros rest cur H.
  - change (("" ++ "//" ++ rest)%string) with (String "/" (String "/" rest)).
    cbn [split_aux].
    assert (Hp : prefix "//" (String "/" (String "/" rest)) = true)
      by now destruct rest.
    rewrite Hp. cbn [String.length Nat.sub]. now rewrite string_app_nil_r.
  - unfold contains_char in H. cbn [after_first] in H.
    destruct (Ascii.eqb c char_slash) eqn:Ec; [discriminate |].
    change ((String c pre ++ "//" ++ rest)%string)
      with (String c (pre ++ "//" ++ rest)%string).
    cbn [split_aux].
    assert (Hp : prefix "//" (String c (pre ++ "//" ++ rest)) = false).
    { cbn [prefix]. destruct (ascii_dec "/" c) as [<- |]; auto. discriminate. }
    rewrite Hp, IH, string_app_assoc; auto.
Qed.

Lemma after_first_host : forall host path,
  contains_char char_slash host = false ->
  after_first char_slash (host ++ "/" ++ path) = Some path.
Proof.
  induction host as [| c host IH]; intros path H; auto.
  unfold contains_char in H. cbn [after_first] in H. simpl.
  destruct (Ascii.eqb c char_slash); [discriminate | now apply IH].
Qed.

Lemma before_first_clean c : forall s, contains_char c (before_first c s) = false.
Proof.
  induction s as [| a s IH]; auto. simpl.
  destruct (Ascii.eqb a c) eqn:E; auto.
  unfold contains_char in *. simpl. now rewrite E.
Qed.

Lemma occurs_after_host : forall host path,
  contains_char char_slash host = false ->
  occurs "//" ("/" ++ path) = false ->
  occurs "//" (host ++ "/" ++ path) = false.
Proof.
  induction host as [| c host IH]; intros path H Hp; auto.
  unfold contains_char in H. cbn [after_first] in H.
  destruct (Ascii.eqb c char_slash) eqn:Ec; [discriminate |].
  change ((String c host ++ "/" ++ path)%string)
    with (String c (host ++ "/" ++ path)%string).
  cbn [occurs]. rewrite IH; auto.
  cbn [prefix]. destruct (ascii_dec "/" c) as [<- |]; auto. discriminate.
Qed.

Lemma contains_char_app c : forall s t,
  contains_char c s = false -> contains_char c t = false ->
  contains_char c (s ++ t) = false.
Proof.
  induction s as [| a s IH]; intros t Hs Ht; auto.
  unfold contains_char in *. simpl in *.
  destruct (Ascii.eqb a c); [discriminate | now apply IH].
Qed.

(** X8.  The href-derived value of a record whose [href] is
    [scheme://host/path], with no [//] after the host, is the path without
    its trailing slashes, cut at its first [?]; and a href-derived value is
    [None] or a string without [?]. *)
Theorem href_value_is_the_path_of_the_url :
  (forall d scheme host path,
      dict_get "href" d = Some (PStr (scheme ++ "://" ++ host ++ "/" ++ path)) ->
      contains_char char_slash scheme = false ->
      contains_char char_slash host = false ->
      occurs "//" ("/" ++ path) = false ->
      get_nested_value d "href"
      = PStr (before_first char_question (rstrip_char char_slash path)))
  /\ (forall d,
        get_nested_value d "href" = PNone
        \/ exists v, get_nested_value d "href" = PStr v
             /\ contains_char char_question v = false).
Proof.
  split.
  - intros d scheme host path Hd Hs Hh Hp.
    unfold get_nested_value, get_nested_value_body, dict_get_default.
    cbn [String.eqb Ascii.eqb Bool.eqb]. rewrite Hd.
    assert (Ht : truthy (PStr (scheme ++ "://" ++ host ++ "/" ++ path)) = true).
    { destruct scheme; reflexivity. }
    rewrite Ht. unfold py_split.
    change ((scheme ++ "://" ++ host ++ "/" ++ path)%string)
      with ((scheme ++ ":" ++ "//" ++ host ++ "/" ++ path)%string).
    rewrite <- string_app_assoc.
    rewrite split_aux_first_match.
    + rewrite split_aux_no_match.
      * cbn [last]. unfold split1_last.
        change (("" ++ host ++ "/" ++ path)%string)
          with ((host ++ "/" ++ path)%string).
        rewrite after_first_host; auto.
      * now apply occurs_after_host.
    + now apply contains_char_app.
  - intros d. unfold get_nested_value, get_nested_value_body.
    cbn [String.eqb Ascii.eqb Bool.eqb].
    destruct (truthy _); auto.
    destruct (dict_get_default "href" d (PStr "")); auto.
    right. eexists. split; [reflexivity |]. apply before_first_clean.
Qed.

(** * Link types *)

Lemma py_any_total {A} (f : A -> res bool) (p : A -> bool) l :
  (forall x, In x l -> f x = Ok (p x)) -> py_any f l = Ok (existsb p l).
Proof.
  induction l as [| x l IH]; intros H; simpl; auto.
  rewrite (H x) by now left. cbn [bind].
  destruct (p x); auto. apply IH. intros y Hy. apply H. now right.
Qed.

Lemma py_any_false {A} (f : A -> res bool) l :
  py_any f l = Ok false -> forall x, In x l -> f x = Ok false.
Proof.
  induction l as [| a l IH]; simpl; intros H x Hx; [contradiction |].
  destruct (f a) as [[|] |] eqn:E; cbn [bind] in H; try discriminate.
  destruct Hx as [<- | Hx]; auto.
Qed.

Lemma any_parent_items d key test :
  any_parent d key test = (l <- items_of d key ;; py_any test l).
Proof.
  unfold any_parent, items_of. destruct (dict_getitem d key); auto.
Qed.

Lemma any_name_is d name b :
  any_parent d "ancestors" (name_is name) = Ok b ->
  b = false /\ items_of d "ancestors" = Ok [].
Proof.
  rewrite any_parent_items. destruct (items_of d "ancestors") as [[| x l] |];
    cbn [bind py_any]; intros H; inversion H; auto.
Qed.

Lemma any_navigation_labelled d word :
  any_parent d "ancestors" (role_is "navigation") = Ok false ->
  any_parent d "ancestors" (navigation_labelled word) = Ok false.
Proof.
  rewrite !any_parent_items. destruct (items_of d "ancestors") as [l |];
    cbn [bind]; [| discriminate].
  intros H. rewrite (py_any_total _ (fun _ => false)).
  - f_equal. clear H. induction l; simpl; auto.
  - intros x Hx. unfold navigation_labelled.
    now rewrite (py_any_false _ _ H x Hx).
Qed.

(** X9.  [determine_link_type] returns twelve of its eighteen labels only,
    on the values of the universe: [parent.name] raises [AttributeError] for
    every item of [ancestors], so that [action_link] and [regular_link] need
    an empty list of ancestors, and [breadcrumb_item], [pagination_item],
    [footer_link], [header_link], [sidebar_link] and [social_link] are never
    returned. *)
Theorem determine_link_type_returns_twelve_labels d r :
  determine_link_type d = Ok r ->
  In r ["submenu_item"; "menu_item"; "dropdown_trigger"; "dropdown_item";
        "accordion_item"; "tab_item"; "header_nav_item"; "footer_nav_item";
        "sidebar_nav_item"; "nav_item"]
  \/ (In r ["action_link"; "regular_link"] /\ items_of d "ancestors" = Ok []).
Proof.
  unfold determine_link_type. intros H.
  repeat match type of H with
         | context [any_parent d "interactive_parents" ?f] =>
             destruct (any_parent d "interactive_parents" f) as [[|] |];
             cbn [bind] in H; try discriminate;
             try (inversion H; subst r; left; simpl; tauto)
         end.
  destruct (any_parent d "ancestors" (role_is "navigation")) as [[|] |] eqn:En;
    cbn [bind] in H; try discriminate.
  { repeat match type of H with
           | context [any_parent d "ancestors" ?f] =>
               destruct (any_parent d "ancestors" f) as [[|] |];
               cbn [bind] in H; try discriminate;
               try (inversion H; subst r; left; simpl; tauto)
           end. }
  rewrite !(any_navigation_labelled d _ En) in H. cbn [bind] in H.
  destruct (any_parent d "ancestors" (name_is "footer")) as [b |] eqn:Ef;
    cbn [bind] in H; [| discriminate].
  destruct (any_name_is d _ _ Ef) as [-> Hi].
  rewrite !any_parent_items, Hi in H. cbn [bind py_any] in H.
  right. split; auto.
  destruct (py_any (text_has d) action_texts) as [[|] |]; cbn [bind] in H;
    inversion H; simpl; auto.
Qed.

(** ** Link types on the contexts of the extractor *)

Lemma py_any_map {A B} (f : B -> res bool) (g : A -> B) (p : A -> bool) l :
  (forall x, f (g x) = Ok (p x)) -> py_any f (map g l) = Ok (existsb p l).
Proof.
  intros H. induction l as [| x l IH]; simpl; auto.
  rewrite H. cbn [bind]. now destruct (p x).
Qed.

Lemma existsb_never {A} (l : list A) : existsb (fun _ => false) l = false.
Proof. induction l; simpl; auto. Qed.

Lemma role_is_parent_info role n :
  role_is role (parent_info n) = Ok (py_eq_str (attr n "role") role).
Proof. reflexivity. Qed.

Lemma has_value_parent_info_expanded n :
  has_value "aria-expanded" (parent_info n) = Ok false.
Proof. reflexivity. Qed.

Lemma has_value_parent_info_controls n :
  has_value "aria-controls" (parent_info n) = Ok false.
Proof. reflexivity. Qed.

Lemma class_has_parent_info word n : class_has word (parent_info n) = Ok false.
Proof. reflexivity. Qed.

Lemma navigation_labelled_parent_info word n :
  py_eq_str (attr n "role") "navigation" = false ->
  navigation_labelled word (parent_info n) = Ok false.
Proof.
  intros H. unfold navigation_labelled. rewrite role_is_parent_info, H. reflexivity.
Qed.

(** X10.  On the DOM context that the extractor builds for an element with the
    text [text], whose ancestors and sibling elements have names,
    [determine_link_type] returns [menu_item], [tab_item] or [nav_item] by
    the roles of the interactive parents and of the ancestors above the
    parent; otherwise it raises [AttributeError] when there is an ancestor
    above the parent, and returns [action_link] or [regular_link] by the
    text when there is none. *)
Theorem determine_link_type_on_an_extracted_context h element text dc :
  context_named h = true ->
  dict_get "text" element = Some (PStr text) ->
  dom_context (PDict element) h = PDict dc ->
  determine_link_type dc
  = if role_among "menuitem" (filter is_interactive (parents h))
    then Ok "menu_item"
    else if role_among "tab" (filter is_interactive (parents h))
    then Ok "tab_item"
    else if role_among "navigation" (tl (parents h))
    then Ok "nav_item"
    else match tl (parents h) with
         | _ :: _ => Raise AttributeError
         | [] =>
             if existsb (fun t => occurs t (py_lower text)) action_texts
             then Ok "action_link" else Ok "regular_link"
         end.
Proof.
  intros Hn Ht Hdc. unfold context_named in Hn. apply andb_true_iff in Hn.
  destruct Hn as [Hn _]. unfold dom_context in Hdc.
  rewrite (ancestors_loop_first _ Hn) in Hdc. cbn [ctx_parent ctx_ancestors ctx_interactive] in Hdc.
  injection Hdc as Hd.
  set (ips := filter is_interactive (parents h)).
  set (ancs := tl (parents h)).
  assert (Hi : forall f, any_parent dc "interactive_parents" f
                         = py_any f (map parent_info ips)).
  { intros f. rewrite <- Hd. reflexivity. }
  assert (Ha : forall f, any_parent dc "ancestors" f
                         = py_any f (map parent_info ancs)).
  { intros f. rewrite <- Hd. reflexivity. }
  unfold determine_link_type. rewrite !Hi, !Ha.
  rewrite !(py_any_map _ _ _ _ (role_is_parent_info _)).
  rewrite (py_any_map _ _ _ _ has_value_parent_info_expanded).
  rewrite (py_any_map _ _ _ _ has_value_parent_info_controls).
  rewrite !(py_any_map _ _ _ _ (class_has_parent_info _)).
  rewrite !existsb_never. cbn [bind]. fold (role_among "menuitem" ips).
  fold (role_among "tab" ips). fold (role_among "navigation" ancs).
  destruct (role_among "menuitem" ips); auto.
  destruct (role_among "tab" ips); auto.
  destruct (role_among "navigation" ancs) eqn:En; auto.
  assert (Hb : forall w, py_any (navigation_labelled w) (map parent_info ancs) = Ok false).
  { intros w. rewrite (py_any_total _ (fun _ => false)); [now rewrite existsb_never |].
    intros x Hx. apply in_map_iff in Hx. destruct Hx as [n [<- Hin]].
    apply navigation_labelled_parent_info.
    unfold role_among in En.
    destruct (py_eq_str (attr n "role") "navigation") eqn:E; auto.
    assert (existsb (fun n => py_eq_str (attr n "role") "navigation") ancs = true).
    { apply existsb_exists. eauto. }
    congruence. }
  rewrite !Hb. cbn [bind].
  destruct ancs as [| a ancs']; cbn [map py_any bind name_is name_of]; auto.
  rewrite (py_any_total _ (fun t => occurs t (py_lower text))).
  - cbn [bind]. now destruct (existsb _ action_texts).
  - intros t Hin. unfold text_has. rewrite <- Hd. cbn [dict_getitem dict_get String.eqb Ascii.eqb Bool.eqb bind].
    unfold py_get. rewrite Ht. cbn [lower_of bind].
    repeat (destruct Hin as [<- | Hin]; [reflexivity |]). destruct Hin.
Qed.

(** * Further properties of the extractor *)

(** ** What the categories hold *)

Lemma category_loop_cut body max : forall cands i acc n,
  category_loop body max cands i acc n
  = (acc ++ firstn (Z.to_nat (max - n)) (emit_all body cands i),
     i + length (firstn (Z.to_nat (max - n)) (emit_all body cands i)),
     (n + Z.of_nat (length (firstn (Z.to_nat (max - n)) (emit_all body cands i))))%Z).
Proof.
  induction cands as [| c rest IH]; intros i acc n; simpl.
  - rewrite firstn_nil, app_nil_r. simpl. now rewrite Nat.add_0_r, Z.add_0_r.
  - destruct (n >=? max)%Z eqn:E.
    + apply geb_ge in E. replace (Z.to_nat (max - n)) with 0 by lia.
      simpl. now rewrite app_nil_r, Nat.add_0_r, Z.add_0_r.
    + apply geb_lt in E. destruct (body c i) as [r |]; [| apply IH].
      rewrite IH.
      replace (Z.to_nat (max - n)) with (S (Z.to_nat (max - (n + 1)))) by lia.
      simpl firstn. simpl length. rewrite <- app_assoc. simpl app.
      f_equal; [f_equal; lia | lia].
Qed.

Lemma category_loop_cuts body cands :
  cuts (fun max acc n => drop_index (category_loop body max cands 0 acc n))
       (emit_all body cands 0).
Proof.
  intros max acc n. now rewrite category_loop_cut.
Qed.

Lemma icon_loops_cut rules soup :
  cuts (fun max acc n => drop_index
          (let '(acc1, icon_index, n1) :=
             icon_loop (icon_body rules) max (find_all ["i"; "span"] soup) 0 acc n in
           icon_loop (svg_body rules) max (find_all ["svg"] soup) icon_index acc1 n1))
       (icons_emitted rules soup).
Proof.
  intros max acc n. unfold icons_emitted.
  set (U1 := emit_all (icon_body rules) (find_all ["i"; "span"] soup) 0).
  rewrite icon_loop_is_category_loop, category_loop_cut. fold U1.
  rewrite icon_loop_is_category_loop, category_loop_cut.
  unfold drop_index. cbn [fst snd]. simpl Nat.add.
  set (k := Z.to_nat (max - n)).
  destruct (Nat.le_gt_cases (length U1) k) as [Hle | Hgt].
  - rewrite (firstn_all2 U1) by assumption.
    replace (Z.to_nat (max - (n + Z.of_nat (length U1)))) with (k - length U1)
      by (unfold k; lia).
    rewrite firstn_app, (firstn_all2 U1) by assumption.
    rewrite <- app_assoc, !length_app. f_equal. lia.
  - assert (Hl : length (firstn k U1) = k) by (apply firstn_length_le; lia).
    rewrite Hl.
    replace (Z.to_nat (max - (n + Z.of_nat k))) with 0 by (unfold k; lia).
    rewrite firstn_app. replace (k - length U1) with 0 by lia.
    simpl. rewrite !app_nil_r, Hl. f_equal. lia.
Qed.

Lemma semantic_loop_cut soup max : forall tags acc n,
  semantic_loop soup max tags acc n
  = (acc ++ firstn (Z.to_nat (max - n)) (flat_map (semantic_record soup) tags),
     (n + Z.of_nat (length (firstn (Z.to_nat (max - n))
                              (flat_map (semantic_record soup) tags))))%Z).
Proof.
  induction tags as [| tag rest IH]; intros acc n; simpl.
  - rewrite firstn_nil, app_nil_r. simpl. now rewrite Z.add_0_r.
  - destruct (n >=? max)%Z eqn:E.
    + apply geb_ge in E. replace (Z.to_nat (max - n)) with 0 by lia.
      simpl. now rewrite app_nil_r, Z.add_0_r.
    + apply geb_lt in E. unfold semantic_record at 1 3.
      destruct (find_all [tag] soup) as [| x found]; [apply IH |].
      rewrite IH.
      replace (Z.to_nat (max - n)) with (S (Z.to_nat (max - (n + 1)))) by lia.
      simpl firstn. simpl length. rewrite <- app_assoc. simpl app.
      f_equal. lia.
Qed.

Lemma stages_cut rules soup base :
  Forall2 (fun s u => fst s = fst u /\ cuts (snd s) (snd u))
    (stages_of rules soup base) (emitted rules soup base).
Proof.
  unfold stages_of, emitted.
  repeat (constructor; [split; [reflexivity |] |]); try constructor;
    try apply category_loop_cuts.
  - apply icon_loops_cut.
  - intros max acc n. apply semantic_loop_cut.
Qed.

(** The run of loops that cut: every category is a prefix of what its loop
    emits, and all of it when the counter stays below the budget. *)
Lemma run_stages_emitted max : forall stages us st,
  Forall2 (fun s u => fst s = fst u /\ cuts (snd s) (snd u)) stages us ->
  NoDup (map fst stages) ->
  (forall key, In key (map fst stages) ->
     In key (map fst (fst st)) /\ category_list key (fst st) = []) ->
  (snd st <= snd (run_stages max stages st))%Z
  /\ (forall key U, In (key, U) us ->
        (exists rest, U = category_list key (fst (run_stages max stages st)) ++ rest)
        /\ ((snd (run_stages max stages st) < max)%Z ->
              category_list key (fst (run_stages max stages st)) = U)).
Proof.
  induction stages as [| [key f] rest IH]; intros us st HF Hnd Hk.
  - inversion HF; subst. simpl. split; [lia | intros ? ? []].
  - inversion HF as [| ? [key' U] ? us' [Hkey Hc] HF']; subst. simpl in Hkey, Hc.
    subst key'. simpl in Hnd. inversion Hnd as [| ? ? Hnot Hnd']; subst.
    destruct (Hk key (or_introl eq_refl)) as [Hin He].
    assert (Hrun : run_category key (f max) st
                   = (set_category key (firstn (Z.to_nat (max - snd st)) U) (fst st),
                      (snd st + Z.of_nat (length (firstn (Z.to_nat (max - snd st)) U)))%Z)).
    { unfold run_category. rewrite Hc, He. reflexivity. }
    cbn [run_stages]. rewrite Hrun.
    set (F := firstn (Z.to_nat (max - snd st)) U) in *.
    set (st1 := (set_category key F (fst st), (snd st + Z.of_nat (length F))%Z)).
    destruct (IH us' st1 HF' Hnd') as [I1 I2].
    { intros k Hkin. destruct (Hk k (or_intror Hkin)) as [H1 H2].
      unfold st1. cbn [fst].
      rewrite set_category_keys, category_list_set_other; auto.
      intros ->. contradiction. }
    assert (Hs1 : (snd st <= snd st1)%Z) by (unfold st1; simpl; lia).
    split; [lia |].
    intros k V [Hkv | Hkv]; [| now apply I2].
    inversion Hkv; subst k V.
    rewrite run_stages_other by assumption.
    assert (Hcl : category_list key (fst st1) = F).
    { unfold st1. cbn [fst]. now apply category_list_set_same. }
    rewrite Hcl. split.
    + exists (skipn (Z.to_nat (max - snd st)) U). unfold F. now rewrite firstn_skipn.
    + intros Hlt. apply firstn_all2.
      assert (Hs : (snd st1 < max)%Z) by lia.
      unfold st1 in Hs. cbn [snd] in Hs.
      destruct (Nat.le_gt_cases (length U) (Z.to_nat (max - snd st))); auto.
      unfold F in Hs. rewrite firstn_length_le in Hs by lia. lia.
Qed.

Lemma total_records_nonneg e : (0 <= total_records e)%Z.
Proof. induction e as [| [k l] e IH]; simpl; lia. Qed.

Lemma category_emitted rules html base N key U :
  prefix fetch_error_prefix html = false ->
  In (key, U) (emitted rules (make_soup rules html) base) ->
  (exists rest,
      U = category key (parse_html_for_elements rules html base N) ++ rest)
  /\ ((record_count (parse_html_for_elements rules html base N) < N)%Z ->
        category key (parse_html_for_elements rules html base N) = U).
Proof.
  intros Hp Hin. rewrite parse_is_run by assumption.
  set (soup := make_soup rules html) in *.
  set (stages := stages_of rules soup base).
  pose proof (run_stages_keys N stages (initial_elements, 0%Z)) as Hk.
  rewrite category_cleanup by (rewrite Hk; apply initial_keys_nodup).
  rewrite record_count_cleanup.
  destruct (run_stages_emitted N stages (emitted rules soup base)
              (initial_elements, 0%Z) (stages_cut rules soup base))
    as [H0 H1].
  { unfold stages, stages_of. simpl.
    repeat (constructor; [simpl; intuition discriminate |]). constructor. }
  { intros k Hkin. unfold stages, stages_of in Hkin. simpl in Hkin.
    repeat (destruct Hkin as [<- | Hkin]; [split; [simpl; tauto | reflexivity] |]).
    destruct Hkin. }
  destruct (H1 key U Hin) as [Hpre Hall]. split; auto.
  intros Hlt. apply Hall.
  destruct (Z_lt_ge_dec N 0) as [Hneg | Hpos].
  - pose proof (total_records_nonneg (fst (run_stages N stages (initial_elements, 0%Z)))).
    lia.
  - destruct (run_stages_count N stages (initial_elements, 0%Z)) as [C1 _].
    + apply stages_budgeted.
    + intros p Hpin. now apply stages_keys in Hpin.
    + reflexivity.
    + simpl. lia.
    + now rewrite C1.
Qed.

(** X11.  Every category of the result is a prefix of what its loop emits when
    no budget stops it, and all of it when the number of records of the
    result is below the budget. *)
Theorem categories_hold_what_their_loops_emit rules html base N key U :
  prefix fetch_error_prefix html = false ->
  In (key, U) (emitted rules (make_soup rules html) base) ->
  (exists rest,
      U = category key (parse_html_for_elements rules html base N) ++ rest)
  /\ ((record_count (parse_html_for_elements rules html base N) < N)%Z ->
        category key (parse_html_for_elements rules html base N) = U).
Proof. apply category_emitted. Qed.

(** ** The number of records *)

Lemma run_stages_total max : forall stages us st,
  Forall2 (fun s u => fst s = fst u /\ cuts (snd s) (snd u)) stages us ->
  (forall key, In key (map fst stages) -> In key (map fst (fst st))) ->
  snd st = total_records (fst st) ->
  (forall key, In key (map fst stages) -> category_list key (fst st) = []) ->
  NoDup (map fst stages) ->
  snd (run_stages max stages st)
  = Z.max (snd st) (Z.min max (snd st + total_records us))
  /\ total_records (fst (run_stages max stages st)) = snd (run_stages max stages st).
Proof.
  induction stages as [| [key f] rest IH]; intros us st HF Hk Hn He Hnd.
  - inversion HF; subst. simpl. split; lia.
  - inversion HF as [| ? [key' U] ? us' [Hkey Hc] HF']; subst. simpl in Hkey, Hc.
    subst key'. simpl in Hnd. inversion Hnd as [| ? ? Hnot Hnd']; subst.
    assert (Hrun : run_category key (f max) st
                   = (set_category key (firstn (Z.to_nat (max - snd st)) U) (fst st),
                      (snd st + Z.of_nat (length (firstn (Z.to_nat (max - snd st)) U)))%Z)).
    { unfold run_category. rewrite Hc, (He key (or_introl eq_refl)). reflexivity. }
    cbn [run_stages]. rewrite Hrun.
    set (F := firstn (Z.to_nat (max - snd st)) U) in *.
    set (st1 := (set_category key F (fst st), (snd st + Z.of_nat (length F))%Z)).
    destruct (IH us' st1 HF') as [I1 I2].
    + intros k Hkin. unfold st1. cbn [fst]. rewrite set_category_keys.
      apply Hk. now right.
    + unfold st1. cbn [fst snd].
      rewrite total_records_set by (apply Hk; now left).
      rewrite (He key (or_introl eq_refl)). simpl length. lia.
    + intros k Hkin. unfold st1. cbn [fst].
      rewrite category_list_set_other; [apply He; now right |].
      intros ->. contradiction.
    + assumption.
    + split; [| exact I2]. rewrite I1. unfold st1. cbn [snd total_records].
      assert (HlF : length F = Nat.min (Z.to_nat (max - snd st)) (length U)).
      { unfold F. apply length_firstn. }
      pose proof (total_records_nonneg us'). lia.
Qed.

(** X12.  The number of records of the result is the budget or the number of
    records that the loops emit without a budget, whichever is smaller, and
    0 under a negative budget. *)
Theorem record_count_is_the_budget_or_everything rules html base N :
  prefix fetch_error_prefix html = false ->
  record_count (parse_html_for_elements rules html base N)
  = Z.max 0 (Z.min N (total_records (emitted rules (make_soup rules html) base))).
Proof.
  intros Hp. rewrite parse_is_run by assumption. rewrite record_count_cleanup.
  destruct (run_stages_total N (stages_of rules (make_soup rules html) base)
              (emitted rules (make_soup rules html) base) (initial_elements, 0%Z)
              (stages_cut rules (make_soup rules html) base)) as [H1 H2].
  - intros k Hkin. unfold stages_of in Hkin. simpl in Hkin. simpl. tauto.
  - reflexivity.
  - intros k Hkin. unfold stages_of in Hkin. simpl in Hkin.
    repeat (destruct Hkin as [<- | Hkin]; [reflexivity |]). destruct Hkin.
  - unfold stages_of. simpl.
    repeat (constructor; [simpl; intuition discriminate |]). constructor.
  - rewrite H2, H1. reflexivity.
Qed.

(** ** The empty result *)

Lemma cleanup_nil e : cleanup e = [] <-> total_records e = 0%Z.
Proof.
  induction e as [| [k l] e IH]; simpl; [tauto |].
  pose proof (total_records_nonneg e).
  destruct l as [| x l]; simpl length.
  - rewrite IH. lia.
  - split; [discriminate | lia].
Qed.

(** X13.  The result of an extraction is the empty dict, for which the
    application reports that no relevant element was found, exactly when the
    budget is not positive or no loop emits a record. *)
Theorem result_is_empty_without_a_record rules html base N :
  prefix fetch_error_prefix html = false ->
  parse_html_for_elements rules html base N = PDict []
  <-> (N <= 0)%Z
      \/ total_records (emitted rules (make_soup rules html) base) = 0%Z.
Proof.
  intros Hp. rewrite parse_is_run by assumption.
  destruct (run_stages_total N (stages_of rules (make_soup rules html) base)
              (emitted rules (make_soup rules html) base) (initial_elements, 0%Z)
              (stages_cut rules (make_soup rules html) base)) as [H1 H2].
  - intros k Hkin. unfold stages_of in Hkin. simpl in Hkin. simpl. tauto.
  - reflexivity.
  - intros k Hkin. unfold stages_of in Hkin. simpl in Hkin.
    repeat (destruct Hkin as [<- | Hkin]; [reflexivity |]). destruct Hkin.
  - unfold stages_of. simpl.
    repeat (constructor; [simpl; intuition discriminate |]). constructor.
  - pose proof (total_records_nonneg
                  (emitted rules (make_soup rules html) base)) as Hn.
    cbn [snd] in H1. rewrite H1 in H2.
    set (e := fst (run_stages N (stages_of rules (make_soup rules html) base)
                     (initial_elements, 0%Z))) in *.
    split.
    + intros H. assert (He : cleanup e = []) by now inversion H.
      apply cleanup_nil in He. lia.
    + intros H. f_equal. apply cleanup_nil. lia.
Qed.

(** ** The keys of the result, the landmarks and the links *)

Lemma cleanup_in k v e :
  In (k, v) (cleanup e) -> exists l, v = PList l /\ l <> [] /\ In (k, l) e.
Proof.
  induction e as [| [k0 l0] e IH]; simpl; [tauto |].
  destruct l0 as [| x l0].
  - intros H. destruct (IH H) as [l [H1 [H2 H3]]]. eauto.
  - intros [H | H].
    + inversion H; subst. exists (x :: l0). repeat split; auto. discriminate.
    + destruct (IH H) as [l [H1 [H2 H3]]]. eauto.
Qed.

Lemma cleanup_keys_nodup e : NoDup (map fst e) -> NoDup (map fst (cleanup e)).
Proof.
  induction e as [| [k l] e IH]; simpl; intros H; [constructor |].
  inversion H as [| ? ? Hnot Hnd]; subst.
  destruct l; auto. simpl. constructor; auto.
  intros Hin. apply Hnot. apply in_map_iff in Hin.
  destruct Hin as [[k' v] [Hk Hin]]. simpl in Hk. subst k'.
  destruct (cleanup_in _ _ _ Hin) as [l' [_ [_ Hl]]].
  apply in_map_iff. exists (k, l'). auto.
Qed.

Lemma category_list_in k l e :
  NoDup (map fst e) -> In (k, l) e -> category_list k e = l.
Proof.
  induction e as [| [k0 l0] e IH]; simpl; [tauto |].
  intros Hnd [H | H]; inversion Hnd as [| ? ? Hnot Hnd']; subst.
  - inversion H; subst. now rewrite String.eqb_refl.
  - destruct (k0 =? k) eqn:E; auto.
    apply String.eqb_eq in E. subst k0. exfalso. apply Hnot.
    apply in_map_iff. exists (k, l). split; auto.
Qed.

Lemma dict_get_cleanup key e :
  NoDup (map fst e) ->
  dict_get key (cleanup e)
  = match category_list key e with
    | [] => None
    | l => Some (PList l)
    end.
Proof.
  induction e as [| [k l] e IH]; simpl; auto.
  intros Hnd. inversion Hnd as [| ? ? Hnot Hnd']; subst.
  destruct (k =? key) eqn:E.
  - apply String.eqb_eq in E. subst k. destruct l; simpl.
    + now apply dict_get_cleanup_absent.
    + now rewrite String.eqb_refl.
  - destruct l; simpl; rewrite ?E; auto.
Qed.

(** X14.  The result of an extraction holds only categories that received a
    record, each once, under one of the eight names that the loops fill, as
    a non-empty list; the category [inputs], which no loop fills, and the key
    [error] are absent. *)
Theorem result_holds_the_filled_categories rules html base N d :
  prefix fetch_error_prefix html = false ->
  parse_html_for_elements rules html base N = PDict d ->
  (forall k v, In (k, v) d ->
     In k ["headings"; "paragraphs"; "links"; "buttons"; "images_and_logos";
           "icons"; "forms"; "semantic_elements"]
     /\ exists l, v = PList l /\ l <> [])
  /\ dict_get "inputs" d = None
  /\ dict_get "error" d = None
  /\ NoDup (map fst d).
Proof.
  intros Hp Hd. rewrite parse_is_run in Hd by assumption.
  pose proof (run_stages_keys N (stages_of rules (make_soup rules html) base)
                (initial_elements, 0%Z)) as Hk.
  assert (Hi : category_list "inputs"
                 (fst (run_stages N (stages_of rules (make_soup rules html) base)
                         (initial_elements, 0%Z))) = []).
  { rewrite run_stages_other; [reflexivity |].
    unfold stages_of. simpl. intuition discriminate. }
  remember (fst (run_stages N (stages_of rules (make_soup rules html) base)
                   (initial_elements, 0%Z))) as e eqn:Ee.
  clear Ee. cbn [fst] in Hk. injection Hd as <-.
  assert (Hnd : NoDup (map fst e)) by (rewrite Hk; apply initial_keys_nodup).
  split; [| split; [| split]].
  - intros k v Hin. destruct (cleanup_in _ _ _ Hin) as [l [-> [Hl He]]].
    split; [| eauto].
    assert (Hkin : In k (map fst e)).
    { apply in_map_iff. exists (k, l). split; auto. }
    rewrite Hk in Hkin. simpl in Hkin.
    repeat (destruct Hkin as [<- | Hkin]; [simpl; tauto |]).
    destruct Hkin as [<- | Hkin].
    + rewrite (category_list_in _ _ _ Hnd He) in Hi. contradiction.
    + repeat (destruct Hkin as [<- | Hkin]; [simpl; tauto |]). destruct Hkin.
  - rewrite dict_get_cleanup by assumption. now rewrite Hi.
  - apply dict_get_cleanup_absent. rewrite Hk. simpl. intuition discriminate.
  - now apply cleanup_keys_nodup.
Qed.

Lemma semantic_record_in soup tag r :
  In r (semantic_record soup tag) ->
  r = PDict [("tag", PStr tag);
             ("count", PInt (Z.of_nat (length (find_all [tag] soup))))]
  /\ 1 <= length (find_all [tag] soup).
Proof.
  unfold semantic_record. destruct (find_all [tag] soup) as [| x l] eqn:E.
  - intros [].
  - intros [<- | []]. split; auto. simpl. lia.
Qed.

Lemma semantic_record_length soup tag : length (semantic_record soup tag) <= 1.
Proof. unfold semantic_record. destruct (find_all [tag] soup); simpl; lia. Qed.

(** X15.  The category [semantic_elements] holds at most seven records, a
    prefix of one record for every landmark tag of the list (header, footer,
    nav, main, section, article, aside) that occurs in the document, in the
    order of the list; a record gives the tag and the number of its elements,
    which is at least 1. *)
Theorem semantic_elements_count_the_landmarks rules html base N :
  prefix fetch_error_prefix html = false ->
  (exists rest,
      semantic_summary (make_soup rules html)
      = category "semantic_elements" (parse_html_for_elements rules html base N)
        ++ rest)
  /\ (forall r,
        In r (category "semantic_elements"
                (parse_html_for_elements rules html base N)) ->
        exists tag,
          In tag semantic_tags
          /\ r = PDict [("tag", PStr tag);
                        ("count",
                         PInt (Z.of_nat
                                 (length (find_all [tag] (make_soup rules html)))))]
          /\ 1 <= length (find_all [tag] (make_soup rules html)))
  /\ length (category "semantic_elements"
               (parse_html_for_elements rules html base N)) <= 7.
Proof.
  intros Hp.
  destruct (category_emitted rules html base N
              "semantic_elements" (semantic_summary (make_soup rules html)) Hp)
    as [[rest Hrest] _].
  { unfold emitted. simpl. tauto. }
  split; [eauto |]. split.
  - intros r Hr.
    assert (Hin : In r (semantic_summary (make_soup rules html))).
    { rewrite Hrest. apply in_or_app. now left. }
    unfold semantic_summary in Hin. apply in_flat_map in Hin.
    destruct Hin as [tag [Ht Hin]].
    destruct (semantic_record_in _ _ _ Hin) as [H1 H2]. eauto.
  - assert (Hl : length (semantic_summary (make_soup rules html)) <= 7).
    { unfold semantic_summary, semantic_tags. cbn [flat_map].
      rewrite !length_app. simpl length.
      repeat match goal with
             | |- context [length (semantic_record ?s ?t)] =>
                 let H := fresh in
                 pose proof (semantic_record_length s t) as H;
                 generalize dependent (length (semantic_record s t)); intros
             end. lia. }
    rewrite Hrest, length_app in Hl. lia.
Qed.

Lemma emit_all_link : forall cands i,
  map Some (emit_all link_body cands i) = map (fun h => link_body h 0) cands.
Proof.
  induction cands as [| c cands IH]; intros i; simpl; auto.
  now rewrite IH.
Qed.

(** X16.  The records of [links] are the link records of the [a] elements that
    have an [href] attribute, in document order and none skipped: a prefix of
    them, and all of them when the number of records of the result is below
    the budget. *)
Theorem links_are_the_anchors_with_an_href rules html base N :
  prefix fetch_error_prefix html = false ->
  (exists rest,
      map (fun h => link_body h 0) (links_of (make_soup rules html))
      = map Some (category "links" (parse_html_for_elements rules html base N))
        ++ rest)
  /\ ((record_count (parse_html_for_elements rules html base N) < N)%Z ->
        map Some (category "links" (parse_html_for_elements rules html base N))
        = map (fun h => link_body h 0) (links_of (make_soup rules html))).
Proof.
  intros Hp.
  destruct (category_emitted rules html base N "links"
              (emit_all link_body (links_of (make_soup rules html)) 0) Hp)
    as [[rest Hrest] Hall].
  { unfold emitted. simpl. tauto. }
  split.
  - exists (map Some rest). rewrite <- emit_all_link with (i := 0).
    now rewrite Hrest, map_app.
  - intros Hlt. rewrite (Hall Hlt). apply emit_all_link.
Qed.

(** ** Scripts and styles *)

Lemma node_induction (P : node -> Prop) :
  (forall shown s, P (NavigableString shown s)) ->
  (forall name attrs contents, Forall P contents -> P (Tag name attrs contents)) ->
  forall n, P n.
Proof.
  intros Hs Ht. fix IH 1. intros [shown s | name attrs contents]; [apply Hs |].
  apply Ht. induction contents; constructor; auto.
Qed.

Lemma decompose_all_clean names : forall n, clean names (decompose_all names n) = true.
Proof.
  apply node_induction; [reflexivity |].
  intros name attrs contents IH. cbn [decompose_all clean].
  induction IH as [| c cs Hc _ IHcs]; [reflexivity |].
  fold (removed names c). destruct (removed names c) eqn:E; [exact IHcs |].
  cbn [forallb]. rewrite Hc, IHcs, andb_true_r, andb_true_r.
  destruct c as [shown s | cname cattrs ccs]; [reflexivity |].
  unfold removed in *. cbn [decompose_all is_tag tag_name] in *. now rewrite E.
Qed.

Lemma forallb_app_true {A} (p : A -> bool) l l' :
  forallb p l = true -> forallb p l' = true -> forallb p (l ++ l') = true.
Proof. intros H H'. rewrite forallb_app, H, H'. reflexivity. Qed.

Lemma locate_clean names : forall n ps bs as_,
  clean names n = true ->
  removed names n = false ->
  forallb (fun x => negb (removed names x)) (ps ++ bs ++ as_) = true ->
  forallb (context_clean names) (locate ps bs n as_) = true.
Proof.
  apply (node_induction
           (fun n => forall ps bs as_,
              clean names n = true ->
              removed names n = false ->
              forallb (fun x => negb (removed names x)) (ps ++ bs ++ as_) = true ->
              forallb (context_clean names) (locate ps bs n as_) = true));
    [reflexivity |].
  intros name attrs contents IH ps bs as_ Hc Hr Hctx.
  cbn [locate forallb]. unfold context_clean at 1. cbn [here parents before after].
  rewrite Hr, Hctx, Hc. cbn [negb andb].
  cbn [clean] in Hc.
  assert (Hps : forallb (fun x => negb (removed names x))
                  (Tag name attrs contents :: ps) = true).
  { cbn [forallb]. rewrite Hr. cbn [negb andb].
    rewrite forallb_app in Hctx. apply andb_true_iff in Hctx. tauto. }
  clear Hctx Hr. revert Hps. generalize (Tag name attrs contents) as p.
  intros p Hps.
  assert (Hbs : forallb (fun x => negb (removed names x)) (@nil node) = true)
    by reflexivity.
  revert Hbs. generalize (@nil node) as bs'.
  induction IH as [| c cs Hc0 _ IHcs]; intros bs' Hbs; [reflexivity |].
  cbn [forallb] in Hc. apply andb_true_iff in Hc. destruct Hc as [Hc1 Hc2].
  apply andb_true_iff in Hc1. destruct Hc1 as [Hc1 Hc3].
  apply negb_true_iff in Hc1.
  rewrite forallb_app. apply andb_true_iff. split.
  - apply Hc0; auto.
    apply forallb_app_true; [exact Hps |]. apply forallb_app_true; [exact Hbs |].
    clear - Hc2. induction cs as [| x cs IH]; [reflexivity |].
    cbn [forallb] in *. apply andb_true_iff in Hc2. destruct Hc2 as [H1 H2].
    apply andb_true_iff in H1. destruct H1 as [H1 _]. rewrite H1. now apply IH.
  - apply IHcs; auto. cbn [forallb]. now rewrite Hc1, Hbs.
Qed.

(** X17.  No [script] or [style] element is reached from an element of the
    parsed document: the element is none, nor is any element below it, any
    of its ancestors or any of its siblings. *)
Theorem scripts_and_styles_are_out_of_reach rules html h :
  In h (descendants (make_soup rules html)) ->
  context_clean ["script"; "style"] h = true.
Proof.
  intros Hin. unfold descendants, make_soup in Hin.
  set (names := ["script"; "style"]) in *.
  set (root := decompose_all names (Tag "[document]" [] (html_parser rules html))) in *.
  assert (Hall : forallb (context_clean names) (locate [] [] root []) = true).
  { apply locate_clean; auto. apply decompose_all_clean. }
  assert (Hh : In h (locate [] [] root [])).
  { destruct (locate [] [] root []); [destruct Hin | now right]. }
  rewrite forallb_forall in Hall. now apply Hall.
Qed.

(** * The resolver calls of the application *)

Lemma dict_set_same_value k v d : dict_get k d = Some v -> dict_set k v d = d.
Proof.
  induction d as [| [k' v'] d IH]; simpl; [discriminate |].
  destruct (k' =? k) eqn:E.
  - intros H. inversion H. reflexivity.
  - intros H. now rewrite IH.
Qed.

Lemma dict_set_keys k v d :
  dict_get k d <> None -> map fst (dict_set k v d) = map fst d.
Proof.
  induction d as [| [k' v'] d IH]; simpl; [congruence |].
  destruct (k' =? k) eqn:E; simpl; auto.
  intros H. now rewrite IH.
Qed.

Lemma as_records_map ds : as_records (map PDict ds) = Ok ds.
Proof. induction ds as [| d ds IH]; simpl; auto. now rewrite IH. Qed.

Lemma as_records_ok : forall items ds,
  as_records items = Ok ds -> items = map PDict ds.
Proof.
  induction items as [| x items IH]; simpl; intros ds H.
  - now inversion H.
  - destruct x; try discriminate.
    destruct (as_records items) as [ds' |]; [| discriminate].
    cbn [bind] in H. inversion H; subst. simpl. f_equal. now apply IH.
Qed.

Lemma emit_all_in body : forall cands i r,
  In r (emit_all body cands i) -> exists c j, body c j = Some r.
Proof.
  induction cands as [| c cands IH]; simpl; intros i r H; [contradiction |].
  destruct (body c i) as [x |] eqn:E; [| eauto].
  destruct H as [<- | H]; eauto.
Qed.

Lemma link_body_shaped h i r :
  link_body h i = Some r ->
  shaped ["dom_context"; "is_external_link"; "external_link_popup"] r.
Proof. unfold link_body. intros H. inversion H. eexists. split; reflexivity. Qed.

Lemma heading_body_shaped h i r :
  heading_body h i = Some r -> shaped ["dom_context"; "sequential_index"] r.
Proof.
  unfold heading_body. destruct (negb _); intros H; inversion H.
  eexists. split; reflexivity.
Qed.

Lemma dict_get_not_key k d : ~ In k (map fst d) -> dict_get k d = None.
Proof.
  induction d as [| [k' v] d IH]; simpl; auto.
  intros H. destruct (k' =? k) eqn:E; [| apply IH; tauto].
  apply String.eqb_eq in E. tauto.
Qed.

Lemma underivable d key :
  (forall k, reads k key = true -> ~ In k (map fst d)) ->
  get_nested_value d key = PNone.
Proof.
  intros H. rewrite (get_nested_value_agree d [] key).
  - unfold get_nested_value, get_nested_value_body, dict_get_default. simpl dict_get.
    destruct (key =? "sibling_text"); auto.
    destruct (key =? "parent_classes"); auto.
    destruct (key =? "parent_description"); auto.
    destruct (key =? "href"); auto.
    destruct (py_split "." key) as [| k0 rest] eqn:Es; auto.
    exfalso. revert Es. apply split_aux_nonempty.
  - intros k Hk. simpl. apply dict_get_not_key. auto.
Qed.

Lemma shaped_records_unchanged keys pk hier l :
  Forall (shaped keys) l ->
  (forall key k, In key (pk :: hier) -> reads k key = true -> ~ In k keys) ->
  ~ In original_index_key keys ->
  (forall key, In key (pk :: hier) -> reads original_index_key key = false) ->
  add_uniqueness_context_to (PList l) pk hier = Ok (PList l).
Proof.
  intros Hs Hr Ho Hk. unfold add_uniqueness_context_to. cbn [py_iter bind].
  assert (Hds : exists ds, l = map PDict ds /\ Forall (fun d => map fst d = keys) ds).
  { induction Hs as [| r l [d [-> Hd]] _ [ds [-> IH]]].
    - exists []. split; auto.
    - exists (d :: ds). split; auto. }
  destruct Hds as [ds [-> Hds]]. rewrite as_records_map. cbn [bind].
  rewrite Forall_forall in Hds.
  rewrite resolver_identity; auto.
  - intros e He. apply dict_get_not_key. now rewrite (Hds e He).
  - intros e key He Hkey. apply underivable. intros k Hrk.
    rewrite (Hds e He). eauto.
Qed.

Lemma parse_category rules html base N d key v :
  prefix fetch_error_prefix html = false ->
  parse_html_for_elements rules html base N = PDict d ->
  dict_get key d = Some v ->
  v = PList (category key (parse_html_for_elements rules html base N)).
Proof.
  intros Hp Hd Hv. rewrite Hd. unfold category. rewrite Hv.
  rewrite parse_is_run in Hd by assumption.
  remember (fst (run_stages N (stages_of rules (make_soup rules html) base)
                   (initial_elements, 0%Z))) as e eqn:Ee.
  clear Ee. injection Hd as <-.
  clear Hp. induction e as [| [k l] e IH]; simpl in Hv; [discriminate |].
  destruct l; auto. simpl in Hv.
  destruct (k =? key); auto. now inversion Hv.
Qed.

Lemma category_records rules html base N key U r :
  prefix fetch_error_prefix html = false ->
  In (key, U) (emitted rules (make_soup rules html) base) ->
  In r (category key (parse_html_for_elements rules html base N)) ->
  In r U.
Proof.
  intros Hp Hin Hr.
  destruct (category_emitted rules html base N key U Hp Hin) as [[rest ->] _].
  apply in_or_app. now left.
Qed.

(** X18.  The resolver calls of the application on [links] and on [headings]
    change nothing: the records of the extractor keep [text], [id], [href]
    and the like under [dom_context], so that no key of the two calls can be
    derived from them, and the result of the extraction comes back as it
    was. *)
Theorem extracted_links_and_headings_get_no_context rules html base N d :
  prefix fetch_error_prefix html = false ->
  parse_html_for_elements rules html base N = PDict d ->
  resolve_category "links" "text" link_context_hierarchy d = Ok d
  /\ resolve_category "headings" "text" heading_context_hierarchy d = Ok d.
Proof.
  intros Hp Hd. split; unfold resolve_category.
  - destruct (dict_get "links" d) as [v |] eqn:Ev; auto.
    pose proof (parse_category rules html base N d "links" v Hp Hd Ev) as Hv.
    subst v.
    rewrite (shaped_records_unchanged
               ["dom_context"; "is_external_link"; "external_link_popup"]).
    + cbn [bind]. now rewrite dict_set_same_value.
    + apply Forall_forall. intros r Hr.
      apply (category_records rules html base N "links"
               (emit_all link_body (links_of (make_soup rules html)) 0)) in Hr;
        auto; [| unfold emitted; simpl; tauto].
      destruct (emit_all_in _ _ _ _ Hr) as [c [j Hb]].
      eapply link_body_shaped; eauto.
    + intros key k Hkey Hrk Hin. simpl in Hkey, Hin.
      repeat (destruct Hkey as [<- | Hkey];
              [ repeat (destruct Hin as [<- | Hin]; [discriminate |]); destruct Hin |]).
      destruct Hkey.
    + simpl. intuition discriminate.
    + intros key Hkey. simpl in Hkey.
      repeat (destruct Hkey as [<- | Hkey]; [reflexivity |]). destruct Hkey.
  - destruct (dict_get "headings" d) as [v |] eqn:Ev; auto.
    pose proof (parse_category rules html base N d "headings" v Hp Hd Ev) as Hv.
    subst v.
    rewrite (shaped_records_unchanged ["dom_context"; "sequential_index"]).
    + cbn [bind]. now rewrite dict_set_same_value.
    + apply Forall_forall. intros r Hr.
      apply (category_records rules html base N "headings"
               (emit_all heading_body
                  (find_all heading_names (make_soup rules html)) 0)) in Hr;
        auto; [| unfold emitted; simpl; tauto].
      destruct (emit_all_in _ _ _ _ Hr) as [c [j Hb]].
      eapply heading_body_shaped; eauto.
    + intros key k Hkey Hrk Hin. simpl in Hkey, Hin.
      repeat (destruct Hkey as [<- | Hkey];
              [ repeat (destruct Hin as [<- | Hin]; [discriminate |]); destruct Hin |]).
      destruct Hkey.
    + simpl. intuition discriminate.
    + intros key Hkey. simpl in Hkey.
      repeat (destruct Hkey as [<- | Hkey]; [reflexivity |]). destruct Hkey.
Qed.

(** ** What the calls keep *)

Lemma add_uniqueness_context_to_length v pk hier r :
  add_uniqueness_context_to v pk hier = Ok r ->
  exists out, r = PList out /\ length out = length (items_of_value v).
Proof.
  unfold add_uniqueness_context_to. intros H.
  destruct (py_iter v) as [items |] eqn:Ei; cbn [bind] in H; [| discriminate].
  destruct (as_records items) as [records |] eqn:Er; cbn [bind] in H; [| discriminate].
  destruct (add_uniqueness_context records pk hier) as [out |] eqn:Eo;
    cbn [bind] in H; [| discriminate].
  inversion H; subst r. exists (map PDict out). split; auto.
  assert (Hl : length out = length records).
  { destruct records as [| e0 rest].
    - destruct (add_uniqueness_context_inv [] pk hier (or_intror (ex_intro _ out Eo)))
        as [H1 _]. rewrite Eo in H1. now inversion H1.
    - destruct (resolver_record (e0 :: rest) pk hier out 0 e0 Eo eq_refl) as [Hlen _].
      exact Hlen. }
  rewrite length_map. transitivity (length records); [exact Hl |]. clear Hl.
  apply as_records_ok in Er. subst items.
  destruct v; simpl in Ei; try discriminate; inversion Ei; subst; simpl.
  - destruct (chars s); [now destruct records | destruct records; discriminate].
  - now rewrite length_map.
  - destruct d; [now destruct records | destruct records; discriminate].
Qed.

Lemma category_dict_set key k v d :
  category k (PDict (dict_set key v d))
  = if key =? k then items_of_value v else category k (PDict d).
Proof.
  unfold category. destruct (key =? k) eqn:E.
  - apply String.eqb_eq in E. subst. rewrite dict_get_set_same. now destruct v.
  - rewrite dict_get_set_other; auto. intros ->. rewrite String.eqb_refl in E.
    discriminate.
Qed.

Lemma resolve_category_frame key pk hier d d' :
  resolve_category key pk hier d = Ok d' ->
  map fst d' = map fst d
  /\ (forall k, length (category k (PDict d')) = length (category k (PDict d)))
  /\ (forall k, k <> key -> dict_get k d' = dict_get k d).
Proof.
  unfold resolve_category.
  destruct (dict_get key d) as [v |] eqn:Ev.
  - destruct (add_uniqueness_context_to v pk hier) as [r |] eqn:Er;
      cbn [bind]; [| discriminate].
    intros H. inversion H; subst d'.
    destruct (add_uniqueness_context_to_length _ _ _ _ Er) as [out [-> Hl]].
    split; [| split].
    + apply dict_set_keys. congruence.
    + intros k. rewrite category_dict_set. destruct (key =? k) eqn:E; auto.
      apply String.eqb_eq in E. subst k. simpl. rewrite Hl.
      unfold category. rewrite Ev. now destruct v.
    + intros k Hk. apply dict_get_set_other. auto.
  - intros H. inversion H; subst. auto.
Qed.

(** X19.  The six resolver calls of the application keep the keys of the
    result and their order, the number of records of every category, and the
    categories that they are not applied to. *)
Theorem resolver_calls_keep_the_categories d d' :
  add_contexts d = Ok d' ->
  map fst d' = map fst d
  /\ (forall k, length (category k (PDict d')) = length (category k (PDict d)))
  /\ (forall k,
        ~ In k ["paragraphs"; "links"; "headings"; "images_and_logos"; "icons";
                "buttons"] ->
        dict_get k d' = dict_get k d).
Proof.
  unfold add_contexts. intros H.
  repeat match type of H with
         | (bind (resolve_category ?key ?pk ?hier ?x) _) = _ =>
             let p := fresh "p" in
             let E := fresh "E" in
             destruct (resolve_category key pk hier x) as [p |] eqn:E;
             cbn [bind] in H; [| discriminate];
             apply resolve_category_frame in E
         end.
  apply resolve_category_frame in H.
  repeat match goal with
         | H : _ /\ _ |- _ => destruct H
         end.
  split; [congruence |]. split.
  - intros k. congruence.
  - intros k Hk. simpl in Hk.
    repeat match goal with
           | H : forall k, k <> ?key -> _ |- _ =>
               rewrite (H k) by (intros ->; tauto); clear H
           end.
    reflexivity.
Qed.

(** * The records of the source *)

Lemma string_length_app (a b : string) :
  String.length (a ++ b) = String.length a + String.length b.
Proof. induction a; simpl; auto. Qed.

Lemma substring_length : forall n s,
  String.length (substring 0 n s) = Nat.min n (String.length s).
Proof.
  induction n as [| n IH]; intros [| c s]; simpl; auto.
Qed.

Lemma substring_all : forall n s, String.length s <= n -> substring 0 n s = s.
Proof.
  induction n as [| n IH]; intros [| c s] H; simpl in *; auto; try lia.
  rewrite IH; auto. lia.
Qed.

Lemma snippet_short text :
  String.length text <= 100 -> snippet text = text.
Proof.
  intros H. unfold snippet. rewrite substring_all by assumption.
  rewrite (proj2 (Nat.ltb_ge 100 (String.length text))) by assumption.
  apply string_app_nil_r.
Qed.

Lemma snippet_long text :
  100 < String.length text ->
  snippet text = (substring 0 100 text ++ "...")%string
  /\ String.length (snippet text) = 103.
Proof.
  intros H. unfold snippet.
  rewrite (proj2 (Nat.ltb_lt 100 (String.length text))) by assumption.
  split; auto. rewrite string_length_app, substring_length.
  rewrite Nat.min_l by lia. reflexivity.
Qed.

Lemma paragraph_record_emitted h i r :
  paragraph_record h i = Ok (Some r) ->
  r = PDict
        [("tag", PStr (tag_name (here h)));
         ("text_snippet", PStr (snippet (get_text_strip (here h))));
         ("id", attr (here h) "id");
         ("classes", classes_of (here h));
         ("parent", short_parent_info h);
         ("prev_sibling_text", nearest_text (before h));
         ("next_sibling_text", nearest_text (after h));
         ("sequential_index", PInt (Z.of_nat i))]
  /\ (10 <? String.length (get_text_strip (here h)))%nat = true.
Proof.
  unfold paragraph_record. intros H.
  destruct (match parents h with [] => _ | _ => _ end) as [[|] |];
    cbn [bind] in H; try discriminate.
  destruct (match filter _ (tag_contents (here h)) with [] => _ | _ => _ end);
    try discriminate.
  destruct (negb (get_text_strip (here h) =? "")); cbn [andb] in H; try discriminate.
  destruct (10 <? String.length (get_text_strip (here h)))%nat; try discriminate.
  inversion H. auto.
Qed.

(** X20.  A paragraph record is built only for a text of more than 10
    characters; its [text_snippet] is the text when this has at most 100
    characters, and else its first 100 characters followed by three dots, at
    most 103 characters in all. *)
Theorem paragraph_snippet_is_bounded h i r :
  paragraph_record h i = Ok (Some r) ->
  exists d text,
    r = PDict d
    /\ text = get_text_strip (here h)
    /\ dict_get "text_snippet" d = Some (PStr (snippet text))
    /\ 10 < String.length text
    /\ String.length (snippet text) <= 103
    /\ (String.length text <= 100 -> snippet text = text)
    /\ (100 < String.length text ->
          snippet text = (substring 0 100 text ++ "...")%string).
Proof.
  intros H. destruct (paragraph_record_emitted h i r H) as [-> Hl].
  apply Nat.ltb_lt in Hl.
  eexists. exists (get_text_strip (here h)).
  split; [reflexivity |]. split; [reflexivity |]. split; [reflexivity |].
  split; [assumption |]. split; [| split].
  - destruct (Nat.le_gt_cases (String.length (get_text_strip (here h))) 100) as [Hs | Hs].
    + rewrite snippet_short by assumption. lia.
    + destruct (snippet_long _ Hs) as [_ ->]. lia.
  - apply snippet_short.
  - intros Hs. now destruct (snippet_long _ Hs).
Qed.

Lemma settle_some body h i r : settle body h i = Some r -> body h i = Ok (Some r).
Proof. unfold settle. destruct (body h i) as [[x |] |]; intros H; inversion H; auto. Qed.

Lemma heading_body_indexed : indexed heading_body.
Proof.
  intros c i r. unfold heading_body. destruct (negb _); intros H; inversion H.
  eexists. split; reflexivity.
Qed.

Lemma paragraph_body_indexed : indexed (settle paragraph_record).
Proof.
  intros c i r H. apply settle_some in H.
  destruct (paragraph_record_emitted c i r H) as [-> _].
  eexists. split; reflexivity.
Qed.

Lemma button_body_indexed : indexed button_record.
Proof.
  intros c i r. unfold button_record.
  destruct (find_first ["form"] (here c)); [discriminate |].
  destruct (truthy _ || _); intros H; inversion H.
  eexists. split; reflexivity.
Qed.

Lemma image_body_indexed urljoin base : indexed (settle (image_record urljoin base)).
Proof.
  intros c i r H. apply settle_some in H. unfold image_record in H.
  destruct (truthy _); [| discriminate].
  destruct (match parents c with [] => _ | _ => _ end); cbn [bind] in H;
    [| discriminate].
  destruct (lower_of _); cbn [bind] in H; [| discriminate].
  destruct (join_url _ _ _); cbn [bind] in H; [| discriminate].
  inversion H. eexists. split; reflexivity.
Qed.

Lemma icon_body_indexed : indexed (settle icon_record).
Proof.
  intros c i r H. apply settle_some in H. unfold icon_record in H.
  destruct (py_iter _); cbn [bind] in H; [| discriminate].
  destruct (py_any _ _); cbn [bind] in H; [| discriminate].
  destruct (_ || _); inversion H. eexists. split; reflexivity.
Qed.

Lemma svg_body_indexed : indexed svg_record.
Proof.
  intros c i r. unfold svg_record.
  destruct (_ || _); [| discriminate].
  destruct (negb _); intros H; inversion H.
  eexists. split; reflexivity.
Qed.

Lemma emit_all_indexed body : indexed body -> forall cands s j r,
  nth_error (emit_all body cands s) j = Some r ->
  exists d, r = PDict d
    /\ dict_get "sequential_index" d = Some (PInt (Z.of_nat (s + j))).
Proof.
  intros Hb. induction cands as [| c cands IH]; intros s j r H; simpl in H.
  - destruct j; discriminate.
  - destruct (body c s) as [x |] eqn:E; [| now apply IH].
    destruct j as [| j]; simpl in H.
    + inversion H; subst x. rewrite Nat.add_0_r. eapply Hb; eauto.
    + replace (s + S j) with (S s + j) by lia. now apply IH.
Qed.

Lemma emit_all_twice_indexed body1 body2 cands1 cands2 j r :
  indexed body1 -> indexed body2 ->
  nth_error (emit_all body1 cands1 0
             ++ emit_all body2 cands2 (length (emit_all body1 cands1 0))) j = Some r ->
  exists d, r = PDict d
    /\ dict_get "sequential_index" d = Some (PInt (Z.of_nat j)).
Proof.
  intros H1 H2 H.
  destruct (Nat.lt_ge_cases j (length (emit_all body1 cands1 0))) as [Hlt | Hge].
  - rewrite nth_error_app1 in H by assumption.
    apply (emit_all_indexed body1 H1 cands1 0 j r H).
  - rewrite nth_error_app2 in H by assumption.
    destruct (emit_all_indexed body2 H2 _ _ _ _ H) as [d [Hd Hi]].
    exists d. split; auto. rewrite Hi. do 3 f_equal. lia.
Qed.

(** X21.  On a document whose attribute values are as the parser builds them,
    the record at position [j] of [headings], [paragraphs], [buttons],
    [images_and_logos] or [icons] has the [sequential_index] [j]; the two
    icon loops share one index. *)
Theorem sequential_index_is_the_position parser urljoin form html base N key j r :
  In key ["headings"; "paragraphs"; "buttons"; "images_and_logos"; "icons"] ->
  prefix fetch_error_prefix html = false ->
  parsed_document (make_soup (source_rules parser urljoin form) html) = true ->
  nth_error
    (category key
       (parse_html_for_elements (source_rules parser urljoin form) html base N)) j
  = Some r ->
  exists d, r = PDict d
    /\ dict_get "sequential_index" d = Some (PInt (Z.of_nat j)).
Proof.
  intros Hkey Hp _ Hn.
  set (rules := source_rules parser urljoin form) in *.
  assert (Hpre : forall U, In (key, U) (emitted rules (make_soup rules html) base) ->
                   nth_error U j = Some r).
  { intros U HU.
    destruct (category_emitted rules html base N key U Hp HU) as [[rest ->] _].
    rewrite nth_error_app1; auto. apply nth_error_Some. congruence. }
  simpl in Hkey.
  destruct Hkey as [<- | [<- | [<- | [<- | [<- | []]]]]].
  - apply (emit_all_indexed heading_body heading_body_indexed
             (find_all heading_names (make_soup rules html)) 0 j r).
    apply Hpre. unfold emitted. simpl. tauto.
  - apply (emit_all_indexed _ paragraph_body_indexed
             (find_all ["p"] (make_soup rules html)) 0 j r).
    apply Hpre. unfold emitted. simpl. tauto.
  - apply (emit_all_indexed _ button_body_indexed
             (buttons_of (make_soup rules html)) 0 j r).
    apply Hpre. unfold emitted. simpl. tauto.
  - apply (emit_all_indexed _ (image_body_indexed urljoin base)
             (find_all ["img"] (make_soup rules html)) 0 j r).
    apply Hpre. unfold emitted. simpl. tauto.
  - apply (emit_all_twice_indexed _ _ (find_all ["i"; "span"] (make_soup rules html))
             (find_all ["svg"] (make_soup rules html)) j r
             icon_body_indexed svg_body_indexed).
    apply (Hpre (icons_emitted rules (make_soup rules html))).
    unfold emitted. simpl. tauto.
Qed.

Lemma emit_all_complete body : forall cands s c,
  In c cands ->
  exists j, forall r, body c j = Some r -> In r (emit_all body cands s).
Proof.
  induction cands as [| a cands IH]; intros s c H; [destruct H |].
  simpl. destruct H as [-> | H].
  - exists s. intros r Hr. rewrite Hr. now left.
  - destruct (body a s) as [x |].
    + destruct (IH (S s) c H) as [j Hj]. exists j. intros r Hr. right. auto.
    + apply IH; auto.
Qed.

(** X22.  On a document whose attribute values are as the parser builds them,
    a button candidate is skipped for a [form] element below it ([btn.form]
    is [btn.find('form')]) and for nothing above it: with a form below it no
    record is built, and without one a candidate with a text has its record
    in [buttons] when the number of records of the result is below the
    budget. *)
Theorem a_button_is_skipped_for_a_form_below_it parser urljoin form html base N h :
  prefix fetch_error_prefix html = false ->
  parsed_document (make_soup (source_rules parser urljoin form) html) = true ->
  In h (buttons_of (make_soup (source_rules parser urljoin form) html)) ->
  (find_all ["form"] (here h) <> [] -> forall j, button_record h j = None)
  /\ (find_all ["form"] (here h) = [] ->
      get_text_strip (here h) <> "" ->
      (record_count
         (parse_html_for_elements (source_rules parser urljoin form) html base N)
       < N)%Z ->
      exists j r,
        button_record h j = Some r
        /\ In r (category "buttons"
                   (parse_html_for_elements (source_rules parser urljoin form)
                      html base N))).
Proof.
  intros Hp _ Hin. set (rules := source_rules parser urljoin form) in *. split.
  - intros Hf j. unfold button_record, find_first.
    destruct (find_all ["form"] (here h)); [contradiction | reflexivity].
  - intros Hf Ht Hc.
    destruct (category_emitted rules html base N "buttons"
                (emit_all button_record (buttons_of (make_soup rules html)) 0) Hp)
      as [_ Hall].
    { unfold emitted. simpl. tauto. }
    rewrite (Hall Hc).
    destruct (emit_all_complete button_record _ 0 h Hin) as [j Hj].
    assert (Hr : exists r, button_record h j = Some r).
    { unfold button_record, find_first. rewrite Hf.
      assert (Htext : truthy (PStr (get_text_strip (here h))) = true).
      { simpl. destruct (get_text_strip (here h) =? "") eqn:E; auto.
        apply String.eqb_eq in E. contradiction. }
      unfold py_or. repeat rewrite Htext. cbn [orb]. eauto. }
    destruct Hr as [r Hr]. exists j, r. split; auto.
Qed.

(** ** Attribute values as the parser builds them *)

Lemma dict_get_in k v (d : pydict) : dict_get k d = Some v -> In (k, v) d.
Proof.
  induction d as [| [k' v'] d IH]; simpl; [discriminate |].
  destruct (k' =? k) eqn:E.
  - apply String.eqb_eq in E. subst. intros H. inversion H. now left.
  - intros H. right. auto.
Qed.

Lemma parsed_single n k default :
  parsed_attributes n = true -> str_in k multi_valued = false ->
  exists s, dict_get_default k (tag_attrs n) (PStr default) = PStr s.
Proof.
  intros Hp Hk. unfold dict_get_default.
  destruct (dict_get k (tag_attrs n)) as [v |] eqn:E; [| eauto].
  apply dict_get_in in E. unfold parsed_attributes in Hp.
  rewrite forallb_forall in Hp. specialize (Hp _ E). unfold parsed_value in Hp.
  cbn [fst snd] in Hp. rewrite Hk in Hp.
  destruct v; try discriminate. eauto.
Qed.

Lemma parsed_attr n k :
  parsed_attributes n = true -> str_in k multi_valued = false ->
  attr n k = PNone \/ exists s, attr n k = PStr s.
Proof.
  intros Hp Hk. unfold attr, dict_get_default.
  destruct (parsed_single n k "" Hp Hk) as [s Hs]. unfold dict_get_default in Hs.
  destruct (dict_get k (tag_attrs n)); eauto.
Qed.

Lemma parsed_classes n :
  parsed_attributes n = true ->
  (exists l, classes_of n = PList l /\ forallb is_str l = true)
  \/ exists s, classes_of n = PStr s.
Proof.
  intros Hp. unfold classes_of, dict_get_default.
  destruct (dict_get "class" (tag_attrs n)) as [v |] eqn:E.
  - apply dict_get_in in E. unfold parsed_attributes in Hp.
    rewrite forallb_forall in Hp. specialize (Hp _ E). unfold parsed_value in Hp.
    cbn [fst snd] in Hp. destruct v; try discriminate; eauto.
  - left. exists []. auto.
Qed.

Lemma parsed_parent h parent rest :
  parsed_context h = true -> parents h = parent :: rest ->
  parsed_attributes parent = true.
Proof.
  unfold parsed_context. intros H E. rewrite E in H. cbn [forallb] in H.
  apply andb_true_iff in H. destruct H as [_ H].
  apply andb_true_iff in H. tauto.
Qed.

Lemma join_url_value urljoin base v w :
  is_str v = true -> join_url urljoin base v = Ok w -> exists s, w = PStr s.
Proof.
  destruct v; try discriminate. intros _. unfold join_url.
  destruct (base =? ""); [intros H; inversion H; eauto |].
  destruct (urljoin base s); cbn [bind]; intros H; inversion H; eauto.
Qed.

Lemma join_url_raises urljoin base s e :
  join_url urljoin base (PStr s) = Raise e ->
  (base =? "") = false /\ urljoin base s = Raise e.
Proof.
  unfold join_url. destruct (base =? ""); [discriminate |].
  destruct (urljoin base s); cbn [bind]; intros H; inversion H; auto.
Qed.

Lemma py_any_strings word1 word2 : forall l,
  forallb is_str l = true ->
  exists b,
    py_any (fun cls =>
              icon <- py_contains word1 cls ;;
              if icon then Ok true else py_contains word2 cls) l = Ok b.
Proof.
  induction l as [| x l IH]; simpl; [eauto |].
  intros H. apply andb_true_iff in H. destruct H as [Hx Hl].
  destruct x; try discriminate. cbn [py_contains bind].
  destruct (occurs word1 s); cbn [bind]; [eauto |].
  destruct (occurs word2 s); cbn [bind]; eauto.
Qed.

Lemma chars_strings s : forallb is_str (map PStr (chars s)) = true.
Proof. induction (chars s); simpl; auto. Qed.

(** X23.  When the attribute values of an element and of its ancestors are as
    the parser builds them (a string, or a list of strings for a multi-valued
    attribute such as [class]), the bodies of the loops on paragraphs and
    icons raise nothing on the element; the body of the images loop raises
    nothing but what [urljoin] raises on the [src] of the image or on the
    [href] of its parent link, with a base URL that is not empty, and returns
    when [urljoin] returns. *)
Theorem loop_bodies_return_on_parsed_attributes urljoin base_url h i :
  parsed_context h = true ->
  (exists r, paragraph_record h i = Ok r)
  /\ (exists r, icon_record h i = Ok r)
  /\ (forall e, image_record urljoin base_url h i = Raise e ->
        (base_url =? "") = false
        /\ exists u,
             urljoin base_url u = Raise e
             /\ (dict_get_default "src" (tag_attrs (here h)) (PStr "") = PStr u
                 \/ exists parent rest,
                      parents h = parent :: rest
                      /\ tag_name parent = "a"
                      /\ attr parent "href" = PStr u))
  /\ ((forall u, exists s, urljoin base_url u = Ok s) ->
      exists r, image_record urljoin base_url h i = Ok r).
Proof.
  intros Hp. pose proof Hp as Hc. unfold parsed_context in Hc.
  apply andb_true_iff in Hc. destruct Hc as [Hhere _].
  assert (Himg : forall e, image_record urljoin base_url h i = Raise e ->
            (base_url =? "") = false
            /\ exists u,
                 urljoin base_url u = Raise e
                 /\ (dict_get_default "src" (tag_attrs (here h)) (PStr "") = PStr u
                     \/ exists parent rest,
                          parents h = parent :: rest
                          /\ tag_name parent = "a"
                          /\ attr parent "href" = PStr u)).
  { intros e. unfold image_record.
    destruct (parsed_single (here h) "src" "" Hhere eq_refl) as [src Hsrc].
    destruct (parsed_single (here h) "alt" "" Hhere eq_refl) as [alt Halt].
    rewrite Hsrc, Halt. destruct (truthy (PStr src)); [| discriminate].
    destruct (parents h) as [| parent rest] eqn:E.
    - cbn [bind lower_of].
      destruct (join_url urljoin base_url (PStr src)) as [x | e'] eqn:Ej;
        cbn [bind]; [discriminate |].
      intros H. inversion H; subst e'.
      destruct (join_url_raises _ _ _ _ Ej) as [Hb Hu]. split; eauto.
    - destruct (tag_name parent =? "a") eqn:Ea.
      + destruct (parsed_attr parent "href" (parsed_parent h parent rest Hp E) eq_refl)
          as [Hh | [s Hh]]; rewrite Hh.
        * cbn [truthy bind lower_of].
          destruct (join_url urljoin base_url (PStr src)) as [x | e'] eqn:Ej;
            cbn [bind]; [discriminate |].
          intros H. inversion H; subst e'.
          destruct (join_url_raises _ _ _ _ Ej) as [Hb Hu]. split; eauto.
        * destruct (truthy (PStr s)).
          -- destruct (join_url urljoin base_url (PStr s)) as [y | e'] eqn:Ey;
               cbn [bind lower_of].
             ++ destruct (join_url urljoin base_url (PStr src)) as [x | e'] eqn:Ej;
                  cbn [bind]; [discriminate |].
                intros H. inversion H; subst e'.
                destruct (join_url_raises _ _ _ _ Ej) as [Hb Hu]. split; eauto.
             ++ intros H. inversion H; subst e'.
                destruct (join_url_raises _ _ _ _ Ey) as [Hb Hu]. split; auto.
                exists s. split; auto. right. exists parent, rest.
                apply String.eqb_eq in Ea. auto.
          -- cbn [bind lower_of].
             destruct (join_url urljoin base_url (PStr src)) as [x | e'] eqn:Ej;
               cbn [bind]; [discriminate |].
             intros H. inversion H; subst e'.
             destruct (join_url_raises _ _ _ _ Ej) as [Hb Hu]. split; eauto.
      + cbn [bind lower_of].
        destruct (join_url urljoin base_url (PStr src)) as [x | e'] eqn:Ej;
          cbn [bind]; [discriminate |].
        intros H. inversion H; subst e'.
        destruct (join_url_raises _ _ _ _ Ej) as [Hb Hu]. split; eauto. }
  split; [| split; [| split; [exact Himg |]]].
  - unfold paragraph_record.
    destruct (parents h) as [| parent rest] eqn:E; cbn [bind].
    + repeat match goal with |- context [if ?b then _ else _] => destruct b end; eauto.
    + destruct (parsed_single parent "role" "" (parsed_parent h parent rest Hp E)
                  eq_refl) as [s ->].
      cbn [lower_of bind].
      repeat match goal with |- context [if ?b then _ else _] => destruct b end; eauto.
  - unfold icon_record.
    assert (Hcls : exists l, py_iter (classes_of (here h)) = Ok l
                             /\ forallb is_str l = true).
    { destruct (parsed_classes (here h) Hhere) as [[l [-> Hl]] | [s ->]].
      - exists l. auto.
      - exists (map PStr (chars s)). split; auto. apply chars_strings. }
    destruct Hcls as [l [-> Hl]]. cbn [bind].
    destruct (py_any_strings "icon" "logo" l Hl) as [b ->]. cbn [bind].
    match goal with |- context [if ?b then _ else _] => destruct b end; eauto.
  - intros Hjoin.
    destruct (image_record urljoin base_url h i) as [r | e] eqn:E; [eauto |].
    destruct (Himg e eq_refl) as [_ [u [Hu _]]].
    destruct (Hjoin u) as [s Hs]. congruence.
Qed.

(** The body of the images loop raises what [urljoin] raises. *)
Lemma image_body_raises_with_urljoin :
  image_record strict_urljoin sample_base bracket_image 0 = Raise ValueError
  /\ parsed_context bracket_image = true.
Proof. split; reflexivity. Qed.

(** ** The resolver calls on the records of the source *)

Lemma flat_field d k v :
  flat_record d = true -> dict_get k d = Some v -> flat_entry (k, v) = true.
Proof.
  intros Hf Hk. apply dict_get_in in Hk. unfold flat_record in Hf.
  rewrite forallb_forall in Hf. now apply Hf.
Qed.

Lemma flat_simple d k :
  flat_record d = true -> (k =? "classes") = false -> (k =? "parent") = false ->
  hashable (dict_get_default k d PNone) = true.
Proof.
  intros Hf H1 H2. unfold dict_get_default.
  destruct (dict_get k d) as [v |] eqn:E; auto.
  pose proof (flat_field d k v Hf E) as H. unfold flat_entry in H.
  cbn [fst snd] in H. now rewrite H1, H2 in H.
Qed.

Lemma hashable_py_or a b :
  hashable a = true -> hashable b = true -> hashable (py_or a b) = true.
Proof. unfold py_or. now destruct (truthy a). Qed.

Lemma traverse_simple d k :
  match traverse [k] (PDict d) with
  | Some v => v
  | None => PNone
  end = dict_get_default k d PNone.
Proof.
  unfold dict_get_default. simpl. destruct (dict_get k d) as [[] |]; reflexivity.
Qed.

Lemma derived_hashable d key :
  flat_record d = true -> In key application_keys ->
  hashable (get_nested_value d key) = true.
Proof.
  intros Hf Hin.
  assert (Hs : forall k, (k =? "classes") = false -> (k =? "parent") = false ->
                 py_split "." k = [k] ->
                 (k =? "sibling_text") = false -> (k =? "parent_classes") = false ->
                 (k =? "parent_description") = false -> (k =? "href") = false ->
                 hashable (get_nested_value d k) = true).
  { intros k H1 H2 H3 H4 H5 H6 H7.
    pose proof (flat_simple d k Hf H1 H2) as H.
    unfold get_nested_value, get_nested_value_body.
    rewrite H3, H4, H5, H6, H7, H1. cbn [andb].
    pose proof (traverse_simple d k) as Ht.
    destruct (traverse [k] (PDict d)); now rewrite <- Ht in H. }
  unfold application_keys in Hin. simpl in Hin.
  repeat (destruct Hin as [<- | Hin]; [apply Hs; reflexivity |]).
  destruct Hin as [<- | Hin].
  { (* parent.id *)
    unfold get_nested_value, get_nested_value_body.
    change (py_split "." "parent.id") with ["parent"; "id"].
    cbn [String.eqb Ascii.eqb Bool.eqb andb traverse].
    destruct (dict_get "parent" d) as [v |] eqn:E; auto.
    pose proof (flat_field d _ _ Hf E) as H. unfold flat_entry in H.
    cbn [fst snd String.eqb Ascii.eqb Bool.eqb] in H.
    destruct v as [| | | | | p]; auto.
    destruct (dict_get "id" p) as [w |] eqn:E2; auto.
    apply dict_get_in in E2. rewrite forallb_forall in H.
    specialize (H _ E2). cbn [fst snd String.eqb Ascii.eqb Bool.eqb orb] in H.
    destruct w; auto. }
  destruct Hin as [<- | Hin].
  { (* parent_classes *)
    unfold get_nested_value, get_nested_value_body.
    cbn [String.eqb Ascii.eqb Bool.eqb].
    destruct (truthy _); auto.
    destruct (py_get _ "classes" PNone) as [c |]; cbn [bind]; auto.
    destruct (truthy c); auto.
    destruct (py_join " " c); cbn [bind]; auto. }
  destruct Hin as [<- | Hin].
  { (* sibling_text *)
    unfold get_nested_value, get_nested_value_body.
    cbn [String.eqb Ascii.eqb Bool.eqb].
    apply hashable_py_or; apply flat_simple; auto. }
  destruct Hin as [<- | Hin].
  { (* parent_description *)
    unfold get_nested_value, get_nested_value_body.
    cbn [String.eqb Ascii.eqb Bool.eqb].
    destruct (truthy _); auto.
    destruct (py_get _ "tag" _) as [desc |]; cbn [bind]; auto.
    destruct (py_get _ "id" _) as [parent_id |]; cbn [bind]; auto.
    destruct (py_get _ "classes" _) as [c |]; cbn [bind]; auto.
    destruct (truthy parent_id); auto.
    destruct (truthy c); auto.
    destruct (py_join " " c); cbn [bind]; auto. }
  destruct Hin as [<- | []].
  (* classes *)
  unfold get_nested_value, get_nested_value_body.
  change (py_split "." "classes") with ["classes"].
  cbn [String.eqb Ascii.eqb Bool.eqb andb traverse].
  destruct (dict_get "classes" d) as [v |] eqn:E; auto.
  pose proof (flat_field d _ _ Hf E) as H. unfold flat_entry in H.
  cbn [fst snd String.eqb Ascii.eqb Bool.eqb] in H.
  destruct v; auto; cbn [is_list].
  destruct (truthy (PList l)); auto.
  destruct (py_join " " (PList l)); cbn [bind]; auto.
Qed.

Lemma attr_hashable n k :
  parsed_attributes n = true -> str_in k multi_valued = false ->
  hashable (attr n k) = true.
Proof.
  intros Hp Hk. destruct (parsed_attr n k Hp Hk) as [-> | [s ->]]; reflexivity.
Qed.

Lemma default_hashable n k default :
  parsed_attributes n = true -> str_in k multi_valued = false ->
  hashable (dict_get_default k (tag_attrs n) (PStr default)) = true.
Proof.
  intros Hp Hk. destruct (parsed_single n k default Hp Hk) as [s ->]. reflexivity.
Qed.

Lemma classes_flat n :
  parsed_attributes n = true ->
  is_list (classes_of n) || hashable (classes_of n) = true.
Proof.
  intros Hp. destruct (parsed_classes n Hp) as [[l [-> _]] | [s ->]]; reflexivity.
Qed.

Lemma short_parent_info_flat h :
  parsed_context h = true ->
  match short_parent_info h with
  | PDict p => forallb (fun f => (fst f =? "classes") || hashable (snd f)) p
  | _ => true
  end = true.
Proof.
  intros Hp. unfold short_parent_info.
  destruct (parents h) as [| parent rest] eqn:E; auto.
  cbn [forallb fst snd String.eqb Ascii.eqb Bool.eqb orb hashable andb].
  rewrite (attr_hashable parent "id" (parsed_parent h parent rest Hp E) eq_refl).
  reflexivity.
Qed.

Lemma element_sibling_text_hashable l : hashable (element_sibling_text l) = true.
Proof. unfold element_sibling_text. now destruct (nearest_element l). Qed.

Lemma nearest_text_hashable l : hashable (nearest_text l) = true.
Proof.
  unfold nearest_text. destruct l as [| [shown s | name attrs contents] l];
    try apply element_sibling_text_hashable.
  destruct (negb _); [reflexivity | apply element_sibling_text_hashable].
Qed.

Lemma adjacent_text_hashable l : hashable (adjacent_text l) = true.
Proof.
  unfold adjacent_text. destruct l as [| [shown s | name attrs contents] l]; auto.
  now destruct (negb _).
Qed.

Lemma parsed_here h : parsed_context h = true -> parsed_attributes (here h) = true.
Proof. unfold parsed_context. intros H. apply andb_true_iff in H. tauto. Qed.

Ltac flat_fields Hp :=
  unfold flat_record;
  cbn [forallb flat_entry fst snd String.eqb Ascii.eqb Bool.eqb];
  repeat (apply andb_true_intro; split);
  try reflexivity;
  try apply nearest_text_hashable;
  try apply adjacent_text_hashable;
  try apply (short_parent_info_flat _ Hp);
  try apply (classes_flat _ (parsed_here _ Hp));
  try (apply attr_hashable; [exact (parsed_here _ Hp) | reflexivity]);
  try (apply default_hashable; [exact (parsed_here _ Hp) | reflexivity]).

Lemma paragraph_record_flat h i r :
  parsed_context h = true -> paragraph_record h i = Ok (Some r) ->
  exists d, r = PDict d /\ flat_record d = true.
Proof.
  intros Hp H. destruct (paragraph_record_emitted h i r H) as [-> _].
  eexists. split; [reflexivity |]. flat_fields Hp.
Qed.

Lemma button_record_flat h i r :
  parsed_context h = true -> button_record h i = Some r ->
  exists d, r = PDict d /\ flat_record d = true.
Proof.
  intros Hp. unfold button_record.
  destruct (find_first ["form"] (here h)); [discriminate |].
  destruct (truthy _ || _); intros H; inversion H.
  eexists. split; [reflexivity |]. flat_fields Hp.
  repeat apply hashable_py_or; try reflexivity;
    apply default_hashable; auto using parsed_here.
Qed.

Lemma image_record_flat urljoin base h i r :
  parsed_context h = true -> image_record urljoin base h i = Ok (Some r) ->
  exists d, r = PDict d /\ flat_record d = true.
Proof.
  intros Hp H. unfold image_record in H.
  destruct (parsed_single (here h) "src" "" (parsed_here h Hp) eq_refl) as [src Hsrc].
  rewrite Hsrc in H.
  destruct (truthy (PStr src)); [| discriminate].
  destruct (match parents h with [] => _ | _ => _ end) as [parent_href |] eqn:Eh;
    cbn [bind] in H; [| discriminate].
  destruct (lower_of _); cbn [bind] in H; [| discriminate].
  destruct (join_url urljoin base (PStr src)) as [x |] eqn:Hx; cbn [bind] in H;
    [| discriminate].
  destruct (join_url_value urljoin base (PStr src) x eq_refl Hx) as [x' ->].
  inversion H.
  assert (Hh : hashable parent_href = true).
  { destruct (parents h) as [| parent rest] eqn:E; [now inversion Eh |].
    destruct (tag_name parent =? "a"); [| now inversion Eh].
    destruct (parsed_attr parent "href" (parsed_parent h parent rest Hp E) eq_refl)
      as [Ha | [s Ha]]; rewrite Ha in Eh.
    - simpl in Eh. now inversion Eh.
    - destruct (truthy (PStr s)); [| now inversion Eh].
      destruct (join_url urljoin base (PStr s)) as [y |] eqn:Hy; [| discriminate].
      destruct (join_url_value urljoin base (PStr s) y eq_refl Hy) as [y' ->].
      now inversion Eh. }
  eexists. split; [reflexivity |]. flat_fields Hp. exact Hh.
Qed.

Lemma icon_record_flat h i r :
  parsed_context h = true -> icon_record h i = Ok (Some r) ->
  exists d, r = PDict d /\ flat_record d = true.
Proof.
  intros Hp H. unfold icon_record in H.
  destruct (py_iter _); cbn [bind] in H; [| discriminate].
  destruct (py_any _ _); cbn [bind] in H; [| discriminate].
  destruct (_ || _); inversion H.
  eexists. split; [reflexivity |]. flat_fields Hp.
Qed.

Lemma svg_record_flat h i r :
  parsed_context h = true -> svg_record h i = Some r ->
  exists d, r = PDict d /\ flat_record d = true.
Proof.
  intros Hp. unfold svg_record.
  destruct (_ || _); [| discriminate].
  destruct (negb _); intros H; inversion H.
  eexists. split; [reflexivity |]. flat_fields Hp.
  - now destruct (find_first ["title"] (here h)).
  - apply hashable_py_or.
    + apply attr_hashable; auto using parsed_here.
    + now destruct (find_first ["title"] (here h)).
Qed.

Lemma application_keys_untracked key :
  In key application_keys -> reads original_index_key key = false.
Proof.
  unfold application_keys. simpl.
  intros H. repeat (destruct H as [<- | H]; [reflexivity |]). destruct H.
Qed.

Lemma flat_inputs_hashable ds pk hier :
  (forall d, In d ds -> flat_record d = true) ->
  incl (pk :: hier) application_keys ->
  inputs_hashable ds pk hier.
Proof.
  intros Hf Hi t key Ht Hk.
  destruct (enumerate_from_in ds t Ht) as [i [e [He [-> _]]]].
  rewrite get_nested_value_track by (apply application_keys_untracked; auto).
  apply derived_hashable; auto. apply Hf. eapply nth_error_In; eauto.
Qed.

Lemma flat_records_resolve l pk hier :
  (forall r, In r l -> exists d, r = PDict d /\ flat_record d = true) ->
  incl (pk :: hier) application_keys ->
  exists out, add_uniqueness_context_to (PList l) pk hier = Ok out.
Proof.
  intros Hl Hi.
  assert (Hds : exists ds, l = map PDict ds
                           /\ forall d, In d ds -> flat_record d = true).
  { induction l as [| r l IH]; [exists []; split; [reflexivity | intros ? []] |].
    destruct (Hl r (or_introl eq_refl)) as [d [-> Hd]].
    destruct IH as [ds [-> Hds]]; [intros x Hx; apply Hl; now right |].
    exists (d :: ds). split; auto. intros x [<- | Hx]; auto. }
  destruct Hds as [ds [-> Hds]].
  unfold add_uniqueness_context_to. cbn [py_iter bind].
  rewrite as_records_map. cbn [bind].
  rewrite add_uniqueness_context_char
    by (left; now apply flat_inputs_hashable).
  cbn [bind]. eauto.
Qed.

Lemma emit_all_from body : forall cands i r,
  In r (emit_all body cands i) -> exists c j, In c cands /\ body c j = Some r.
Proof.
  induction cands as [| c cands IH]; simpl; intros i r H; [contradiction |].
  destruct (body c i) as [x |] eqn:E.
  - destruct H as [<- | H]; [exists c, i; auto |].
    destruct (IH _ _ H) as [c' [j [H1 H2]]]. eauto.
  - destruct (IH _ _ H) as [c' [j [H1 H2]]]. eauto.
Qed.

Lemma find_all_descendant names soup c :
  In c (find_all names soup) -> In c (descendants soup).
Proof. unfold find_all. intros H. apply filter_In in H. tauto. Qed.

Lemma buttons_of_descendant soup c :
  In c (buttons_of soup) -> In c (descendants soup).
Proof. unfold buttons_of. intros H. apply filter_In in H. tauto. Qed.

Lemma parsed_document_context soup c :
  parsed_document soup = true -> In c (descendants soup) -> parsed_context c = true.
Proof. unfold parsed_document. rewrite forallb_forall. auto. Qed.

Lemma resolve_category_returns key pk hier d :
  (forall v, dict_get key d = Some v ->
     exists r, add_uniqueness_context_to v pk hier = Ok r) ->
  exists d', resolve_category key pk hier d = Ok d'
             /\ forall k, k <> key -> dict_get k d' = dict_get k d.
Proof.
  intros H. unfold resolve_category.
  destruct (dict_get key d) as [v |] eqn:E; [| eauto].
  destruct (H v eq_refl) as [r ->]. cbn [bind].
  eexists. split; [reflexivity |]. intros k Hk. now apply dict_get_set_other.
Qed.

Lemma add_contexts_returns d :
  (forall key pk hier, In (key, (pk, hier)) resolver_calls ->
     forall v, dict_get key d = Some v ->
       exists r, add_uniqueness_context_to v pk hier = Ok r) ->
  exists d', add_contexts d = Ok d'.
Proof.
  intros H. unfold add_contexts.
  destruct (resolve_category_returns "paragraphs" "text_snippet"
              paragraph_context_hierarchy d) as [d1 [-> F1]].
  { apply H. simpl. tauto. }
  cbn [bind].
  destruct (resolve_category_returns "links" "text" link_context_hierarchy d1)
    as [d2 [-> F2]].
  { rewrite F1 by discriminate. apply H. simpl. tauto. }
  cbn [bind].
  destruct (resolve_category_returns "headings" "text" heading_context_hierarchy d2)
    as [d3 [-> F3]].
  { rewrite F2, F1 by discriminate. apply H. simpl. tauto. }
  cbn [bind].
  destruct (resolve_category_returns "images_and_logos" "alt"
              image_context_hierarchy d3) as [d4 [-> F4]].
  { rewrite F3, F2, F1 by discriminate. apply H. simpl. tauto. }
  cbn [bind].
  destruct (resolve_category_returns "icons" "aria_label" icon_context_hierarchy d4)
    as [d5 [-> F5]].
  { rewrite F4, F3, F2, F1 by discriminate. apply H. simpl. tauto. }
  cbn [bind].
  destruct (resolve_category_returns "buttons" "text" button_context_hierarchy d5)
    as [d6 [-> F6]].
  { rewrite F5, F4, F3, F2, F1 by discriminate. apply H. simpl. tauto. }
  eauto.
Qed.

Lemma application_keys_incl pk hier :
  forallb (fun k => str_in k application_keys) (pk :: hier) = true ->
  incl (pk :: hier) application_keys.
Proof.
  intros H k Hk. rewrite forallb_forall in H. specialize (H k Hk).
  unfold str_in in H. apply existsb_exists in H. destruct H as [x [Hx E]].
  apply String.eqb_eq in E. now subst.
Qed.

(** X24.  On a document whose attribute values are as the parser builds them,
    the six resolver calls of the application raise nothing on the result of
    the extraction, whatever the forms loop appends: every value that they
    derive from a record of the extractor is hashable. *)
Theorem resolver_calls_return_on_extracted_records parser urljoin form html base N d :
  prefix fetch_error_prefix html = false ->
  parsed_document (make_soup (source_rules parser urljoin form) html) = true ->
  parse_html_for_elements (source_rules parser urljoin form) html base N = PDict d ->
  exists d', add_contexts d = Ok d'.
Proof.
  intros Hp Hdoc Hd. set (rules := source_rules parser urljoin form) in *.
  set (soup := make_soup rules html) in *.
  assert (Hcat : forall key U v,
            In (key, U) (emitted rules soup base) ->
            dict_get key d = Some v ->
            exists l, v = PList l /\ forall r, In r l -> In r U).
  { intros key U v HU Hv.
    pose proof (parse_category rules html base N d key v Hp Hd Hv) as ->.
    eexists. split; [reflexivity |]. intros r Hr.
    now apply (category_records rules html base N key U r Hp HU). }
  assert (Hctx : forall names c, In c (find_all names soup) -> parsed_context c = true).
  { intros names c Hc. apply (parsed_document_context soup); auto.
    now apply find_all_descendant in Hc. }
  apply add_contexts_returns. intros key pk hier Hcall v Hv.
  simpl in Hcall.
  destruct Hcall as [E | [E | [E | [E | [E | [E | []]]]]]]; inversion E; subst key pk hier;
    clear E.
  - (* paragraphs *)
    destruct (Hcat "paragraphs" _ v (or_intror (or_introl eq_refl)) Hv) as [l [-> Hl]].
    apply flat_records_resolve; [| now apply application_keys_incl].
    intros r Hr. apply Hl in Hr. apply emit_all_from in Hr.
    destruct Hr as [c [j [Hc Hb]]]. apply settle_some in Hb.
    eapply paragraph_record_flat; eauto.
  - (* links *)
    destruct (Hcat "links" _ v (or_intror (or_intror (or_introl eq_refl))) Hv)
      as [l [-> Hl]].
    exists (PList l).
    apply (shaped_records_unchanged
             ["dom_context"; "is_external_link"; "external_link_popup"]).
    + apply Forall_forall. intros r Hr. apply Hl in Hr.
      destruct (emit_all_in _ _ _ _ Hr) as [c [j Hb]].
      eapply link_body_shaped; eauto.
    + intros key k Hkey Hrk Hin. simpl in Hkey, Hin.
      repeat (destruct Hkey as [<- | Hkey];
              [ repeat (destruct Hin as [<- | Hin]; [discriminate |]); destruct Hin |]).
      destruct Hkey.
    + simpl. intuition discriminate.
    + intros key Hkey. simpl in Hkey.
      repeat (destruct Hkey as [<- | Hkey]; [reflexivity |]). destruct Hkey.
  - (* headings *)
    destruct (Hcat "headings" _ v (or_introl eq_refl) Hv) as [l [-> Hl]].
    exists (PList l).
    apply (shaped_records_unchanged ["dom_context"; "sequential_index"]).
    + apply Forall_forall. intros r Hr. apply Hl in Hr.
      destruct (emit_all_in _ _ _ _ Hr) as [c [j Hb]].
      eapply heading_body_shaped; eauto.
    + intros key k Hkey Hrk Hin. simpl in Hkey, Hin.
      repeat (destruct Hkey as [<- | Hkey];
              [ repeat (destruct Hin as [<- | Hin]; [discriminate |]); destruct Hin |]).
      destruct Hkey.
    + simpl. intuition discriminate.
    + intros key Hkey. simpl in Hkey.
      repeat (destruct Hkey as [<- | Hkey]; [reflexivity |]). destruct Hkey.
  - (* images *)
    destruct (Hcat "images_and_logos" _ v
                (or_intror (or_intror (or_intror (or_intror (or_introl eq_refl))))) Hv)
      as [l [-> Hl]].
    apply flat_records_resolve; [| now apply application_keys_incl].
    intros r Hr. apply Hl in Hr. apply emit_all_from in Hr.
    destruct Hr as [c [j [Hc Hb]]]. apply settle_some in Hb.
    eapply image_record_flat; eauto.
  - (* icons *)
    destruct (Hcat "icons" _ v
                (or_intror (or_intror (or_intror (or_intror (or_intror
                   (or_introl eq_refl)))))) Hv)
      as [l [-> Hl]].
    apply flat_records_resolve; [| now apply application_keys_incl].
    intros r Hr. apply Hl in Hr. unfold icons_emitted in Hr.
    apply in_app_or in Hr. destruct Hr as [Hr | Hr]; apply emit_all_from in Hr;
      destruct Hr as [c [j [Hc Hb]]].
    + apply settle_some in Hb. eapply icon_record_flat; eauto.
    + eapply svg_record_flat; eauto.
  - (* buttons *)
    destruct (Hcat "buttons" _ v
                (or_intror (or_intror (or_intror (or_introl eq_refl)))) Hv)
      as [l [-> Hl]].
    apply flat_records_resolve; [| now apply application_keys_incl].
    intros r Hr. apply Hl in Hr. apply emit_all_from in Hr.
    destruct Hr as [c [j [Hc Hb]]].
    eapply button_record_flat; eauto.
    apply (parsed_document_context soup); auto. now apply buttons_of_descendant.
Qed.

(** * The further properties at concrete inputs *)


Lemma contexts_tell_records_apart_witness :
  make_context "parent.id" (PStr "left") <> make_context "parent.id" (PStr "right").
Proof.
  apply (contexts_tell_records_apart [button_left; button_right] "text"
           ["name"; "parent.id"] resolved_buttons 0 1 button_left button_right
           (with_context (make_context "parent.id" (PStr "left")) button_left)
           (with_context (make_context "parent.id" (PStr "right")) button_right));
    try reflexivity.
  - discriminate.
  - right. simpl. intuition discriminate.
Defined.




Lemma add_uniqueness_context_is_idempotent_witness :
  add_uniqueness_context resolved_buttons "text" ["name"; "parent.id"]
  = Ok resolved_buttons.
Proof.
  apply (add_uniqueness_context_is_idempotent [button_left; button_right]).
  - intros e [<- | [<- | []]]; reflexivity.
  - intros key [<- | [<- | [<- | []]]]; split; reflexivity.
  - reflexivity.
Defined.


Lemma href_value_is_the_path_of_the_url_witness :
  get_nested_value link_about "href"
  = PStr (before_first char_question (rstrip_char char_slash "about")).
Proof.
  apply (proj1 href_value_is_the_path_of_the_url link_about "https" "example.com"
           "about"); reflexivity.
Defined.

Lemma determine_link_type_returns_twelve_labels_witness :
  In "action_link"
     ["submenu_item"; "menu_item"; "dropdown_trigger"; "dropdown_item";
      "accordion_item"; "tab_item"; "header_nav_item"; "footer_nav_item";
      "sidebar_nav_item"; "nav_item"]
  \/ (In "action_link" ["action_link"; "regular_link"]
      /\ items_of read_more_context "ancestors" = Ok []).
Proof.
  exact (determine_link_type_returns_twelve_labels read_more_context "action_link"
           eq_refl).
Defined.

Lemma determine_link_type_on_an_extracted_context_witness :
  determine_link_type sample_link_context = Ok "regular_link".
Proof.
  exact (determine_link_type_on_an_extracted_context sample_link
           [("text", PStr "About")] "About" sample_link_context
           eq_refl eq_refl eq_refl).
Defined.

Lemma categories_hold_what_their_loops_emit_witness :
  (exists rest,
      [sample_paragraph_record]
      = category "paragraphs"
          (parse_html_for_elements (source_rules_for sample_document) sample_html
             sample_base 5000) ++ rest)
  /\ ((record_count
         (parse_html_for_elements (source_rules_for sample_document) sample_html
            sample_base 5000) < 5000)%Z ->
      category "paragraphs"
        (parse_html_for_elements (source_rules_for sample_document) sample_html
           sample_base 5000)
      = [sample_paragraph_record]).
Proof.
  apply (categories_hold_what_their_loops_emit (source_rules_for sample_document)
           sample_html sample_base 5000 "paragraphs" [sample_paragraph_record]).
  - reflexivity.
  - right. left. reflexivity.
Defined.

Lemma record_count_is_the_budget_or_everything_witness :
  record_count
    (parse_html_for_elements (source_rules_for sample_document) sample_html
       sample_base 3)
  = Z.max 0
      (Z.min 3
         (total_records
            (emitted (source_rules_for sample_document)
               (make_soup (source_rules_for sample_document) sample_html)
               sample_base))).
Proof.
  apply record_count_is_the_budget_or_everything. reflexivity.
Defined.

Lemma result_is_empty_without_a_record_witness :
  parse_html_for_elements (rules_for two_headings) sample_page sample_base 0
  = PDict [].
Proof.
  apply (proj2 (result_is_empty_without_a_record (rules_for two_headings)
                  sample_page sample_base 0 eq_refl)).
  left. lia.
Defined.

Lemma result_holds_the_filled_categories_witness :
  (forall k v, In (k, v) sample_result ->
     In k ["headings"; "paragraphs"; "links"; "buttons"; "images_and_logos";
           "icons"; "forms"; "semantic_elements"]
     /\ exists l, v = PList l /\ l <> [])
  /\ dict_get "inputs" sample_result = None
  /\ dict_get "error" sample_result = None
  /\ NoDup (map fst sample_result).
Proof.
  exact (result_holds_the_filled_categories (source_rules_for sample_document)
           sample_html sample_base 5000 sample_result eq_refl eq_refl).
Defined.

Lemma semantic_elements_count_the_landmarks_witness :
  length (category "semantic_elements"
            (parse_html_for_elements (source_rules_for sample_document) sample_html
               sample_base 5000)) <= 7.
Proof.
  exact (proj2 (proj2 (semantic_elements_count_the_landmarks
                         (source_rules_for sample_document) sample_html
                         sample_base 5000 eq_refl))).
Defined.

Lemma links_are_the_anchors_with_an_href_witness :
  exists rest,
    map (fun h => link_body h 0)
      (links_of (make_soup (source_rules_for sample_document) sample_html))
    = map Some
        (category "links"
           (parse_html_for_elements (source_rules_for sample_document) sample_html
              sample_base 5000)) ++ rest.
Proof.
  exact (proj1 (links_are_the_anchors_with_an_href
                  (source_rules_for sample_document) sample_html sample_base 5000
                  eq_refl)).
Defined.

Lemma scripts_and_styles_are_out_of_reach_witness :
  context_clean ["script"; "style"] sample_paragraph = true.
Proof.
  apply (scripts_and_styles_are_out_of_reach (source_rules_for sample_document)
           sample_html).
  apply (nth_error_In _ 1). reflexivity.
Defined.

Lemma paragraph_snippet_is_bounded_witness :
  exists d text,
    sample_paragraph_record = PDict d
    /\ text = get_text_strip (here sample_paragraph)
    /\ dict_get "text_snippet" d = Some (PStr (snippet text))
    /\ 10 < String.length text
    /\ String.length (snippet text) <= 103
    /\ (String.length text <= 100 -> snippet text = text)
    /\ (100 < String.length text ->
          snippet text = (substring 0 100 text ++ "...")%string).
Proof.
  exact (paragraph_snippet_is_bounded sample_paragraph 0 sample_paragraph_record
           eq_refl).
Defined.

Lemma a_button_is_skipped_for_a_form_below_it_witness :
  button_record sample_wrapper 0 = None.
Proof.
  refine (proj1 (a_button_is_skipped_for_a_form_below_it
                   (fun _ => sample_document) sample_urljoin no_body sample_html
                   sample_base 5000 sample_wrapper eq_refl eq_refl _) _ 0).
  - apply (nth_error_In _ 1). reflexivity.
  - discriminate.
Defined.

Lemma sequential_index_is_the_position_witness :
  exists d,
    sample_paragraph_record = PDict d
    /\ dict_get "sequential_index" d = Some (PInt (Z.of_nat 0)).
Proof.
  apply (sequential_index_is_the_position (fun _ => sample_document) sample_urljoin
           no_body sample_html sample_base 5000 "paragraphs" 0
           sample_paragraph_record).
  - right. left. reflexivity.
  - reflexivity.
  - reflexivity.
  - reflexivity.
Defined.

Lemma loop_bodies_return_on_parsed_attributes_witness :
  exists r, image_record sample_urljoin sample_base sample_image 0 = Ok r.
Proof.
  apply (proj2 (proj2 (proj2 (loop_bodies_return_on_parsed_attributes
                                sample_urljoin sample_base sample_image 0
                                eq_refl)))).
  intros u. eexists. reflexivity.
Defined.

Lemma extracted_links_and_headings_get_no_context_witness :
  resolve_category "links" "text" link_context_hierarchy sample_result
  = Ok sample_result
  /\ resolve_category "headings" "text" heading_context_hierarchy sample_result
     = Ok sample_result.
Proof.
  exact (extracted_links_and_headings_get_no_context
           (source_rules_for sample_document) sample_html sample_base 5000
           sample_result eq_refl eq_refl).
Defined.

Lemma resolver_calls_keep_the_categories_witness :
  map fst sample_resolved = map fst sample_result
  /\ (forall k, length (category k (PDict sample_resolved))
                = length (category k (PDict sample_result)))
  /\ (forall k,
        ~ In k ["paragraphs"; "links"; "headings"; "images_and_logos"; "icons";
                "buttons"] ->
        dict_get k sample_resolved = dict_get k sample_result).
Proof.
  exact (resolver_calls_keep_the_categories sample_result sample_resolved eq_refl).
Defined.

Lemma resolver_calls_return_on_extracted_records_witness :
  exists d', add_contexts sample_result = Ok d'.
Proof.
  exact (resolver_calls_return_on_extracted_records (fun _ => sample_document)
           sample_urljoin no_body sample_html sample_base 5000 sample_result
           eq_refl eq_refl eq_refl).
Defined.
